(** * smug-broker: pattern routing engine and Slack reference translation

    A shallow embedding of [smug/pr.go], [smug/slack.go], the overrides of
    [smug/config.go] and the shared types of the broker, with the
    properties of the specification stated and settled against it, and
    further properties of the code.

    Conventions.
    - A Go [string] is a sequence of bytes: Rocq's [string], one [ascii] per
      byte.  Functions that range over runes decode UTF-8 the way Go does.
    - [int64] counters are [Z] with the wrap-around written out ([incr64]).
    - A Go [map[string]string] is a [gmap string string]; a nil map is the
      empty map (the code only ranges over maps that may be nil).
    - A run-time panic is the [Panics] outcome of the [go] monad; a returned
      [error] is the right summand of a sum.
    - What lives outside the repository (regexp, net/http, encoding/json,
      the Unicode tables, the Slack client, the slice growth policy of the
      runtime) is a type class whose fields are the entry points used. *)

From Stdlib Require Import ZArith Lia List Ascii String.
From stdpp Require Import base gmap strings list fin_maps.

Set Default Proof Using "Type".

(* ================================================================== *)
(** * Outcomes: values and panics *)
(* ================================================================== *)

Inductive go (A : Type) : Type :=
| Ret (a : A)
| Panics (why : string).
Arguments Ret {A} a.
Arguments Panics {A} why.

Definition go_bind {A B} (m : go A) (k : A → go B) : go B :=
  match m with
  | Ret a => k a
  | Panics why => Panics why
  end.

Notation "x ←! m ; k" := (go_bind m (λ x, k))
  (at level 20, m at level 100, k at level 200, right associativity,
   format "x  ←!  m ;  '/' k").

Notation "' pat ←! m ; k" := (go_bind m (λ pat, k))
  (at level 20, pat pattern, m at level 100, k at level 200,
   right associativity, format "' pat  ←!  m ;  '/' k").

Definition returns {A} (m : go A) : Prop := ∃ a, m = Ret a.

(* ================================================================== *)
(** * Bytes and strings *)
(* ================================================================== *)

Definition byte_val (c : ascii) : Z := Z.of_N (N_of_ascii c).
Definition byte_of (z : Z) : ascii := ascii_of_N (Z.to_N z).

Fixpoint str_forallb (f : ascii → bool) (s : string) : bool :=
  match s with
  | EmptyString => true
  | String c s' => f c && str_forallb f s'
  end.

Fixpoint str_map (f : ascii → ascii) (s : string) : string :=
  match s with
  | EmptyString => EmptyString
  | String c s' => String (f c) (str_map f s')
  end.

Fixpoint str_drop (n : nat) (s : string) : string :=
  match n, s with
  | S n', String _ s' => str_drop n' s'
  | _, _ => s
  end.

Fixpoint str_take (n : nat) (s : string) : string :=
  match n, s with
  | S n', String c s' => String c (str_take n' s')
  | _, _ => EmptyString
  end.

Fixpoint str_concat (l : list string) : string :=
  match l with
  | [] => EmptyString
  | s :: l' => s +:+ str_concat l'
  end.

Definition str_mem (c : ascii) (s : string) : bool :=
  negb (str_forallb (λ d, negb (Ascii.eqb c d)) s).

(** [s[lo:hi]]: a slice expression on a string panics unless
    [lo <= hi <= len(s)]. *)
Definition str_slice (s : string) (lo hi : nat) : go string :=
  if (lo <=? hi) && (hi <=? String.length s)
  then Ret (str_take (hi - lo) (str_drop lo s))
  else Panics "slice bounds out of range".

(** [strings.HasPrefix(s, prefix)] *)
Fixpoint strings_HasPrefix (s prefix : string) {struct prefix} : bool :=
  match prefix, s with
  | EmptyString, _ => true
  | String c prefix', String d s' => Ascii.eqb c d && strings_HasPrefix s' prefix'
  | String _ _, EmptyString => false
  end.
Arguments strings_HasPrefix : simpl never.

(** [strings.Join(elems, sep)] *)
Fixpoint strings_Join (elems : list string) (sep : string) : string :=
  match elems with
  | [] => EmptyString
  | [e] => e
  | e :: rest => e +:+ sep +:+ strings_Join rest sep
  end.

(** [strings.Contains(s, substr)] *)
Fixpoint strings_Contains (s substr : string) : bool :=
  strings_HasPrefix s substr ||
  match s with
  | EmptyString => false
  | String _ s' => strings_Contains s' substr
  end.

(** The length of the longest prefix of [s] whose bytes all satisfy [f]. *)
Fixpoint span (f : ascii → bool) (s : string) : nat :=
  match s with
  | String c s' => if f c then S (span f s') else 0
  | EmptyString => 0
  end.

(** The index of the last byte [c] of [s]. *)
Fixpoint last_index (c : ascii) (s : string) : option nat :=
  match s with
  | EmptyString => None
  | String d s' =>
    match last_index c s' with
    | Some i => Some (S i)
    | None => if Ascii.eqb c d then Some 0 else None
    end
  end.

(* ------------------------------------------------------------------ *)
(** ** UTF-8, as [unicode/utf8] and the [range] clause decode it *)
(* ------------------------------------------------------------------ *)

Local Open Scope Z_scope.

Definition RuneError : Z := 0xFFFD.
Definition MaxRune : Z := 0x10FFFF.
Definition RuneSelf : Z := 0x80.

Definition in_range (lo hi x : Z) : bool := (lo <=? x) && (x <=? hi).
Definition is_cont (b : Z) : bool := in_range 0x80 0xBF b.

(** The range allowed for the second byte, by first byte (the [acceptRanges]
    table of [unicode/utf8]). *)
Definition second_ok (b0 b1 : Z) : bool :=
  if b0 =? 0xE0 then in_range 0xA0 0xBF b1
  else if b0 =? 0xED then in_range 0x80 0x9F b1
  else if b0 =? 0xF0 then in_range 0x90 0xBF b1
  else if b0 =? 0xF4 then in_range 0x80 0x8F b1
  else is_cont b1.

(** [utf8.DecodeRuneInString]: the rune at the head of [s] and its width in
    bytes; an invalid or truncated sequence is [RuneError] of width 1, the
    empty string is [RuneError] of width 0. *)
Definition utf8_DecodeRuneInString (s : string) : Z * nat :=
  match s with
  | EmptyString => (RuneError, 0%nat)
  | String c0 s1 =>
    let b0 := byte_val c0 in
    if b0 <? RuneSelf then (b0, 1%nat)
    else if in_range 0xC2 0xDF b0 then
      match s1 with
      | String c1 _ =>
        let b1 := byte_val c1 in
        if is_cont b1
        then (Z.lor (Z.shiftl (Z.land b0 0x1F) 6) (Z.land b1 0x3F), 2%nat)
        else (RuneError, 1%nat)
      | _ => (RuneError, 1%nat)
      end
    else if in_range 0xE0 0xEF b0 then
      match s1 with
      | String c1 (String c2 _) =>
        let b1 := byte_val c1 in
        let b2 := byte_val c2 in
        if second_ok b0 b1 && is_cont b2
        then (Z.lor (Z.lor (Z.shiftl (Z.land b0 0x0F) 12)
                           (Z.shiftl (Z.land b1 0x3F) 6))
                    (Z.land b2 0x3F), 3%nat)
        else (RuneError, 1%nat)
      | _ => (RuneError, 1%nat)
      end
    else if in_range 0xF0 0xF4 b0 then
      match s1 with
      | String c1 (String c2 (String c3 _)) =>
        let b1 := byte_val c1 in
        let b2 := byte_val c2 in
        let b3 := byte_val c3 in
        if second_ok b0 b1 && is_cont b2 && is_cont b3
        then (Z.lor (Z.lor (Z.lor (Z.shiftl (Z.land b0 0x07) 18)
                                  (Z.shiftl (Z.land b1 0x3F) 12))
                           (Z.shiftl (Z.land b2 0x3F) 6))
                    (Z.land b3 0x3F), 4%nat)
        else (RuneError, 1%nat)
      | _ => (RuneError, 1%nat)
      end
    else (RuneError, 1%nat)
  end.

(** [utf8.EncodeRune] / [utf8.AppendRune]: surrogates and values out of range
    are written as [RuneError]. *)
Definition utf8_EncodeRune (r : Z) : string :=
  let enc3 (r : Z) :=
    String (byte_of (Z.lor 0xE0 (Z.shiftr r 12)))
   (String (byte_of (Z.lor 0x80 (Z.land (Z.shiftr r 6) 0x3F)))
   (String (byte_of (Z.lor 0x80 (Z.land r 0x3F))) EmptyString)) in
  if (r <? 0) || (MaxRune <? r) || in_range 0xD800 0xDFFF r then enc3 RuneError
  else if r <=? 0x7F then String (byte_of r) EmptyString
  else if r <=? 0x7FF then
    String (byte_of (Z.lor 0xC0 (Z.shiftr r 6)))
   (String (byte_of (Z.lor 0x80 (Z.land r 0x3F))) EmptyString)
  else if r <=? 0xFFFF then enc3 r
  else
    String (byte_of (Z.lor 0xF0 (Z.shiftr r 18)))
   (String (byte_of (Z.lor 0x80 (Z.land (Z.shiftr r 12) 0x3F)))
   (String (byte_of (Z.lor 0x80 (Z.land (Z.shiftr r 6) 0x3F)))
   (String (byte_of (Z.lor 0x80 (Z.land r 0x3F))) EmptyString))).

Local Close Scope Z_scope.

(** [for _, char := range s]: the runes of [s] in order.  When a rune has
    been decoded at the head, [skip] counts the bytes of it still to pass. *)
Fixpoint runes_from (skip : nat) (s : string) : list Z :=
  match s with
  | EmptyString => []
  | String _ s' =>
    match skip with
    | S k => runes_from k s'
    | O => let '(r, size) := utf8_DecodeRuneInString s in
           r :: runes_from (size - 1) s'
    end
  end.

(** [[]rune(s)] *)
Definition runes_of_string (s : string) : list Z := runes_from 0 s.

(** [string(rs)] for a rune slice [rs] *)
Definition string_of_runes (rs : list Z) : string :=
  str_concat (utf8_EncodeRune <$> rs).

(** [utf8.RuneCountInString] *)
Definition utf8_RuneCountInString (s : string) : nat := length (runes_of_string s).

(* ------------------------------------------------------------------ *)
(** ** Case mapping *)
(* ------------------------------------------------------------------ *)

(** The Unicode case tables ([unicode.ToLower], [unicode.ToUpper]). *)
Class Unicode := {
  unicode_ToLower : Z → Z;
  unicode_ToUpper : Z → Z;
}.

Definition is_ascii_byte (c : ascii) : bool := (byte_val c <? RuneSelf)%Z.
Definition is_upper_byte (c : ascii) : bool := in_range 65 90 (byte_val c).
Definition is_lower_byte (c : ascii) : bool := in_range 97 122 (byte_val c).

Definition lower_byte (c : ascii) : ascii :=
  if is_upper_byte c then byte_of (byte_val c + 32) else c.
Definition upper_byte (c : ascii) : ascii :=
  if is_lower_byte c then byte_of (byte_val c - 32) else c.

(** [strings.Map(mapping, s)]: every rune of [s] is mapped; a negative result
    drops the rune, any other is written in UTF-8. *)
Definition strings_Map (mapping : Z → Z) (s : string) : string :=
  string_of_runes (filter (λ r, (0 ≤ r)%Z) (mapping <$> runes_of_string s)).

(** [strings.ToLower] and [strings.ToUpper]: bytewise on an ASCII-only string,
    through the Unicode tables otherwise. *)
Definition strings_ToLower `{Unicode} (s : string) : string :=
  if str_forallb is_ascii_byte s then str_map lower_byte s
  else strings_Map unicode_ToLower s.

Definition strings_ToUpper `{Unicode} (s : string) : string :=
  if str_forallb is_ascii_byte s then str_map upper_byte s
  else strings_Map unicode_ToUpper s.

(** An instance that folds the ASCII letters only, for evaluating examples. *)
Definition ascii_case_tables : Unicode := {|
  unicode_ToLower r := if in_range 65 90 r then (r + 32)%Z else r;
  unicode_ToUpper r := if in_range 97 122 r then (r - 32)%Z else r;
|}.


(* ------------------------------------------------------------------ *)
(** ** Replacing and splitting *)
(* ------------------------------------------------------------------ *)

(** The scan of [strings.ReplaceAll(s, old, new)] for a non-empty [old]:
    occurrences are taken from the left and do not overlap.  After an
    occurrence at the head, [skip] counts the bytes of it still to pass. *)
Fixpoint replace_from (old new : string) (skip : nat) (s : string) : string :=
  match s with
  | EmptyString => EmptyString
  | String c s' =>
    match skip with
    | S k => replace_from old new k s'
    | O => if strings_HasPrefix s old
           then new +:+ replace_from old new (String.length old - 1) s'
           else String c (replace_from old new 0 s')
    end
  end.

(** With an empty [old] the replacement goes before every UTF-8 sequence
    and at the end. *)
Fixpoint insert_from (new : string) (skip : nat) (s : string) : string :=
  match s with
  | EmptyString => new
  | String c s' =>
    match skip with
    | S k => String c (insert_from new k s')
    | O => new +:+ String c (insert_from new (snd (utf8_DecodeRuneInString s) - 1) s')
    end
  end.

Definition strings_ReplaceAll (s old new : string) : string :=
  match old with
  | EmptyString => insert_from new 0 s
  | _ => replace_from old new 0 s
  end.

(** The scan of [strings.Split(s, sep)] for a non-empty [sep]; [cur] is the
    part collected since the last separator. *)
Fixpoint split_from (sep : string) (skip : nat) (cur : string) (s : string)
    : list string :=
  match s with
  | EmptyString => [cur]
  | String c s' =>
    match skip with
    | S k => split_from sep k cur s'
    | O => if strings_HasPrefix s sep
           then cur :: split_from sep (String.length sep - 1) EmptyString s'
           else split_from sep 0 (cur +:+ String c EmptyString) s'
    end
  end.

(** [strings.Split(s, sep)]; an empty [sep] explodes [s] into its UTF-8
    sequences. *)
Definition strings_Split (s sep : string) : list string :=
  match sep with
  | EmptyString => utf8_EncodeRune <$> runes_of_string s
  | _ => split_from sep 0 EmptyString s
  end.

(* ================================================================== *)
(** * Shared types ([Event], [EventBlock], broker references) *)
(* ================================================================== *)

(** A [Broker] interface value is compared by identity only; a broker is
    referred to by its address. *)
Definition BrokerRef := positive.

Inductive ContentType := CONTENT_DISPLAY | CONTENT_META.

Record EventBlock := {
  eb_Title : string;
  eb_Text : string;
  eb_ImgUrl : string;
  eb_Type : ContentType;
}.

Record Event := {
  IsCmdOutput : bool;
  Origin : option BrokerRef;
  ReplyBroker : option BrokerRef;
  ReplyTarget : string;
  Actor : string;
  Avatar : string;
  Text : string;
  RawText : string;
  ContentBlocks : list EventBlock;
  ts : Z;
}.

(** [int64] arithmetic for the message counters. *)
Definition wrap64 (z : Z) : Z := ((z + 2 ^ 63) mod 2 ^ 64 - 2 ^ 63)%Z.
Definition incr64 (z : Z) : Z := wrap64 (z + 1).
Definition MaxInt64 : Z := (2 ^ 63 - 1)%Z.

(* ================================================================== *)
(** * Pattern routing ([pr.go]) *)
(* ================================================================== *)

(** A compiled [*regexp.Regexp], by the two methods the broker calls. *)
Record Regexp := {
  SubexpNames : list string;
  FindStringSubmatch : string → list string;
}.

(** What [regexp] guarantees of a compiled expression: a match has one entry
    per subexpression, and subexpression 0 (the whole match) has no name. *)
Definition regexp_wf (re : Regexp) : Prop :=
  (∀ text, FindStringSubmatch re text ≠ [] →
           length (FindStringSubmatch re text) = length (SubexpNames re)) ∧
  head (SubexpNames re) = Some EmptyString.

Class RegexpLib := {
  (** [regexp.Compile]: the compiled expression, or the error text *)
  regexp_Compile : string → Regexp + string;
}.

Record Pattern := {
  p_name : string;
  p_re : Regexp;
  p_url : string;
  p_headers : gmap string string;
  p_vars : gmap string string;
  p_method : string;
  p_help : string;
}.

Abbreviation NamedGroups := (gmap string string).

Section NewPattern.
Context `{Unicode} `{RegexpLib}.

Definition NewExtendedPattern
    (name reg url : string) (headers vars : gmap string string)
    (method help : string) : Pattern + string :=
  if (String.length url <? 10)%nat
     && negb (strings_HasPrefix "http" (strings_ToLower url))
  then inr "url must begin with http"
  else
    match regexp_Compile reg with
    | inr err => inr ("error compiling regex: " +:+ err)
    | inl re =>
      let meth := strings_ToUpper method in
      if negb (String.eqb meth "GET" || String.eqb meth "POST")
      then inr "method must be either GET or POST"
      else inl {| p_name := name;
                  p_re := re;
                  p_url := url;
                  p_headers := headers;
                  p_vars := ∅;      (* the literal leaves [vars] unset *)
                  p_method := method;
                  p_help := help |}
    end.

Definition NewPattern (reg url : string) : Pattern + string :=
  NewExtendedPattern "n/a" reg url ∅ ∅ "POST" EmptyString.

End NewPattern.

Definition Pattern_HelpText (p : Pattern) : string := p_help p.

(** The loop of [ExtractMatches] over [SubexpNames], at index [i]. *)
Fixpoint collect_named (matches : list string) (i : nat) (names : list string)
    (named : NamedGroups) : go NamedGroups :=
  match names with
  | [] => Ret named
  | name :: rest =>
    if negb (i =? 0)%nat && negb (String.eqb name EmptyString)
    then match matches !! i with
         | Some v => collect_named matches (S i) rest (<[name := v]> named)
         | None => Panics "index out of range"
         end
    else collect_named matches (S i) rest named
  end.

Definition ExtractMatches (p : Pattern) (text : string)
    : go (list string * NamedGroups) :=
  let matches := FindStringSubmatch (p_re p) text in
  if (length matches =? 0)%nat then Ret (matches, ∅)
  else named ←! collect_named matches 0 (SubexpNames (p_re p)) ∅;
       Ret (matches, named).

(** ** The HTTP exchange of [Submit] *)

Record Request := {
  req_method : string;
  req_url : string;
  req_body : string;
  req_Header : gmap string string;
}.

Record Response := {
  resp_Status : string;      (* e.g. "200 OK" *)
  resp_Body : string;
}.

Record JsonBlock := { jb_Text : string; jb_Img : string; jb_Title : string }.
Record JsonResponse := { jr_Text : string; jr_Blocks : list JsonBlock }.

Class HttpEnv := {
  (** [json.Marshal] of a [map[string]string]; [None] is an error *)
  json_Marshal : gmap string string → option string;
  (** [http.NewRequest(method, url, body)]; [None] is an error (a nil request) *)
  http_NewRequest : string → string → string → option Request;
  (** [textproto.CanonicalMIMEHeaderKey], applied by [Header.Set] *)
  CanonicalMIMEHeaderKey : string → string;
  (** [client.Do]; [None] is a transport error *)
  client_Do : Request → option Response;
  (** [json.Unmarshal] into a [JsonResponse]; [None] is an error *)
  json_Unmarshal : string → option JsonResponse;
  (** [time.Now()] *)
  time_Now : Z;
}.

(** [for k, v := range m { payload[k] = v }] *)
Definition range_assign (m payload : gmap string string) : gmap string string :=
  map_fold (λ k v acc, <[k := v]> acc) payload m.

(** The payload [Submit] marshals. *)
Definition Submit_payload (p : Pattern) (actor text : string)
    (named : NamedGroups) : gmap string string :=
  let payload := <["actor" := actor]> (<["text" := text]> ∅) in
  let payload := range_assign named payload in
  range_assign (p_vars p) payload.

Definition Header_Set `{HttpEnv} (h : gmap string string) (k v : string)
    : gmap string string :=
  <[CanonicalMIMEHeaderKey k := v]> h.

Definition block_of_json (blk : JsonBlock) : EventBlock :=
  {| eb_Title := jb_Title blk; eb_Text := jb_Text blk;
     eb_ImgUrl := jb_Img blk; eb_Type := CONTENT_DISPLAY |}.

Section Submit.
Context `{HttpEnv}.

(** The request [Submit] sends: [None] when it returns before sending,
    a panic when [http.NewRequest] failed and the nil request is used. *)
Definition Submit_request (p : Pattern) (actor text : string)
    (named : NamedGroups) : go (option Request) :=
  match json_Marshal (Submit_payload p actor text named) with
  | None => Ret None
  | Some reqbody =>
    match http_NewRequest (p_method p) (p_url p) reqbody with
    | None => Panics "nil pointer dereference"
    | Some req =>
      let hdr := Header_Set (req_Header req) "Content-Type" "application/json" in
      let hdr := map_fold (λ h v acc, Header_Set acc h v) hdr (p_headers p) in
      Ret (Some {| req_method := req_method req; req_url := req_url req;
                   req_body := req_body req; req_Header := hdr |})
    end
  end.

(** What [Submit] does with the response: the events sent on [feedback]. *)
Definition Submit_response (originEvt : Event) (resp : Response) : list Event :=
  let body := resp_Body resp in
  if negb (strings_HasPrefix (resp_Status resp) "200") then []
  else if (0 <? String.length body)%nat then
    match json_Unmarshal body with
    | None => []
    | Some dat =>
      [ {| IsCmdOutput := true;
           Origin := None;
           ReplyBroker := ReplyBroker originEvt;
           ReplyTarget := ReplyTarget originEvt;
           Actor := EmptyString;
           Avatar := EmptyString;
           Text := jr_Text dat;
           RawText := EmptyString;
           ContentBlocks := block_of_json <$> jr_Blocks dat;
           ts := time_Now |} ]
    end
  else [].

(** [Pattern.Submit]: the events it sends on the feedback channel. *)
Definition Submit (p : Pattern) (originEvt : Event) (actor text : string)
    (named : NamedGroups) : go (list Event) :=
  oreq ←! Submit_request p actor text named;
  match oreq with
  | None => Ret []
  | Some req =>
    match client_Do req with
    | None => Ret []
    | Some resp => Ret (Submit_response originEvt resp)
    end
  end.
End Submit.

(** ** The broker *)

Inductive MetaPattern :=
| HelperPattern_                      (* &HelperPattern{pbroker: prb} *)
| RegexPattern (p : Pattern).

Record PatternRoutingBroker := {
  patterns : list MetaPattern;
  msgsActn : Z;
  msgsRcvd : Z;
}.

(** What a [Handle] call leaves behind: an event sent on the feedback
    channel, or a goroutine started on [Submit].  The channel is made by
    [Setup] with room for 100 events and a send waits while it is full: a
    list of effects says what a call has done once its send has gone
    through, not how long that took. *)
Inductive Effect :=
| Send (ev : Event)
| GoSubmit (p : Pattern) (originEvt : Event) (actor text : string)
           (named : NamedGroups).

Definition MetaPattern_HelpText (ptn : MetaPattern) : string :=
  match ptn with
  | HelperPattern_ => EmptyString
  | RegexPattern p => Pattern_HelpText p
  end.

Definition PRB_HelpText (prb : PatternRoutingBroker) : string :=
  strings_Join
    (filter (λ ht, ht ≠ EmptyString) (MetaPattern_HelpText <$> patterns prb))
    (String "010"%char EmptyString).

Definition PRB_Name : string := "pattern-router".

Definition AddPattern (prb : PatternRoutingBroker) (newp : MetaPattern)
    : PatternRoutingBroker :=
  {| patterns := patterns prb ++ [newp];
     msgsActn := msgsActn prb; msgsRcvd := msgsRcvd prb |}.

Definition PRB_Setup (prb : PatternRoutingBroker) : PatternRoutingBroker :=
  AddPattern prb HelperPattern_.

(** [Heartbeat]: the counters logged, the reset broker, and [true]. *)
Definition PRB_Heartbeat (prb : PatternRoutingBroker)
    : PatternRoutingBroker * (Z * Z) * bool :=
  ({| patterns := patterns prb; msgsActn := 0; msgsRcvd := 0 |},
   (msgsRcvd prb, msgsActn prb), true).

Section Handle.
Context `{HttpEnv}.

Definition HelperPattern_Handle (prb : PatternRoutingBroker) (ev : Event)
    : bool * list Effect :=
  if strings_HasPrefix (Text ev) "..list" then
    (true, [Send {| IsCmdOutput := true;
                    Origin := None;
                    ReplyBroker := ReplyBroker ev;
                    ReplyTarget := ReplyTarget ev;
                    Actor := EmptyString;
                    Avatar := EmptyString;
                    Text := PRB_HelpText prb;
                    RawText := EmptyString;
                    ContentBlocks := [];
                    ts := time_Now |}])
  else (false, []).

Definition Pattern_Handle (p : Pattern) (ev : Event) : go (bool * list Effect) :=
  '(matches, named) ←! ExtractMatches p (Text ev);
  if (length matches =? 0)%nat then Ret (false, [])
  else Ret (true, [GoSubmit p ev (Actor ev) (Text ev) named]).

Definition Handle (prb : PatternRoutingBroker) (ptn : MetaPattern) (ev : Event)
    : go (bool * list Effect) :=
  match ptn with
  | HelperPattern_ => Ret (HelperPattern_Handle prb ev)
  | RegexPattern p => Pattern_Handle p ev
  end.

(** The loop of [HandleEvent] over the patterns still to try: whether one
    handled the event, and the effects. *)
Fixpoint try_patterns (prb : PatternRoutingBroker) (ptns : list MetaPattern)
    (ev : Event) : go (bool * list Effect) :=
  match ptns with
  | [] => Ret (false, [])
  | ptn :: rest =>
    '(handled, eff) ←! Handle prb ptn ev;
    if handled : bool then Ret (true, eff)
    else '(h, eff') ←! try_patterns prb rest ev; Ret (h, eff ++ eff')
  end.

Definition PRB_HandleEvent (prb : PatternRoutingBroker) (ev : Event)
    : go (PatternRoutingBroker * list Effect) :=
  let prb := {| patterns := patterns prb; msgsActn := msgsActn prb;
                msgsRcvd := incr64 (msgsRcvd prb) |} in
  '(handled, eff) ←! try_patterns prb (patterns prb) ev;
  if handled : bool
  then Ret ({| patterns := patterns prb; msgsActn := incr64 (msgsActn prb);
               msgsRcvd := msgsRcvd prb |}, eff)
  else Ret (prb, eff).
End Handle.

(** Events handled one after the other: the broker after the last of them
    and the effects, in order. *)
Fixpoint PRB_HandleEvents `{HttpEnv} (prb : PatternRoutingBroker)
    (evs : list Event) : go (PatternRoutingBroker * list Effect) :=
  match evs with
  | [] => Ret (prb, [])
  | ev :: rest =>
    '(prb, eff) ←! PRB_HandleEvent prb ev;
    '(prb, eff') ←! PRB_HandleEvents prb rest;
    Ret (prb, eff ++ eff')
  end.

(** One turn of the loop of [Activate], for the router at address [self]:
    the event taken from the feedback channel is broadcast with the router
    for origin. *)
Definition PRB_Activate_step (self : BrokerRef) (ev : Event) : Event :=
  {| IsCmdOutput := IsCmdOutput ev; Origin := Some self;
     ReplyBroker := ReplyBroker ev; ReplyTarget := ReplyTarget ev;
     Actor := Actor ev; Avatar := Avatar ev; Text := Text ev;
     RawText := RawText ev; ContentBlocks := ContentBlocks ev; ts := ts ev |}.

(* ================================================================== *)
(** * Environments for evaluating the model on concrete inputs *)
(* ================================================================== *)

(** The compiled form of an expression made of letters and digits only: it
    has no subexpression but the whole match, and matches the texts that
    contain it. *)
Definition literal_regexp (lit : string) : Regexp := {|
  SubexpNames := [EmptyString];
  FindStringSubmatch text := if strings_Contains text lit then [lit] else [];
|}.

(** The compiled form of an expression with one named group, [who], that
    takes the whole text. *)
Definition who_regexp : Regexp := {|
  SubexpNames := [EmptyString; "who"];
  FindStringSubmatch text := [text; text];
|}.

(** The compiled form of an expression with three groups, the first and
    the last of them named [who]. *)
Definition two_groups : Regexp := {|
  SubexpNames := [EmptyString; "who"; EmptyString; "who"];
  FindStringSubmatch text := [text; "a"; "b"; "c"];
|}.

Definition is_alnum_byte (c : ascii) : bool :=
  in_range 48 57 (byte_val c) || is_upper_byte c || is_lower_byte c.

(** A regexp library that compiles literal expressions and the one above,
    and refuses the rest. *)
Definition literal_RegexpLib : RegexpLib := {|
  regexp_Compile reg :=
    if str_forallb is_alnum_byte reg then inl (literal_regexp reg)
    else if String.eqb reg "(?s)(?P<who>.*)" then inl who_regexp
    else inr "unsupported expression";
|}.

(** The double quote, and the reply body of the examples:
    an object with [text] set to ok and an empty [blocks] array. *)
Definition dq : string := String "034"%char EmptyString.
Definition ok_body : string :=
  "{" +:+ dq +:+ "text" +:+ dq +:+ ":" +:+ dq +:+ "ok" +:+ dq +:+ ","
      +:+ dq +:+ "blocks" +:+ dq +:+ ":[]}".

(** A marshaller good enough for keys and values that need no escaping. *)
Definition marshal_plain (m : gmap string string) : string :=
  "{" +:+ strings_Join
            ((λ kv, dq +:+ kv.1 +:+ dq +:+ ":" +:+ dq +:+ kv.2 +:+ dq)
               <$> map_to_list m) ","
      +:+ "}".

(** An endpoint that answers every request with the given status line and
    body ([None]: the transport fails), with a decoder that knows [ok_body]. *)
Definition fixed_endpoint (answer : option (string * string)) : HttpEnv := {|
  json_Marshal m := Some (marshal_plain m);
  http_NewRequest method url body :=
    Some {| req_method := method; req_url := url; req_body := body;
            req_Header := ∅ |};
  CanonicalMIMEHeaderKey k := k;
  client_Do _ :=
    (λ a, {| resp_Status := a.1; resp_Body := a.2 |}) <$> answer;
  json_Unmarshal body :=
    if String.eqb body ok_body
    then Some {| jr_Text := "ok"; jr_Blocks := [] |} else None;
  time_Now := 0;
|}.

(** [Response.StatusCode], as [net/http] reads it off the status line: three
    decimal digits, then the end or a space. *)
Definition digit_val (c : ascii) : option Z :=
  if in_range 48 57 (byte_val c) then Some (byte_val c - 48)%Z else None.

Definition StatusCode (status : string) : option Z :=
  match status with
  | String a (String b (String c rest)) =>
    match digit_val a, digit_val b, digit_val c with
    | Some x, Some y, Some z =>
      match rest with
      | EmptyString | String " " _ => Some (100 * x + 10 * y + z)%Z
      | _ => None
      end
    | _, _, _ => None
    end
  | _ => None
  end.

(** A 2xx response: the status code lies in 200..299. *)
Definition status_2xx (status : string) : bool :=
  match StatusCode status with
  | Some n => in_range 200 299 n
  | None => false
  end.

(** The feedback events an effect of [Handle] leads to: the event sent, or
    what the started [Submit] sends. *)
Definition feedback_of `{HttpEnv} (e : Effect) : go (list Event) :=
  match e with
  | Send ev => Ret [ev]
  | GoSubmit p originEvt actor text named => Submit p originEvt actor text named
  end.

Definition example_event (text : string) : Event := {|
  IsCmdOutput := false; Origin := Some 1%positive; ReplyBroker := None;
  ReplyTarget := EmptyString; Actor := "bob"; Avatar := EmptyString;
  Text := text; RawText := text; ContentBlocks := []; ts := 0;
|}.

Definition example_pattern (lit : string) : Pattern := {|
  p_name := lit; p_re := literal_regexp lit; p_url := "http://example.com/hook";
  p_headers := ∅; p_vars := ∅; p_method := "POST"; p_help := "say " +:+ lit;
|}.

Definition new_broker : PatternRoutingBroker :=
  {| patterns := []; msgsActn := 0; msgsRcvd := 0 |}.

Section PatternSpec.
Context `{Unicode}.

(** A URL is http(s)-shaped when it begins with "http", in any case. *)
Definition http_shaped (url : string) : bool :=
  strings_HasPrefix (strings_ToLower url) "http".

Definition method_allowed (method : string) : bool :=
  let meth := strings_ToUpper method in
  String.eqb meth "GET" || String.eqb meth "POST".

Definition is_error {A B} (r : A + B) : Prop := ∃ e, r = inr e.

(** The guard on the URL, as written: it asks whether "http" begins with the
    URL, and only of URLs shorter than ten bytes. *)
Definition url_refused (url : string) : bool :=
  (String.length url <? 10)%nat
  && negb (strings_HasPrefix "http" (strings_ToLower url)).

End PatternSpec.

(** Whether a pattern of the broker takes an event: the help handler takes
    the texts that begin with its command, a configured pattern those its
    expression matches. *)
Definition recognizes (q : MetaPattern) (ev : Event) : bool :=
  match q with
  | HelperPattern_ => strings_HasPrefix (Text ev) "..list"
  | RegexPattern p =>
    negb (length (FindStringSubmatch (p_re p) (Text ev)) =? 0)%nat
  end.

Definition MetaPattern_wf (q : MetaPattern) : Prop :=
  match q with
  | HelperPattern_ => True
  | RegexPattern p => regexp_wf (p_re p)
  end.

(** The one effect a pattern has on an event it takes. *)
Definition effect_of_pattern (q : MetaPattern) (ev : Event) (e : Effect) : Prop :=
  match q with
  | HelperPattern_ =>
    ∃ help, e = Send help ∧ IsCmdOutput help = true
            ∧ ReplyBroker help = ReplyBroker ev
            ∧ ReplyTarget help = ReplyTarget ev
  | RegexPattern p =>
    ∃ matches named, ExtractMatches p (Text ev) = Ret (matches, named)
                     ∧ e = GoSubmit p ev (Actor ev) (Text ev) named
  end.

Definition counters_in_range (prb : PatternRoutingBroker) : Prop :=
  (0 ≤ msgsRcvd prb < MaxInt64)%Z ∧ (0 ≤ msgsActn prb < MaxInt64)%Z.

(** The configured patterns of a broker: its patterns but the help handler. *)
Definition configured_patterns (prb : PatternRoutingBroker) : list Pattern :=
  omap (λ q, match q with RegexPattern p => Some p | HelperPattern_ => None end)
       (patterns prb).

(** The second testable property as the specification words it: the first
    configured pattern whose expression matches the text is the one whose
    [Submit] is started, and nothing else happens. *)
Definition first_match_acts `{HttpEnv} (prb : PatternRoutingBroker) (ev : Event)
    : Prop :=
  ∀ pre p post,
    configured_patterns prb = pre ++ p :: post →
    Forall (λ x, FindStringSubmatch (p_re x) (Text ev) = []) pre →
    FindStringSubmatch (p_re p) (Text ev) ≠ [] →
    ∃ prb' named,
      PRB_HandleEvent prb ev
      = Ret (prb', [GoSubmit p ev (Actor ev) (Text ev) named]).

(** A broker after [Setup], with two patterns configured. *)
Definition example_broker : PatternRoutingBroker :=
  AddPattern
    (AddPattern (PRB_Setup new_broker) (RegexPattern (example_pattern "list")))
    (RegexPattern (example_pattern "is")).

(** Whether some pattern of the broker takes the event. *)
Definition taken (prb : PatternRoutingBroker) (ev : Event) : bool :=
  existsb (λ q, recognizes q ev) (patterns prb).

Definition example_events : list Event :=
  [example_event "this list"; example_event "nothing"; example_event "..list"].

(** A pattern with a header of its own. *)
Definition header_pattern : Pattern := {|
  p_name := "deploy"; p_re := literal_regexp "deploy";
  p_url := "http://example.com/hook";
  p_headers := {["X-Token" := "s3cret"]}; p_vars := ∅;
  p_method := "POST"; p_help := EmptyString;
|}.


(* ================================================================== *)
(** * Utilities ([ChunkSplit]) *)
(* ================================================================== *)

(** A [[]rune] built by [append] from nil: the elements within its length,
    and the room left in its array, which [append] has cleared. *)
Record RuneSlice := { rs_elems : list Z; rs_spare : nat }.

Definition rs_len (s : RuneSlice) : nat := length (rs_elems s).
Definition rs_cap (s : RuneSlice) : nat := rs_len s + rs_spare s.

(** The growth policy of [append], which the language leaves to the
    runtime: the capacity of the new array, from the old capacity and the
    length needed, with room for that length at least. *)
Class GoRuntime := {
  growslice_cap : nat → nat → nat;
  growslice_enough : ∀ old needed, needed ≤ growslice_cap old needed;
}.

Definition rs_nil : RuneSlice := {| rs_elems := []; rs_spare := 0 |}.

(** [append(s, x)] *)
Definition rs_append `{GoRuntime} (s : RuneSlice) (x : Z) : RuneSlice :=
  match rs_spare s with
  | S k => {| rs_elems := rs_elems s ++ [x]; rs_spare := k |}
  | O => {| rs_elems := rs_elems s ++ [x];
            rs_spare := growslice_cap (rs_cap s) (S (rs_len s)) - S (rs_len s) |}
  end.

(** [s[:hi]]: the bound of a slice of a slice is its capacity. *)
Definition rs_slice_to (s : RuneSlice) (hi : Z) : go (list Z) :=
  if (0 <=? hi)%Z && (hi <=? Z.of_nat (rs_cap s))%Z
  then Ret (take (Z.to_nat hi) (rs_elems s ++ replicate (rs_spare s) 0%Z))
  else Panics "slice bounds out of range [:hi] with capacity".

(** [s[lo:]]: the upper bound is the length, and [lo] may not pass it. *)
Definition rs_slice_from (s : RuneSlice) (lo : Z) : go RuneSlice :=
  if (0 <=? lo)%Z && (lo <=? Z.of_nat (rs_len s))%Z
  then Ret {| rs_elems := drop (Z.to_nat lo) (rs_elems s);
              rs_spare := rs_spare s |}
  else Panics "slice bounds out of range [lo:len]".

Section ChunkSplit.
Context `{GoRuntime}.

(** The second loop of [ChunkSplit]; [None] when [fuel] iterations did not
    end it. *)
Fixpoint chunk_loop (fuel : nat) (result : list string) (charSlice : RuneSlice)
    (limit : Z) : option (go (list string)) :=
  if (rs_len charSlice <? 1)%nat then Some (Ret result)
  else
    match fuel with
    | O => None
    | S fuel' =>
      match rs_slice_to charSlice limit with
      | Panics why => Some (Panics why)
      | Ret chunk =>
        let result := result ++ [string_of_runes chunk] in
        match rs_slice_from charSlice limit with
        | Panics why => Some (Panics why)
        | Ret charSlice =>
          let limit :=
            if (Z.of_nat (rs_len charSlice) <? limit)%Z
            then Z.of_nat (rs_len charSlice) else limit in
          chunk_loop fuel' result charSlice limit
        end
      end
    end.

(** The first loop: the runes of [body] appended one by one. *)
Definition collect_runes (body : string) : RuneSlice :=
  foldl rs_append rs_nil (runes_of_string body).

Definition ChunkSplit (body : string) (limit : Z) : option (go (list string)) :=
  let charSlice := collect_runes body in
  chunk_loop (S (rs_len charSlice)) [] charSlice limit.

End ChunkSplit.

(** A runtime that doubles the capacity. *)
Definition doubling_runtime : GoRuntime := {|
  growslice_cap old needed := Nat.max needed (2 * old);
  growslice_enough old needed := Nat.le_max_l needed (2 * old);
|}.

(** A list cut into groups of [n], the last one with what is left. *)
Fixpoint groups_fuel {A} (fuel n : nat) (l : list A) : list (list A) :=
  match fuel, l with
  | S f, _ :: _ => take n l :: groups_fuel f n (drop n l)
  | _, _ => []
  end.

Definition groups_of {A} (n : nat) (l : list A) : list (list A) :=
  groups_fuel (length l) n l.

Local Open Scope Z_scope.

(** The shapes of a well-formed sequence at the head of a string. *)
Inductive head_sequence : string → Z → nat → Prop :=
| head_1 c0 rest :
    byte_val c0 < 0x80 →
    head_sequence (String c0 rest) (byte_val c0) 1
| head_2 c0 c1 rest :
    0xC2 ≤ byte_val c0 ≤ 0xDF → 0x80 ≤ byte_val c1 ≤ 0xBF →
    head_sequence (String c0 (String c1 rest))
      ((byte_val c0 - 0xC0) * 64 + (byte_val c1 - 0x80)) 2
| head_3 c0 c1 c2 rest :
    0xE0 ≤ byte_val c0 ≤ 0xEF →
    second_ok (byte_val c0) (byte_val c1) = true →
    0x80 ≤ byte_val c2 ≤ 0xBF →
    head_sequence (String c0 (String c1 (String c2 rest)))
      ((byte_val c0 - 0xE0) * 4096 + (byte_val c1 - 0x80) * 64
       + (byte_val c2 - 0x80)) 3
| head_4 c0 c1 c2 c3 rest :
    0xF0 ≤ byte_val c0 ≤ 0xF4 →
    second_ok (byte_val c0) (byte_val c1) = true →
    0x80 ≤ byte_val c2 ≤ 0xBF →
    0x80 ≤ byte_val c3 ≤ 0xBF →
    head_sequence (String c0 (String c1 (String c2 (String c3 rest))))
      ((byte_val c0 - 0xF0) * 262144 + (byte_val c1 - 0x80) * 4096
       + (byte_val c2 - 0x80) * 64 + (byte_val c3 - 0x80)) 4.

Local Close Scope Z_scope.

(** A rune that has an encoding of its own: a Unicode scalar value. *)
Definition valid_rune (r : Z) : bool :=
  in_range 0 MaxRune r && negb (in_range 0xD800 0xDFFF r).

(** [utf8.ValidString]: no step of the decoding meets a byte that starts no
    well-formed sequence. *)
Fixpoint valid_from (skip : nat) (s : string) : bool :=
  match s with
  | EmptyString => true
  | String _ s' =>
    match skip with
    | S k => valid_from k s'
    | O => let '(r, size) := utf8_DecodeRuneInString s in
           negb ((r =? RuneError)%Z && (size =? 1)%nat) && valid_from (size - 1) s'
    end
  end.

Definition utf8_ValidString (s : string) : bool := valid_from 0 s.

(* ================================================================== *)
(** * The Slack broker ([slack.go]) *)
(* ================================================================== *)

(** ** The user cache *)

Record SlackUser := { Id : string; Nick : string; su_Avatar : string }.

Record SlackUserCache := {
  users : gmap string SlackUser;
  nicks : gmap string SlackUser;
}.

(** What the broker uses of the Slack client: [GetUserInfo] gives the name
    and the avatar of a user, or fails. *)
Class SlackAPI := {
  GetUserInfo : string → option (string * string);
}.

(** [html.UnescapeString], which returns a string with no ampersand as it
    is. *)
Class Html := {
  html_UnescapeString : string → string;
  html_UnescapeString_plain :
    ∀ s, str_mem "&" s = false → html_UnescapeString s = s;
}.

(** The order in which [range] visits a map: any one. *)
Class MapOrder := {
  range_order : gmap string string → list (string * string);
  range_order_perm : ∀ m, range_order m ≡ₚ map_to_list m;
}.

Definition SlackUserCache_Setup : SlackUserCache := {| users := ∅; nicks := ∅ |}.

Section SlackUserCache.
Context `{Unicode} `{SlackAPI}.

Definition CacheUser (suc : SlackUserCache) (user : SlackUser) : SlackUserCache :=
  {| users := <[Id user := user]> (users suc);
     nicks := <[strings_ToLower (Nick user) := user]> (nicks suc) |}.

(** [UserFromAPI]: the cache after the call, and the user unless the lookup
    failed. *)
Definition UserFromAPI (suc : SlackUserCache) (ukey : string)
    : SlackUserCache * option SlackUser :=
  match GetUserInfo ukey with
  | None => (suc, None)
  | Some (name, image72) =>
    let suser := {| Id := ukey; Nick := name; su_Avatar := image72 |} in
    (CacheUser suc suser, Some suser)
  end.

Definition userInIdCache (suc : SlackUserCache) (ukey : string) : option SlackUser :=
  users suc !! ukey.

Definition userInNickCache (suc : SlackUserCache) (nick : string) : option SlackUser :=
  nicks suc !! strings_ToLower nick.

Definition UserNick (suc : SlackUserCache) (ukey : string) (cacheOnly : bool)
    : SlackUserCache * string :=
  match userInIdCache suc ukey with
  | Some cached_user => (suc, Nick cached_user)
  | None =>
    if cacheOnly then (suc, EmptyString)
    else match UserFromAPI suc ukey with
         | (suc, None) => (suc, EmptyString)
         | (suc, Some user) => (suc, Nick user)
         end
  end.

Definition UserId (suc : SlackUserCache) (nick : string) (cacheOnly : bool)
    : SlackUserCache * string :=
  match userInNickCache suc nick with
  | Some cached_user => (suc, Id cached_user)
  | None =>
    if cacheOnly then (suc, EmptyString)
    else match UserFromAPI suc nick with
         | (suc, None) => (suc, EmptyString)
         | (suc, Some user) => (suc, Id user)
         end
  end.

Definition PopulateCache (suc : SlackUserCache) (mems : list string)
    : SlackUserCache :=
  foldl (λ suc uid, fst (UserFromAPI suc uid)) suc mems.

End SlackUserCache.

(** The two indexes of the cache agree with the records they hold: a user
    is filed under its own id, and under its own nick in lower case. *)
Definition cache_wf `{Unicode} (suc : SlackUserCache) : Prop :=
  (∀ k u, users suc !! k = Some u → Id u = k)
  ∧ (∀ k u, nicks suc !! k = Some u → strings_ToLower (Nick u) = k).

(** Every key of the first cache is a key of the second. *)
Definition cache_keeps (suc suc' : SlackUserCache) : Prop :=
  dom (users suc) ⊆ dom (users suc') ∧ dom (nicks suc) ⊆ dom (nicks suc').

(** ** The four expressions of [SetupInternals]

    Each is given by what it matches at the head of a text: the length of
    the match and the bounds of its one group, from the start of the match.
    The classes are those of Go's [regexp]: a word byte is an ASCII letter,
    a digit or the underscore, and the dot takes any byte but the newline
    (no byte of a multi-byte sequence is an ASCII byte, so the expressions
    can be read byte by byte). *)

Definition is_word_byte (c : ascii) : bool :=
  is_alnum_byte c || Ascii.eqb c "_".

Definition is_uid_byte (c : ascii) : bool :=
  is_word_byte c || Ascii.eqb c "|".

Definition not_newline (c : ascii) : bool := negb (Ascii.eqb c "010").

(** The expression for user references: an opening angle bracket and an at
    sign, then the group, a capital U and one or more word bytes or bars,
    then a closing angle bracket. *)
Definition match_uids (s : string) : option (nat * nat * nat) :=
  if strings_HasPrefix s "<@U" then
    let k := span is_uid_byte (str_drop 3 s) in
    if (1 <=? k) && strings_HasPrefix (str_drop (3 + k) s) ">"
    then Some (3 + k + 1, 2, 3 + k)
    else None
  else None.

(** The expression for the name shorthand, tried at the start of the text
    only: the group, one or more word bytes, then a colon. *)
Definition match_usernick (s : string) : option (nat * nat * nat) :=
  let k := span is_word_byte s in
  if (1 <=? k) && strings_HasPrefix (str_drop k s) ":"
  then Some (k + 1, 0, k)
  else None.

(** The expression for at-names: an at sign, then the group, one or more
    word bytes up to a word boundary, which the longest run always meets. *)
Definition match_atusers (s : string) : option (nat * nat * nat) :=
  if strings_HasPrefix s "@" then
    let k := span is_word_byte (str_drop 1 s) in
    if (1 <=? k) then Some (1 + k, 1, 1 + k) else None
  else None.

(** The expression for embedded links: an opening angle bracket, then the
    group, which begins with http and goes on, greedily, for at least one
    more byte on the same line, then a closing angle bracket: the match
    ends at the last closing bracket of the line. *)
Definition match_embeddedurls (s : string) : option (nat * nat * nat) :=
  if strings_HasPrefix s "<http" then
    let rest := str_drop 5 s in
    let line := str_take (span not_newline rest) rest in
    match last_index ">" line with
    | Some (S j) => Some (5 + S j + 1, 1, 5 + S j)
    | _ => None
    end
  else None.

(** One match of [FindAllStringSubmatchIndex]: the bounds of the match and
    of the group, [m[0]] to [m[3]]. *)
Record Match := { m0 : nat; m1 : nat; m2 : nat; m3 : nat }.

(** [FindAllStringSubmatchIndex(s, -1)]: the matches from the left, each
    search starting where the last match ended.  [pos] is the index of the
    head of [s] in the text, [skip] the bytes of the last match still to
    pass. *)
Fixpoint find_all_from (m : string → option (nat * nat * nat)) (pos skip : nat)
    (s : string) : list Match :=
  match s with
  | EmptyString => []
  | String _ s' =>
    match skip with
    | S k => find_all_from m (S pos) k s'
    | O =>
      match m s with
      | Some (len, gs, ge) =>
        {| m0 := pos; m1 := pos + len; m2 := pos + gs; m3 := pos + ge |}
          :: find_all_from m (S pos) (len - 1) s'
      | None => find_all_from m (S pos) 0 s'
      end
    end
  end.

Definition find_all (m : string → option (nat * nat * nat)) (s : string)
    : list Match :=
  find_all_from m 0 0 s.

(** The same for an expression anchored at the start of the text. *)
Definition find_all_anchored (m : string → option (nat * nat * nat)) (s : string)
    : list Match :=
  match m s with
  | Some (len, gs, ge) => [{| m0 := 0; m1 := len; m2 := gs; m3 := ge |}]
  | None => []
  end.

(** An expression whose every match begins with the byte [c]. *)
Definition begins_with (c : ascii) (m : string → option (nat * nat * nat)) : Prop :=
  ∀ s, str_mem c (str_take 1 s) = false → m s = None.

(** An expression whose matches lie within the text they were found in,
    the group within the match. *)
Definition match_within (m : string → option (nat * nat * nat)) : Prop :=
  ∀ s len gs ge, m s = Some (len, gs, ge) →
                 gs ≤ ge ∧ ge ≤ len ∧ len ≤ String.length s.

(** ** The broker *)

Record SlackBroker := {
  usercache : SlackUserCache;
  chanid : string;
  channel : string;
  token : string;
  mybotid : string;
  sb_msgsSent : Z;
  sb_msgsRcvd : Z;
}.

Definition SlackBroker_Name (sb : SlackBroker) : string := "slack-" +:+ channel sb.

(** [SetupInternals]: a fresh cache (the expressions are the ones above). *)
Definition SetupInternals (sb : SlackBroker) : SlackBroker :=
  {| usercache := SlackUserCache_Setup; chanid := chanid sb;
     channel := channel sb; token := token sb; mybotid := mybotid sb;
     sb_msgsSent := sb_msgsSent sb; sb_msgsRcvd := sb_msgsRcvd sb |}.

Definition SlackBroker_Heartbeat (sb : SlackBroker) : SlackBroker * (Z * Z) * bool :=
  ({| usercache := usercache sb; chanid := chanid sb; channel := channel sb;
      token := token sb; mybotid := mybotid sb;
      sb_msgsSent := 0; sb_msgsRcvd := 0 |},
   (sb_msgsRcvd sb, sb_msgsSent sb), true).

Section Translation.
Context `{Unicode} `{SlackAPI} `{MapOrder} `{Html}.

(** The first loop of [ConvertRefsToUsers], over the matches from the last
    to the first: the nick of every reference, looked up once per match and
    kept for the first occurrence met. *)
Fixpoint collect_uids (s : string) (cacheOnly : bool) (rev_matches : list Match)
    (suc : SlackUserCache) (uids : gmap string string)
    : go (SlackUserCache * gmap string string) :=
  match rev_matches with
  | [] => Ret (suc, uids)
  | m :: rest =>
    uid ←! str_slice s (m2 m) (m3 m);
    let '(suc, nick) :=
      if strings_Contains uid "|" then
        match strings_Split uid "|" with
        | part0 :: _ => UserNick suc part0 cacheOnly
        | [] => (suc, EmptyString)
        end
      else UserNick suc uid cacheOnly in
    let uids := match uids !! uid with
                | Some _ => uids
                | None => <[uid := nick]> uids
                end in
    collect_uids s cacheOnly rest suc uids
  end.

Definition ConvertRefsToUsers (suc : SlackUserCache) (s : string) (cacheOnly : bool)
    : go (SlackUserCache * string) :=
  let matches := find_all match_uids s in
  '(suc, uids) ←! collect_uids s cacheOnly (reverse matches) suc ∅;
  Ret (suc, foldl (λ s un, strings_ReplaceAll s ("<@" +:+ un.1 +:+ ">") un.2)
                  s (range_order uids)).

(** The loops of [ConvertUsersToRefs]: [s] is rewritten as the loop goes,
    and the bounds of the matches are those found before it started. *)
Fixpoint usernick_loop (cacheOnly : bool) (rev_matches : list Match)
    (suc : SlackUserCache) (s : string) : go (SlackUserCache * string) :=
  match rev_matches with
  | [] => Ret (suc, s)
  | m :: rest =>
    usernick ←! str_slice s (m2 m) (m3 m);
    let '(suc, uid) := UserId suc usernick cacheOnly in
    let s := if (4 <? String.length uid)%nat
             then strings_ReplaceAll s usernick ("@" +:+ uid) else s in
    usernick_loop cacheOnly rest suc s
  end.

Fixpoint atusers_loop (cacheOnly : bool) (rev_matches : list Match)
    (suc : SlackUserCache) (s : string) : go (SlackUserCache * string) :=
  match rev_matches with
  | [] => Ret (suc, s)
  | m :: rest =>
    usernick ←! str_slice s (m2 m) (m3 m);
    let '(suc, uid) := UserId suc usernick cacheOnly in
    let s := if (1 <? String.length uid)%nat
             then strings_ReplaceAll s ("@" +:+ usernick) ("<@" +:+ uid +:+ ">")
             else s in
    atusers_loop cacheOnly rest suc s
  end.

Definition ConvertUsersToRefs (suc : SlackUserCache) (s : string) (cacheOnly : bool)
    : go (SlackUserCache * string) :=
  let matches := find_all_anchored match_usernick s in
  '(suc, s) ←! usernick_loop cacheOnly (reverse matches) suc s;
  let matches := find_all match_atusers s in
  atusers_loop cacheOnly (reverse matches) suc s.

(** Inbound translation, outbound translation for the same network, and
    inbound translation again: the text after the first step and the text
    after the last. *)
Definition round_trip (suc : SlackUserCache) (s : string) (cacheOnly : bool)
    : go (string * string) :=
  '(suc, s1) ←! ConvertRefsToUsers suc s cacheOnly;
  '(suc, s2) ←! ConvertUsersToRefs suc s1 cacheOnly;
  '(suc, s3) ←! ConvertRefsToUsers suc s2 cacheOnly;
  Ret (s1, s3).

(** The label [SimplifyParse] puts in place of a link, from the parts of
    its group. *)
Definition link_label (entire_url : string) (parts : list string) : string :=
  match parts with
  | [part0] => part0
  | [part0; part1] =>
    if (0 <? String.length part1)%nat then part1 else part0
  | part0 :: _ :: _ :: _ => part0
  | [] => entire_url
  end.

Fixpoint simplify_loop (rev_matches : list Match) (s : string) : go string :=
  match rev_matches with
  | [] => Ret s
  | m :: rest =>
    entire_url ←! str_slice s (m0 m) (m1 m);
    group ←! str_slice s (m2 m) (m3 m);
    let udescr := link_label entire_url (strings_Split group "|") in
    simplify_loop rest (strings_ReplaceAll s entire_url udescr)
  end.

Definition SimplifyParse (s : string) : go string :=
  let matches := find_all match_embeddedurls s in
  s ←! simplify_loop (reverse matches) s;
  Ret (html_UnescapeString s).

End Translation.

(** ** Sending *)

Inductive SlackBlock :=
| SectionBlock (text : string) (accessory : option string).

Inductive MsgContent :=
| MsgOptionBlocks (blocks : list SlackBlock)
| MsgOptionText (text : string).

(** One call of [PostMessage]. *)
Record SlackPost := {
  post_dest : string;
  post_content : MsgContent;
  post_username : string;
  post_icon_emoji : string;
}.

Definition blocks_of (db : EventBlock) : list SlackBlock :=
  (if (0 <? String.length (eb_Title db))%nat
   then [SectionBlock ("*" +:+ eb_Title db +:+ "*") None] else [])
  ++ (if String.eqb (eb_Text db) EmptyString && String.eqb (eb_ImgUrl db) EmptyString
      then []
      else if (0 <? String.length (eb_ImgUrl db))%nat
           then [SectionBlock (eb_Text db) (Some (eb_ImgUrl db))]
           else [SectionBlock (eb_Text db) None]).

Section SlackHandle.
Context `{Unicode} `{SlackAPI} `{MapOrder} `{Html}.

(** [SlackBroker.HandleEvent], for the broker at address [self]: the broker
    after the call and the messages posted. *)
Definition SlackBroker_HandleEvent (self : BrokerRef) (sb : SlackBroker) (ev : Event)
    : go (SlackBroker * list SlackPost) :=
  if match ReplyBroker ev with
     | Some target => negb (Pos.eqb target self)
     | None => false
     end
  then Ret (sb, [])        (* not intended for us *)
  else
    '(suc, txt) ←! ConvertUsersToRefs (usercache sb) (Text ev) false;
    let dest := if (String.length (ReplyTarget ev) =? 0)%nat
                then chanid sb else ReplyTarget ev in
    let msgContent :=
      if (0 <? length (ContentBlocks ev))%nat
      then MsgOptionBlocks (concat (blocks_of <$> ContentBlocks ev))
      else MsgOptionText txt in
    Ret ({| usercache := suc; chanid := chanid sb; channel := channel sb;
            token := token sb; mybotid := mybotid sb;
            sb_msgsSent := sb_msgsSent sb;
            sb_msgsRcvd := incr64 (sb_msgsRcvd sb) |},
         [{| post_dest := dest;
             post_content := msgContent;
             post_username := Actor ev;
             post_icon_emoji := ":avatar_" +:+ Actor ev +:+ ":" |}]).

End SlackHandle.

(** ** Receiving *)

(** What the broker reads of a [slack.MessageEvent]. *)
Record SlackFile := { f_Name : string; f_URLPrivate : string }.

Record SlackAttachment := {
  a_Fallback : string;
  a_Title : string;
  a_ImageURL : string;
}.

Record MessageEvent := {
  e_User : string;
  e_BotID : string;
  e_Channel : string;
  e_Text : string;
  e_Files : list SlackFile;
  e_Attachments : list SlackAttachment;
}.

(** [strings.TrimSpace] *)
Class Strings := {
  strings_TrimSpace : string → string;
}.

(** What one attachment adds to the message: its fallback text, and its
    title with the address of its image. *)
Definition attachment_msgs (a : SlackAttachment) : list string :=
  (if (0 <? String.length (a_Fallback a))%nat then [a_Fallback a] else [])
  ++ (if (0 <? String.length (a_ImageURL a))%nat
      then [a_Title a +:+ " " +:+ a_ImageURL a] else []).

Section Receiving.
Context `{Unicode} `{SlackAPI} `{MapOrder} `{Html} `{Strings} `{HttpEnv}.

(** [ParseToEvent], for the broker at address [self]: the cache after the
    lookups and the event ([time.Now] is the clock of the environment). *)
Definition ParseToEvent (self : BrokerRef) (suc : SlackUserCache) (e : MessageEvent)
    : go (SlackUserCache * Event) :=
  let '(suc, nick) := UserNick suc (e_User e) false in
  let outmsgs :=
    [e_Text e]
    ++ ((λ f, f_Name f +:+ "(" +:+ f_URLPrivate f +:+ ")") <$> e_Files e)
    ++ concat (attachment_msgs <$> e_Attachments e) in
  let outstr := strings_TrimSpace (strings_Join outmsgs " ") in
  '(suc, s) ←! ConvertRefsToUsers suc outstr false;
  text ←! SimplifyParse s;
  Ret (suc, {| IsCmdOutput := false;
               Origin := Some self;
               ReplyBroker := None;
               ReplyTarget := EmptyString;
               Actor := nick;
               Avatar := EmptyString;
               Text := text;
               RawText := outstr;
               ContentBlocks := [];
               ts := time_Now |}).

(** The case of [Activate] for a message: the broker after it and the
    events it broadcasts. *)
Definition SlackBroker_OnMessage (self : BrokerRef) (sb : SlackBroker)
    (e : MessageEvent) : go (SlackBroker * list Event) :=
  if negb (String.eqb (e_BotID e) (mybotid sb))
     && (0 <? String.length (e_User e))%nat
  then
    '(suc, ev) ←! ParseToEvent self (usercache sb) e;
    let ev :=
      if negb (String.eqb (e_Channel e) (chanid sb))
      then {| IsCmdOutput := IsCmdOutput ev; Origin := Origin ev;
              ReplyBroker := Some self; ReplyTarget := e_Channel e;
              Actor := Actor ev; Avatar := Avatar ev; Text := Text ev;
              RawText := RawText ev; ContentBlocks := ContentBlocks ev;
              ts := ts ev |}
      else ev in
    Ret ({| usercache := suc; chanid := chanid sb; channel := channel sb;
            token := token sb; mybotid := mybotid sb;
            sb_msgsSent := incr64 (sb_msgsSent sb);
            sb_msgsRcvd := sb_msgsRcvd sb |}, [ev])
  else Ret (sb, []).

End Receiving.

(** ** Setting up *)

(** What [Setup] reads of a channel of the workspace. *)
Record SlackChannel := {
  ch_Name : string;
  ch_ID : string;
  ch_Members : list string;
}.

(** The calls of [Setup] on the client made for a token: [AuthTest] gives
    the id of the caller, or no response at all; [GetChannels] gives the
    channels, none when it fails. *)
Class SlackWorkspace := {
  AuthTest : string → option string;
  GetChannels : string → list SlackChannel;
}.

Section Setup.
Context `{Unicode} `{SlackAPI} `{SlackWorkspace}.

(** The loop of [Setup] over the channels: the first one that has the name
    of the broker gives its id and its members. *)
Fixpoint setup_channels (sb : SlackBroker) (channels : list SlackChannel)
    : SlackBroker :=
  match channels with
  | [] => sb
  | ch :: rest =>
    if String.eqb (ch_Name ch) (channel sb)
    then {| usercache := PopulateCache (usercache sb) (ch_Members ch);
            chanid := ch_ID ch; channel := channel sb; token := token sb;
            mybotid := mybotid sb; sb_msgsSent := sb_msgsSent sb;
            sb_msgsRcvd := sb_msgsRcvd sb |}
    else setup_channels sb rest
  end.

(** [SlackBroker.Setup(args...)] *)
Definition SlackBroker_Setup (sb : SlackBroker) (args : list string)
    : go SlackBroker :=
  let sb := SetupInternals sb in
  match args with
  | arg0 :: arg1 :: _ =>
    match AuthTest arg0 with
    | None => Panics "nil pointer dereference"
    | Some myuid =>
      let sb := {| usercache := usercache sb; chanid := chanid sb;
                   channel := arg1; token := arg0; mybotid := myuid;
                   sb_msgsSent := sb_msgsSent sb;
                   sb_msgsRcvd := sb_msgsRcvd sb |} in
      Ret (setup_channels sb (GetChannels arg0))
    end
  | _ => Panics "index out of range"
  end.

End Setup.

(** ** Environments for evaluating the Slack broker *)

(** A workspace whose directory knows nobody. *)
Definition no_directory : SlackAPI := {| GetUserInfo _ := None |}.

Definition canonical_order : MapOrder := {|
  range_order := map_to_list;
  range_order_perm m := reflexivity (map_to_list m);
|}.

(** An unescaper for the three entities of Slack's own escaping. *)
Fixpoint unescape_from (skip : nat) (s : string) : string :=
  match s with
  | EmptyString => EmptyString
  | String c s' =>
    match skip with
    | S k => unescape_from k s'
    | O =>
      if strings_HasPrefix s "&lt;" then String "<" (unescape_from 3 s')
      else if strings_HasPrefix s "&gt;" then String ">" (unescape_from 3 s')
      else if strings_HasPrefix s "&amp;" then String "&" (unescape_from 4 s')
      else String c (unescape_from 0 s')
    end
  end.

Definition bob : SlackUser :=
  {| Id := "U12345"; Nick := "bob"; su_Avatar := EmptyString |}.

(** A workspace whose directory knows bob by his id. *)
Definition directory_with_bob : SlackAPI := {|
  GetUserInfo ukey :=
    if String.eqb ukey "U12345" then Some ("bob", EmptyString) else None;
|}.

(** The label the specification asks for, from the segments of a link:
    the human label when there are exactly two segments and the label is
    not empty, the first segment when there is no label or there are more
    than two segments. *)
Inductive label_choice : list string → string → Prop :=
| label_given url label :
    label ≠ EmptyString → label_choice [url; label] label
| label_missing url :
    label_choice [url] url
| label_empty url :
    label_choice [url; EmptyString] url
| label_ambiguous first second third rest :
    label_choice (first :: second :: third :: rest) first.

(** An event addressed to the broker at [target], at the address [dest]. *)
Definition addressed_event (target : BrokerRef) (dest text : string) : Event := {|
  IsCmdOutput := false; Origin := Some target; ReplyBroker := Some target;
  ReplyTarget := dest; Actor := "bob"; Avatar := EmptyString;
  Text := text; RawText := text; ContentBlocks := []; ts := 0;
|}.

Definition example_slack : SlackBroker := {|
  usercache := @CacheUser ascii_case_tables SlackUserCache_Setup bob;
  chanid := "C1"; channel := "general"; token := "xoxb"; mybotid := "B1";
  sb_msgsSent := 0; sb_msgsRcvd := 0;
|}.

(** The reading of the reply-broker rule for the pattern router at address
    [self]: an event addressed to another broker leaves it as it was, with
    no effect. *)
Definition router_ignores_addressed `{HttpEnv} (self : BrokerRef)
    (prb : PatternRoutingBroker) (ev : Event) : Prop :=
  ∀ target, ReplyBroker ev = Some target → target ≠ self →
            PRB_HandleEvent prb ev = Ret (prb, []).

(** A user whose nick is long and whose id is short. *)
Definition bob_the_long : SlackUser :=
  {| Id := "U1"; Nick := "robert_the_long"; su_Avatar := EmptyString |}.

(** The line break. *)
Definition newline : string := String "010" EmptyString.

(** A [TrimSpace] for texts of ASCII bytes: the six ASCII space bytes go
    from both ends. *)
Definition is_ascii_space (c : ascii) : bool :=
  in_range 9 13 (byte_val c) || Ascii.eqb c " ".

Fixpoint trim_left (s : string) : string :=
  match s with
  | String c s' => if is_ascii_space c then trim_left s' else s
  | EmptyString => EmptyString
  end.

Fixpoint trim_right (s : string) : string :=
  match s with
  | String c s' =>
    match trim_right s' with
    | EmptyString => if is_ascii_space c then EmptyString
                     else String c EmptyString
    | t => String c t
    end
  | EmptyString => EmptyString
  end.

Definition ascii_strings : Strings := {|
  strings_TrimSpace s := trim_right (trim_left s);
|}.

(** A message sent to the bot in the private channel D1. *)
Definition private_message : MessageEvent := {|
  e_User := "U12345"; e_BotID := EmptyString; e_Channel := "D1";
  e_Text := " deploy now "; e_Files := []; e_Attachments := [];
|}.

Definition private_event : Event := {|
  IsCmdOutput := false; Origin := Some 7%positive;
  ReplyBroker := Some 7%positive; ReplyTarget := "D1"; Actor := "bob";
  Avatar := EmptyString; Text := "deploy now"; RawText := "deploy now";
  ContentBlocks := []; ts := 0;
|}.

Definition ok_response : Response :=
  {| resp_Status := "200 OK"; resp_Body := ok_body |}.

Definition ok_feedback : Event := {|
  IsCmdOutput := true; Origin := None;
  ReplyBroker := Some 7%positive; ReplyTarget := "D1"; Actor := EmptyString;
  Avatar := EmptyString; Text := "ok"; RawText := EmptyString;
  ContentBlocks := []; ts := 0;
|}.

(** A workspace with two channels; the directory knows bob only. *)
Definition example_workspace : SlackWorkspace := {|
  AuthTest tok := if String.eqb tok "xoxb" then Some "B1" else None;
  GetChannels _ :=
    [ {| ch_Name := "random"; ch_ID := "C0"; ch_Members := ["U777"] |};
      {| ch_Name := "general"; ch_ID := "C1";
         ch_Members := ["U12345"; "U999"] |} ];
|}.

(* ================================================================== *)
(** * Configuration ([config.go]) *)
(* ================================================================== *)

Record PatternConfig := {
  pc_Name : string;
  pc_Help : string;
  pc_RegEx : string;
  pc_Url : string;
  pc_Method : string;
  pc_Headers : gmap string string;
  pc_Vars : gmap string string;
}.

Record BrokerConfig := {
  bc_Type : string;
  bc_Server : string;
  bc_ApiToken : string;
  bc_UseSSL : bool;
  bc_Nick : string;
  bc_Channel : string;
  bc_Patterns : list PatternConfig;
}.

(** [Brokers] maps a name to a pointer: [None] is the nil pointer, which a
    null entry of the file gives. *)
Record Config := {
  ActiveBrokers : list string;
  Brokers : gmap string (option BrokerConfig);
}.

(** The fields of [BrokerConfig], in the order of the declaration, as
    [reflect] numbers them. *)
Inductive ConfigField :=
| F_Type | F_Server | F_ApiToken | F_UseSSL | F_Nick | F_Channel | F_Patterns.

Definition BrokerConfig_fields : list ConfigField :=
  [F_Type; F_Server; F_ApiToken; F_UseSSL; F_Nick; F_Channel; F_Patterns].

(** The [envcfg] tag of a field; a field without the tag has the empty
    one. *)
Definition envcfg_tag (f : ConfigField) : string :=
  match f with
  | F_Server => "SERVER"
  | F_ApiToken => "APITOKEN"
  | F_UseSSL => "SSL"
  | F_Nick => "NICK"
  | F_Channel => "CHANNEL"
  | F_Type | F_Patterns => EmptyString
  end.

(** [reflect.Value.SetString] on a field: it panics unless the field is a
    string. *)
Definition SetString (bcfg : BrokerConfig) (f : ConfigField) (val : string)
    : go BrokerConfig :=
  match f with
  | F_Type =>
    Ret {| bc_Type := val; bc_Server := bc_Server bcfg;
           bc_ApiToken := bc_ApiToken bcfg; bc_UseSSL := bc_UseSSL bcfg;
           bc_Nick := bc_Nick bcfg; bc_Channel := bc_Channel bcfg;
           bc_Patterns := bc_Patterns bcfg |}
  | F_Server =>
    Ret {| bc_Type := bc_Type bcfg; bc_Server := val;
           bc_ApiToken := bc_ApiToken bcfg; bc_UseSSL := bc_UseSSL bcfg;
           bc_Nick := bc_Nick bcfg; bc_Channel := bc_Channel bcfg;
           bc_Patterns := bc_Patterns bcfg |}
  | F_ApiToken =>
    Ret {| bc_Type := bc_Type bcfg; bc_Server := bc_Server bcfg;
           bc_ApiToken := val; bc_UseSSL := bc_UseSSL bcfg;
           bc_Nick := bc_Nick bcfg; bc_Channel := bc_Channel bcfg;
           bc_Patterns := bc_Patterns bcfg |}
  | F_Nick =>
    Ret {| bc_Type := bc_Type bcfg; bc_Server := bc_Server bcfg;
           bc_ApiToken := bc_ApiToken bcfg; bc_UseSSL := bc_UseSSL bcfg;
           bc_Nick := val; bc_Channel := bc_Channel bcfg;
           bc_Patterns := bc_Patterns bcfg |}
  | F_Channel =>
    Ret {| bc_Type := bc_Type bcfg; bc_Server := bc_Server bcfg;
           bc_ApiToken := bc_ApiToken bcfg; bc_UseSSL := bc_UseSSL bcfg;
           bc_Nick := bc_Nick bcfg; bc_Channel := val;
           bc_Patterns := bc_Patterns bcfg |}
  | F_UseSSL => Panics "reflect: call of reflect.Value.SetString on bool Value"
  | F_Patterns => Panics "reflect: call of reflect.Value.SetString on slice Value"
  end.

(** The environment of the process: [os.Getenv] gives the empty string for
    a variable that is not set. *)
Class Environ := {
  os_Getenv : string → string;
}.

Section EnvOverrides.
Context `{Unicode} `{Environ}.

(** The name of the variable that overrides a field of the broker [key]. *)
Definition envnm (key envkey : string) : string :=
  "SMUG_" +:+ strings_ToUpper key +:+ "_" +:+ envkey.

(** The inner loop of [envOverrides], over the fields of one broker. *)
Fixpoint override_fields (key : string) (fields : list ConfigField)
    (bcfg : BrokerConfig) : go BrokerConfig :=
  match fields with
  | [] => Ret bcfg
  | fld :: rest =>
    let envkey := envcfg_tag fld in
    if String.eqb envkey EmptyString then override_fields key rest bcfg
    else
      let val := os_Getenv (envnm key envkey) in
      if String.eqb val EmptyString then override_fields key rest bcfg
      else bcfg ←! SetString bcfg fld val;
           override_fields key rest bcfg
  end.

(** The body of the outer loop, for one broker of the map. *)
Definition override_broker (key : string) (bcfg : option BrokerConfig)
    : go (option BrokerConfig) :=
  match bcfg with
  | None => Panics "nil pointer dereference"
  | Some bcfg =>
    bcfg ←! override_fields key BrokerConfig_fields bcfg;
    Ret (Some bcfg)
  end.

(** [envOverrides]: the map keeps its keys, and every broker is rewritten
    where it is. *)
Definition envOverrides (cfg : Config) : go Config :=
  brokers ←! map_fold
               (λ key bcfg acc,
                  done ←! acc;
                  bcfg ←! override_broker key bcfg;
                  Ret (<[key := bcfg]> done))
               (Ret ∅) (Brokers cfg);
  Ret {| ActiveBrokers := ActiveBrokers cfg; Brokers := brokers |}.

(** What the overrides make of one broker, when they do not panic: a
    variable that is set and not empty takes the place of the setting. *)
Definition overridden (key : string) (bcfg : BrokerConfig) : BrokerConfig :=
  let pick (envkey old : string) :=
    let val := os_Getenv (envnm key envkey) in
    if String.eqb val EmptyString then old else val in
  {| bc_Type := bc_Type bcfg;
     bc_Server := pick "SERVER" (bc_Server bcfg);
     bc_ApiToken := pick "APITOKEN" (bc_ApiToken bcfg);
     bc_UseSSL := bc_UseSSL bcfg;
     bc_Nick := pick "NICK" (bc_Nick bcfg);
     bc_Channel := pick "CHANNEL" (bc_Channel bcfg);
     bc_Patterns := bc_Patterns bcfg |}.

End EnvOverrides.

(** An environment with two variables set for the broker irc. *)
Definition example_environ (ssl : string) : Environ := {|
  os_Getenv name :=
    if String.eqb name "SMUG_IRC_SERVER" then "irc.example.com:6667"
    else if String.eqb name "SMUG_IRC_SSL" then ssl
    else EmptyString;
|}.

Definition irc_config : BrokerConfig := {|
  bc_Type := "irc"; bc_Server := "localhost:6667"; bc_ApiToken := EmptyString;
  bc_UseSSL := false; bc_Nick := "smug"; bc_Channel := "#smug";
  bc_Patterns := [];
|}.

Definition example_config : Config :=
  {| ActiveBrokers := ["irc"]; Brokers := {["irc" := Some irc_config]} |}.

(* ================================================================== *)
(** * Properties *)
(* ================================================================== *)

(* ------------------------------------------------------------------ *)
(** ** Outcomes *)
(* ------------------------------------------------------------------ *)

Lemma go_bind_Ret {A B} (a : A) (k : A → go B) : go_bind (Ret a) k = k a.
Proof. reflexivity. Qed.

Ltac go_step := rewrite go_bind_Ret; cbv beta.

(* ------------------------------------------------------------------ *)
(** ** Strings *)
(* ------------------------------------------------------------------ *)

Lemma str_app_cons (c : ascii) (s t : string) :
  String c s +:+ t = String c (s +:+ t).
Proof. reflexivity. Qed.

Lemma str_app_nil_l (s : string) : EmptyString +:+ s = s.
Proof. reflexivity. Qed.

Lemma str_app_nil_r (s : string) : s +:+ EmptyString = s.
Proof. induction s as [|c s IH]; [done|]. by rewrite str_app_cons, IH. Qed.

Lemma str_app_assoc (s1 s2 s3 : string) :
  (s1 +:+ s2) +:+ s3 = s1 +:+ (s2 +:+ s3).
Proof. induction s1 as [|c s1 IH]; [done|]. by rewrite !str_app_cons, IH. Qed.

Lemma str_length_app (s1 s2 : string) :
  String.length (s1 +:+ s2) = String.length s1 + String.length s2.
Proof. induction s1 as [|c s1 IH]; [done|]. rewrite str_app_cons. simpl. by rewrite IH. Qed.

Lemma str_drop_app_length (s rest : string) :
  str_drop (String.length s) (s +:+ rest) = rest.
Proof. induction s as [|c s IH]; [done|]. rewrite str_app_cons. simpl. exact IH. Qed.

Lemma str_concat_app (l1 l2 : list string) :
  str_concat (l1 ++ l2) = str_concat l1 +:+ str_concat l2.
Proof.
  induction l1 as [|s l1 IH]; simpl; [done|].
  by rewrite IH, str_app_assoc.
Qed.

Lemma HasPrefix_app (s prefix : string) :
  strings_HasPrefix s prefix = true ↔ ∃ rest, s = prefix +:+ rest.
Proof.
  revert s. induction prefix as [|c prefix IH]; intros s.
  - split; [by exists s|done].
  - destruct s as [|d s].
    + split; [done|]. by intros [rest ?].
    + change (strings_HasPrefix (String d s) (String c prefix))
        with (Ascii.eqb c d && strings_HasPrefix s prefix).
      rewrite andb_true_iff, IH. split.
      * intros [Hc [rest ->]]. apply Ascii.eqb_eq in Hc as ->. by exists rest.
      * intros [rest [= -> ->]]. split; [apply Ascii.eqb_refl|eauto].
Qed.

Example ToLower_Bob : @strings_ToLower ascii_case_tables "Bob" = "bob".
Proof. reflexivity. Qed.

Example runes_euro : runes_of_string (utf8_EncodeRune 0x20AC) = [0x20AC%Z].
Proof. reflexivity. Qed.

(* ------------------------------------------------------------------ *)
(** ** Scanning a text: prefixes, membership, matches, replacement *)
(* ------------------------------------------------------------------ *)

Lemma HasPrefix_cons (c d : ascii) (s prefix : string) :
  strings_HasPrefix (String d s) (String c prefix)
  = Ascii.eqb c d && strings_HasPrefix s prefix.
Proof. reflexivity. Qed.

Lemma HasPrefix_nil (s : string) : strings_HasPrefix s EmptyString = true.
Proof. by destruct s. Qed.

Lemma HasPrefix_self_app (prefix rest : string) :
  strings_HasPrefix (prefix +:+ rest) prefix = true.
Proof. apply HasPrefix_app. by exists rest. Qed.

Lemma str_mem_nil (c : ascii) : str_mem c EmptyString = false.
Proof. reflexivity. Qed.

Lemma str_mem_cons (c d : ascii) (s : string) :
  str_mem c (String d s) = Ascii.eqb c d || str_mem c s.
Proof. unfold str_mem. simpl. by destruct (Ascii.eqb c d). Qed.

Lemma str_mem_app (c : ascii) (s1 s2 : string) :
  str_mem c (s1 +:+ s2) = str_mem c s1 || str_mem c s2.
Proof.
  induction s1 as [|d s1 IH]; [done|].
  by rewrite str_app_cons, !str_mem_cons, IH, orb_assoc.
Qed.

(** A text without the byte [c] does not begin with a prefix that starts
    with [c]. *)
Lemma HasPrefix_not_mem (c : ascii) (s prefix : string) :
  str_mem c s = false → strings_HasPrefix s (String c prefix) = false.
Proof.
  destruct s as [|d s]; [done|].
  rewrite str_mem_cons, HasPrefix_cons. by intros [-> _]%orb_false_iff.
Qed.

Lemma Contains_byte (s : string) (c : ascii) :
  strings_Contains s (String c EmptyString) = str_mem c s.
Proof.
  induction s as [|d s IH]; [done|].
  simpl. by rewrite HasPrefix_cons, HasPrefix_nil, andb_true_r, str_mem_cons, IH.
Qed.

Lemma str_forallb_app (f : ascii → bool) (s1 s2 : string) :
  str_forallb f (s1 +:+ s2) = str_forallb f s1 && str_forallb f s2.
Proof.
  induction s1 as [|c s1 IH]; [done|].
  rewrite str_app_cons. simpl. by rewrite IH, andb_assoc.
Qed.

Lemma str_forallb_not_mem (f : ascii → bool) (c : ascii) (s : string) :
  str_forallb f s = true → f c = false → str_mem c s = false.
Proof.
  intros Hs Hc. induction s as [|d s IH]; [done|].
  simpl in Hs. apply andb_true_iff in Hs as [Hd Hs].
  rewrite str_mem_cons, IH by done.
  destruct (Ascii.eqb_spec c d) as [->|]; [congruence|done].
Qed.

Lemma str_forallb_impl (f g : ascii → bool) (s : string) :
  (∀ c, f c = true → g c = true) →
  str_forallb f s = true → str_forallb g s = true.
Proof.
  intros Hfg. induction s as [|c s IH]; [done|]. simpl.
  intros [Hc Hs]%andb_true_iff. by rewrite (Hfg c Hc), IH.
Qed.

Lemma str_take_app_length (s rest : string) :
  str_take (String.length s) (s +:+ rest) = s.
Proof.
  induction s as [|c s IH]; [by destruct rest|].
  rewrite str_app_cons. simpl. by rewrite IH.
Qed.

Lemma str_drop_app_plus (s rest : string) (k : nat) :
  str_drop (String.length s + k) (s +:+ rest) = str_drop k rest.
Proof. induction s as [|c s IH]; [done|]. rewrite str_app_cons. simpl. exact IH. Qed.

Lemma str_take_all (s : string) : str_take (String.length s) s = s.
Proof. induction s as [|c s IH]; [done|]. simpl. by rewrite IH. Qed.

(** The slice that cuts the middle out of a text. *)
Lemma str_slice_middle (pre mid post : string) :
  str_slice (pre +:+ mid +:+ post) (String.length pre)
    (String.length pre + String.length mid) = Ret mid.
Proof.
  unfold str_slice. rewrite !str_length_app.
  replace ((_ <=? _) && (_ <=? _)) with true
    by (symmetry; apply andb_true_iff; split; apply Nat.leb_le; lia).
  replace (String.length pre + String.length mid - String.length pre)
    with (String.length mid) by lia.
  by rewrite str_drop_app_length, str_take_app_length.
Qed.


Lemma span_le_length (f : ascii → bool) (s : string) :
  span f s ≤ String.length s.
Proof. induction s as [|c s IH]; simpl; [lia|]. destruct (f c); lia. Qed.

(** A run of bytes of a class ends where the first byte outside of it
    stands. *)
Lemma span_app_stop (f : ascii → bool) (w : string) (c : ascii) (rest : string) :
  str_forallb f w = true → f c = false →
  span f (w +:+ String c rest) = String.length w.
Proof.
  intros Hw Hc. induction w as [|d w IH]; simpl.
  - by rewrite Hc.
  - simpl in Hw. apply andb_true_iff in Hw as [-> Hw]. by rewrite IH.
Qed.

Lemma span_all (f : ascii → bool) (w : string) :
  str_forallb f w = true → span f w = String.length w.
Proof.
  induction w as [|d w IH]; [done|]. simpl.
  intros [-> Hw]%andb_true_iff. by rewrite IH.
Qed.

Lemma last_index_not_mem (c : ascii) (s : string) :
  str_mem c s = false → last_index c s = None.
Proof.
  induction s as [|d s IH]; [done|].
  rewrite str_mem_cons. intros [Hd Hs]%orb_false_iff.
  simpl. by rewrite IH, Hd.
Qed.

Lemma last_index_app_last (c : ascii) (s1 s2 : string) :
  str_mem c s2 = false →
  last_index c (s1 +:+ String c s2) = Some (String.length s1).
Proof.
  intros Hs2. induction s1 as [|d s1 IH].
  - simpl. by rewrite last_index_not_mem, Ascii.eqb_refl.
  - rewrite str_app_cons. simpl. by rewrite IH.
Qed.

(** *** All the matches of an expression *)

Lemma find_all_from_no_head m (c : ascii) (pos : nat) (pre rest : string) :
  begins_with c m → str_mem c pre = false →
  find_all_from m pos 0 (pre +:+ rest)
  = find_all_from m (pos + String.length pre) 0 rest.
Proof.
  intros Hm. revert pos. induction pre as [|d pre IH]; intros pos Hpre.
  - simpl. by rewrite Nat.add_0_r.
  - rewrite str_mem_cons in Hpre. apply orb_false_iff in Hpre as [Hd Hpre].
    rewrite str_app_cons. simpl. rewrite Hm.
    + rewrite IH by done. f_equal. lia.
    + simpl. by rewrite str_mem_cons, Hd.
Qed.

Lemma find_all_from_none m (c : ascii) (pos : nat) (s : string) :
  begins_with c m → str_mem c s = false → find_all_from m pos 0 s = [].
Proof.
  intros Hm Hs. rewrite <- (str_app_nil_r s).
  by rewrite (find_all_from_no_head m c pos s EmptyString).
Qed.

Lemma find_all_from_skip m (pos : nat) (a rest : string) :
  find_all_from m pos (String.length a) (a +:+ rest)
  = find_all_from m (pos + String.length a) 0 rest.
Proof.
  revert pos. induction a as [|d a IH]; intros pos.
  - simpl. rewrite Nat.add_0_r. by destruct rest.
  - rewrite str_app_cons. simpl. rewrite IH. f_equal. lia.
Qed.

(** A text with one match: nothing before it or after it begins one. *)
Lemma find_all_single m (c : ascii) (pre mid post : string) (gs ge : nat) :
  begins_with c m →
  str_mem c pre = false → str_mem c post = false →
  m (mid +:+ post) = Some (String.length mid, gs, ge) →
  find_all m (pre +:+ mid +:+ post)
  = [{| m0 := String.length pre;
        m1 := String.length pre + String.length mid;
        m2 := String.length pre + gs;
        m3 := String.length pre + ge |}].
Proof.
  intros Hm Hpre Hpost Hmid. unfold find_all.
  rewrite (find_all_from_no_head m c) by done. simpl.
  destruct mid as [|d mid].
  { rewrite Hm in Hmid; [done|].
    destruct post as [|e post]; [done|]. simpl.
    rewrite str_mem_cons in Hpost |- *.
    apply orb_false_iff in Hpost as [-> _]. done. }
  rewrite str_app_cons in Hmid |- *.
  unfold find_all_from. fold find_all_from. rewrite Hmid.
  f_equal. simpl String.length. rewrite Nat.sub_succ, Nat.sub_0_r.
  rewrite find_all_from_skip. by apply (find_all_from_none m c).
Qed.

(** *** Replacing *)

Lemma replace_from_no_head (old new : string) (c : ascii) (p : string)
    (pre rest : string) :
  old = String c p → str_mem c pre = false →
  replace_from old new 0 (pre +:+ rest) = pre +:+ replace_from old new 0 rest.
Proof.
  intros -> Hpre. induction pre as [|d pre IH]; [done|].
  rewrite str_mem_cons in Hpre. apply orb_false_iff in Hpre as [Hd Hpre].
  rewrite !str_app_cons. simpl.
  rewrite HasPrefix_cons, Hd. simpl. by rewrite IH.
Qed.

Lemma replace_from_none (old new : string) (c : ascii) (p : string) (s : string) :
  old = String c p → str_mem c s = false → replace_from old new 0 s = s.
Proof.
  intros Hold Hs. rewrite <- (str_app_nil_r s) at 1.
  rewrite (replace_from_no_head old new c p s EmptyString) by done.
  simpl. by rewrite str_app_nil_r.
Qed.

Lemma replace_from_skip (old new : string) (a rest : string) :
  replace_from old new (String.length a) (a +:+ rest)
  = replace_from old new 0 rest.
Proof.
  induction a as [|d a IH]; [by destruct rest|].
  rewrite str_app_cons. simpl. exact IH.
Qed.

(** Replacing the one occurrence of [old] in a text. *)
Lemma ReplaceAll_single (old new : string) (c : ascii) (p : string)
    (pre post : string) :
  old = String c p → str_mem c pre = false → str_mem c post = false →
  strings_ReplaceAll (pre +:+ old +:+ post) old new = pre +:+ new +:+ post.
Proof.
  intros Hold Hpre Hpost. unfold strings_ReplaceAll.
  rewrite (replace_from_no_head old new c p) by done.
  subst old. do 2 f_equal.
  rewrite str_app_cons. unfold replace_from. fold replace_from.
  rewrite <- str_app_cons, HasPrefix_self_app. f_equal.
  simpl String.length. rewrite Nat.sub_succ, Nat.sub_0_r.
  rewrite replace_from_skip. by apply (replace_from_none _ _ c p).
Qed.

(** A text without the first byte of [old] is left as it is. *)
Lemma ReplaceAll_none (old new : string) (c : ascii) (p : string) (s : string) :
  old = String c p → str_mem c s = false → strings_ReplaceAll s old new = s.
Proof.
  intros -> Hs. unfold strings_ReplaceAll. by apply (replace_from_none _ _ c p).
Qed.

(* ------------------------------------------------------------------ *)
(** ** UTF-8: decoding and encoding are inverse *)
(* ------------------------------------------------------------------ *)

Lemma byte_val_range (c : ascii) : (0 ≤ byte_val c < 256)%Z.
Proof.
  unfold byte_val. pose proof (N_ascii_bounded c). lia.
Qed.

Lemma byte_of_val (c : ascii) : byte_of (byte_val c) = c.
Proof. unfold byte_of, byte_val. by rewrite N2Z.id, ascii_N_embedding. Qed.

Lemma byte_val_of (z : Z) : (0 ≤ z < 256)%Z → byte_val (byte_of z) = z.
Proof.
  intros Hz. unfold byte_of, byte_val.
  rewrite N_ascii_embedding by lia. lia.
Qed.

(** Where the bits of two numbers do not meet, [lor] adds. *)
Lemma Z_lor_add (a b n : Z) :
  (0 ≤ n)%Z → (0 ≤ b < 2 ^ n)%Z → (a mod 2 ^ n = 0)%Z →
  Z.lor a b = (a + b)%Z.
Proof.
  intros Hn Hb Ha.
  assert (Z.land a b = 0%Z) as Hland.
  { apply Z.bits_inj'. intros k Hk. rewrite Z.land_spec, Z.bits_0.
    destruct (Z.lt_ge_cases k n) as [Hlt|Hge].
    - rewrite (Z.div_mod a (2 ^ n)) by lia. rewrite Ha, Z.add_0_r, Z.mul_comm.
      by rewrite Z.mul_pow2_bits_low.
    - rewrite <- (Z.mod_small b (2 ^ n)) by lia.
      rewrite Z.mod_pow2_bits_high by lia. apply andb_false_r. }
  by rewrite <- Z.lxor_lor, <- Z.add_nocarry_lxor.
Qed.

Lemma Z_land_low (x n : Z) (m : Z) :
  (0 ≤ n)%Z → m = Z.ones n → Z.land x m = (x mod 2 ^ n)%Z.
Proof. intros Hn ->. by apply Z.land_ones. Qed.

Local Open Scope Z_scope.

Ltac bits_to_arith :=
  repeat first
    [ rewrite (Z_land_low _ 6 0x3F) by (done || lia)
    | rewrite (Z_land_low _ 5 0x1F) by (done || lia)
    | rewrite (Z_land_low _ 4 0x0F) by (done || lia)
    | rewrite (Z_land_low _ 3 0x07) by (done || lia)
    | rewrite Z.shiftr_div_pow2 by lia
    | rewrite Z.shiftl_mul_pow2 by lia ];
  change (2 ^ 3) with 8 in *; change (2 ^ 4) with 16 in *;
  change (2 ^ 5) with 32 in *; change (2 ^ 6) with 64 in *;
  change (2 ^ 12) with 4096 in *; change (2 ^ 18) with 262144 in *.

Ltac arith := Z.div_mod_to_equations; lia.

Lemma lor_C0 (x : Z) : 0 ≤ x < 64 → Z.lor 0xC0 x = 0xC0 + x.
Proof. intros. by apply (Z_lor_add _ _ 6). Qed.
Lemma lor_80 (x : Z) : 0 ≤ x < 64 → Z.lor 0x80 x = 0x80 + x.
Proof. intros. by apply (Z_lor_add _ _ 6). Qed.
Lemma lor_E0 (x : Z) : 0 ≤ x < 16 → Z.lor 0xE0 x = 0xE0 + x.
Proof. intros. by apply (Z_lor_add _ _ 4). Qed.
Lemma lor_F0 (x : Z) : 0 ≤ x < 8 → Z.lor 0xF0 x = 0xF0 + x.
Proof. intros. by apply (Z_lor_add _ _ 3). Qed.

Lemma lor_join2 (x y : Z) : 0 ≤ y < 64 → Z.lor (x * 64) y = x * 64 + y.
Proof. intros. apply (Z_lor_add _ _ 6); [lia|lia|]. change (2 ^ 6) with 64. arith. Qed.

Lemma lor_join3 (x y z : Z) :
  0 ≤ y < 64 → 0 ≤ z < 64 →
  Z.lor (Z.lor (x * 4096) (y * 64)) z = x * 4096 + y * 64 + z.
Proof.
  intros Hy Hz.
  rewrite (Z_lor_add (x * 4096) (y * 64) 12); [|lia|change (2 ^ 12) with 4096; lia|change (2 ^ 12) with 4096; arith].
  apply (Z_lor_add _ _ 6); [lia|lia|]. change (2 ^ 6) with 64. arith.
Qed.

Lemma lor_join4 (w x y z : Z) :
  0 ≤ x < 64 → 0 ≤ y < 64 → 0 ≤ z < 64 →
  Z.lor (Z.lor (Z.lor (w * 262144) (x * 4096)) (y * 64)) z
  = w * 262144 + x * 4096 + y * 64 + z.
Proof.
  intros Hx Hy Hz.
  rewrite (Z_lor_add (w * 262144) (x * 4096) 18);
    [|lia|change (2 ^ 18) with 262144; lia|change (2 ^ 18) with 262144; arith].
  rewrite (Z_lor_add _ (y * 64) 12);
    [|lia|change (2 ^ 12) with 4096; lia|change (2 ^ 12) with 4096; arith].
  apply (Z_lor_add _ _ 6); [lia|lia|]. change (2 ^ 6) with 64. arith.
Qed.

Local Close Scope Z_scope.

Local Open Scope Z_scope.

Ltac decide_one :=
  match goal with
  | |- context [(?a <? ?b)] =>
    first [ replace (a <? b) with true by (symmetry; apply Z.ltb_lt; lia)
          | replace (a <? b) with false by (symmetry; apply Z.ltb_ge; lia) ]
  | |- context [(?a <=? ?b)] =>
    first [ replace (a <=? b) with true by (symmetry; apply Z.leb_le; lia)
          | replace (a <=? b) with false by (symmetry; apply Z.leb_gt; lia) ]
  | |- context [(?a =? ?b)] =>
    first [ replace (a =? b) with true by (symmetry; apply Z.eqb_eq; lia)
          | replace (a =? b) with false by (symmetry; apply Z.eqb_neq; lia) ]
  end.

Ltac decide_cmp := repeat (decide_one; cbn [andb orb negb]).

Ltac unfold_utf8 :=
  unfold valid_rune, second_ok in *; unfold is_cont in *;
  unfold in_range, MaxRune, RuneError, RuneSelf in *.

(** *** The encoder, in arithmetic *)

Lemma EncodeRune_1 (r : Z) :
  0 ≤ r ≤ 0x7F → utf8_EncodeRune r = String (byte_of r) EmptyString.
Proof. intros Hr. unfold utf8_EncodeRune. unfold_utf8. by decide_cmp. Qed.

Lemma EncodeRune_2 (r : Z) :
  0x80 ≤ r ≤ 0x7FF →
  utf8_EncodeRune r
  = String (byte_of (0xC0 + r / 64))
      (String (byte_of (0x80 + r mod 64)) EmptyString).
Proof.
  intros Hr. unfold utf8_EncodeRune. unfold_utf8. decide_cmp.
  bits_to_arith. rewrite lor_C0, lor_80 by arith. done.
Qed.

Lemma EncodeRune_3 (r : Z) :
  0x800 ≤ r ≤ 0xFFFF → ¬ (0xD800 ≤ r ≤ 0xDFFF) →
  utf8_EncodeRune r
  = String (byte_of (0xE0 + r / 4096))
      (String (byte_of (0x80 + (r / 64) mod 64))
         (String (byte_of (0x80 + r mod 64)) EmptyString)).
Proof.
  intros Hr Hs. unfold utf8_EncodeRune. unfold_utf8.
  assert (r < 0xD800 ∨ 0xDFFF < r) as [?|?] by lia; decide_cmp;
    bits_to_arith; rewrite lor_E0, !lor_80 by arith; done.
Qed.

Lemma EncodeRune_4 (r : Z) :
  0x10000 ≤ r ≤ 0x10FFFF →
  utf8_EncodeRune r
  = String (byte_of (0xF0 + r / 262144))
      (String (byte_of (0x80 + (r / 4096) mod 64))
         (String (byte_of (0x80 + (r / 64) mod 64))
            (String (byte_of (0x80 + r mod 64)) EmptyString))).
Proof.
  intros Hr. unfold utf8_EncodeRune. unfold_utf8. decide_cmp.
  bits_to_arith. rewrite lor_F0, !lor_80 by arith. done.
Qed.

Lemma EncodeRune_invalid (r : Z) :
  valid_rune r = false → utf8_EncodeRune r = utf8_EncodeRune RuneError.
Proof.
  intros Hr. unfold utf8_EncodeRune at 1.
  replace ((r <? 0) || (MaxRune <? r) || in_range 55296 57343 r)%Z with true; [done|].
  revert Hr. unfold_utf8.
  destruct (Z.ltb_spec r 0), (Z.ltb_spec 1114111 r), (Z.leb_spec 0 r),
    (Z.leb_spec r 1114111), (Z.leb_spec 55296 r), (Z.leb_spec r 57343);
    simpl; try done; lia.
Qed.

(** *** The decoder, in arithmetic *)

Lemma Decode_1 (c0 : ascii) (rest : string) :
  byte_val c0 < 0x80 →
  utf8_DecodeRuneInString (String c0 rest) = (byte_val c0, 1%nat).
Proof.
  intros Hb. unfold utf8_DecodeRuneInString. cbv zeta. unfold_utf8.
  by decide_cmp.
Qed.

Lemma Decode_2 (c0 c1 : ascii) (rest : string) :
  0xC2 ≤ byte_val c0 ≤ 0xDF → 0x80 ≤ byte_val c1 ≤ 0xBF →
  utf8_DecodeRuneInString (String c0 (String c1 rest))
  = ((byte_val c0 - 0xC0) * 64 + (byte_val c1 - 0x80), 2%nat).
Proof.
  intros H0 H1. unfold utf8_DecodeRuneInString. cbv zeta. unfold_utf8.
  decide_cmp. bits_to_arith. rewrite lor_join2 by arith. f_equal. arith.
Qed.

Lemma second_ok_cont (b0 b1 : Z) :
  second_ok b0 b1 = true → 0x80 ≤ b1 ≤ 0xBF.
Proof.
  unfold_utf8.
  destruct (Z.eqb_spec b0 224), (Z.eqb_spec b0 237), (Z.eqb_spec b0 240),
    (Z.eqb_spec b0 244); intros [?%Z.leb_le ?%Z.leb_le]%andb_true_iff; lia.
Qed.

Lemma Decode_3 (c0 c1 c2 : ascii) (rest : string) :
  0xE0 ≤ byte_val c0 ≤ 0xEF →
  second_ok (byte_val c0) (byte_val c1) = true →
  0x80 ≤ byte_val c2 ≤ 0xBF →
  utf8_DecodeRuneInString (String c0 (String c1 (String c2 rest)))
  = ((byte_val c0 - 0xE0) * 4096 + (byte_val c1 - 0x80) * 64
     + (byte_val c2 - 0x80), 3%nat).
Proof.
  intros H0 H1 H2. pose proof (second_ok_cont _ _ H1) as H1'.
  unfold utf8_DecodeRuneInString. cbv zeta. rewrite H1. unfold_utf8.
  decide_cmp. bits_to_arith. rewrite lor_join3 by arith. f_equal. arith.
Qed.

Lemma Decode_4 (c0 c1 c2 c3 : ascii) (rest : string) :
  0xF0 ≤ byte_val c0 ≤ 0xF4 →
  second_ok (byte_val c0) (byte_val c1) = true →
  0x80 ≤ byte_val c2 ≤ 0xBF →
  0x80 ≤ byte_val c3 ≤ 0xBF →
  utf8_DecodeRuneInString (String c0 (String c1 (String c2 (String c3 rest))))
  = ((byte_val c0 - 0xF0) * 262144 + (byte_val c1 - 0x80) * 4096
     + (byte_val c2 - 0x80) * 64 + (byte_val c3 - 0x80), 4%nat).
Proof.
  intros H0 H1 H2 H3. pose proof (second_ok_cont _ _ H1) as H1'.
  unfold utf8_DecodeRuneInString. cbv zeta. rewrite H1. unfold_utf8.
  decide_cmp. bits_to_arith. rewrite lor_join4 by arith. f_equal. arith.
Qed.

Lemma second_ok_inv (b0 b1 : Z) :
  second_ok b0 b1 = true →
  0x80 ≤ b1 ≤ 0xBF
  ∧ (b0 = 0xE0 → 0xA0 ≤ b1) ∧ (b0 = 0xED → b1 ≤ 0x9F)
  ∧ (b0 = 0xF0 → 0x90 ≤ b1) ∧ (b0 = 0xF4 → b1 ≤ 0x8F).
Proof.
  unfold_utf8.
  destruct (Z.eqb_spec b0 224), (Z.eqb_spec b0 237), (Z.eqb_spec b0 240),
    (Z.eqb_spec b0 244); intros [?%Z.leb_le ?%Z.leb_le]%andb_true_iff; lia.
Qed.

Lemma second_ok_intro (b0 b1 : Z) :
  0x80 ≤ b1 ≤ 0xBF →
  (b0 = 0xE0 → 0xA0 ≤ b1) → (b0 = 0xED → b1 ≤ 0x9F) →
  (b0 = 0xF0 → 0x90 ≤ b1) → (b0 = 0xF4 → b1 ≤ 0x8F) →
  second_ok b0 b1 = true.
Proof.
  intros Hc HE0 HED HF0 HF4. unfold_utf8.
  destruct (Z.eqb_spec b0 224), (Z.eqb_spec b0 237), (Z.eqb_spec b0 240),
    (Z.eqb_spec b0 244); apply andb_true_iff; split; apply Z.leb_le; lia.
Qed.

Lemma head_sequence_decode (s : string) (r : Z) (size : nat) :
  head_sequence s r size → utf8_DecodeRuneInString s = (r, size).
Proof.
  destruct 1; auto using Decode_1, Decode_2, Decode_3, Decode_4.
Qed.

Lemma in_range_true (lo hi x : Z) : in_range lo hi x = true ↔ lo ≤ x ≤ hi.
Proof. unfold in_range. rewrite andb_true_iff, !Z.leb_le. done. Qed.

(** The decoder finds a well-formed sequence, or gives up on one byte. *)
Lemma Decode_cases (c0 : ascii) (s1 : string) :
  (∃ r size, head_sequence (String c0 s1) r size)
  ∨ utf8_DecodeRuneInString (String c0 s1) = (RuneError, 1%nat).
Proof.
  unfold utf8_DecodeRuneInString. cbv zeta.
  destruct (byte_val c0 <? RuneSelf) eqn:E1.
  { left. apply Z.ltb_lt in E1. eauto using head_1. }
  destruct (in_range 194 223 (byte_val c0)) eqn:E2.
  { apply in_range_true in E2. destruct s1 as [|c1 rest]; [by right|].
    unfold is_cont. destruct (in_range 128 191 (byte_val c1)) eqn:E3; [|by right].
    apply in_range_true in E3. left. eauto using head_2. }
  destruct (in_range 224 239 (byte_val c0)) eqn:E3.
  { apply in_range_true in E3.
    destruct s1 as [|c1 [|c2 rest]]; [by right|by right|].
    destruct (second_ok _ _) eqn:E4; [|by right].
    unfold is_cont. destruct (in_range 128 191 (byte_val c2)) eqn:E5; [|by right].
    apply in_range_true in E5. left. eauto using head_3. }
  destruct (in_range 240 244 (byte_val c0)) eqn:E4; [|by right].
  apply in_range_true in E4.
  destruct s1 as [|c1 [|c2 [|c3 rest]]]; [by right|by right|by right|].
  destruct (second_ok _ _) eqn:E5; [|by right].
  unfold is_cont. destruct (in_range 128 191 (byte_val c2)) eqn:E6; [|by right].
  destruct (in_range 128 191 (byte_val c3)) eqn:E7; [|by right].
  apply in_range_true in E6, E7. left. eauto using head_4.
Qed.

Lemma valid_rune_true (r : Z) :
  valid_rune r = true ↔ 0 ≤ r ≤ 0x10FFFF ∧ ¬ (0xD800 ≤ r ≤ 0xDFFF).
Proof.
  unfold valid_rune. rewrite andb_true_iff, negb_true_iff, in_range_true.
  rewrite <- not_true_iff_false, in_range_true. done.
Qed.

(** A well-formed sequence decodes to a scalar value, and is its encoding. *)
Lemma head_sequence_valid (s : string) (r : Z) (size : nat) :
  head_sequence s r size → valid_rune r = true.
Proof.
  intros Hs. apply valid_rune_true. destruct Hs as
    [c0 rest H0|c0 c1 rest H0 H1|c0 c1 c2 rest H0 H1 H2|c0 c1 c2 c3 rest H0 H1 H2 H3];
    pose proof (byte_val_range c0);
    try (apply second_ok_inv in H1); lia.
Qed.

Lemma head_sequence_encode (s : string) (r : Z) (size : nat) :
  head_sequence s r size → s = utf8_EncodeRune r +:+ str_drop size s.
Proof.
  destruct 1 as
    [c0 rest H0|c0 c1 rest H0 H1|c0 c1 c2 rest H0 H1 H2|c0 c1 c2 c3 rest H0 H1 H2 H3].
  - pose proof (byte_val_range c0).
    rewrite EncodeRune_1 by lia. by rewrite byte_of_val.
  - rewrite EncodeRune_2 by lia.
    replace (192 + _ / 64) with (byte_val c0) by arith.
    replace (128 + _ mod 64) with (byte_val c1) by arith.
    by rewrite !byte_of_val.
  - apply second_ok_inv in H1.
    rewrite EncodeRune_3 by lia.
    replace (224 + _ / 4096) with (byte_val c0) by arith.
    replace (128 + (_ / 64) mod 64) with (byte_val c1) by arith.
    replace (128 + _ mod 64) with (byte_val c2) by arith.
    by rewrite !byte_of_val.
  - apply second_ok_inv in H1.
    rewrite EncodeRune_4 by lia.
    replace (240 + _ / 262144) with (byte_val c0) by arith.
    replace (128 + (_ / 4096) mod 64) with (byte_val c1) by arith.
    replace (128 + (_ / 64) mod 64) with (byte_val c2) by arith.
    replace (128 + _ mod 64) with (byte_val c3) by arith.
    by rewrite !byte_of_val.
Qed.

Lemma head_sequence_eq (s : string) (r r' : Z) (size : nat) :
  head_sequence s r' size → r = r' → head_sequence s r size.
Proof. by intros ? ->. Qed.

(** The encoding of a scalar value is a well-formed sequence for it. *)
Lemma EncodeRune_head_sequence (r : Z) (rest : string) :
  valid_rune r = true →
  head_sequence (utf8_EncodeRune r +:+ rest) r
    (String.length (utf8_EncodeRune r)).
Proof.
  intros [Hr Hs]%valid_rune_true.
  assert (r ≤ 0x7F ∨ 0x80 ≤ r ≤ 0x7FF ∨ 0x800 ≤ r ≤ 0xFFFF ∨ 0x10000 ≤ r)
    as [H1|[H2|[H3|H4]]] by lia.
  - rewrite EncodeRune_1 by lia. rewrite !str_app_cons, str_app_nil_l.
    eapply head_sequence_eq; [apply head_1|]; rewrite byte_val_of; lia.
  - rewrite EncodeRune_2 by lia. rewrite !str_app_cons, str_app_nil_l.
    set (b0 := 192 + r / 64). set (b1 := 128 + r mod 64).
    assert (194 ≤ b0 ≤ 223 ∧ 128 ≤ b1 ≤ 191) as [Hb0 Hb1] by (subst b0 b1; arith).
    eapply head_sequence_eq; [apply head_2|]; rewrite ?byte_val_of by lia;
      [lia|lia|subst b0 b1; arith].
  - rewrite EncodeRune_3 by lia. rewrite !str_app_cons, str_app_nil_l.
    set (b0 := 224 + r / 4096). set (b1 := 128 + (r / 64) mod 64).
    set (b2 := 128 + r mod 64).
    assert (224 ≤ b0 ≤ 239 ∧ 128 ≤ b1 ≤ 191 ∧ 128 ≤ b2 ≤ 191) as (Hb0 & Hb1 & Hb2)
      by (subst b0 b1 b2; arith).
    eapply head_sequence_eq; [apply head_3|]; rewrite ?byte_val_of by lia;
      [lia| |lia|subst b0 b1 b2; arith].
    apply second_ok_intro; subst b0 b1; arith.
  - rewrite EncodeRune_4 by lia. rewrite !str_app_cons, str_app_nil_l.
    set (b0 := 240 + r / 262144). set (b1 := 128 + (r / 4096) mod 64).
    set (b2 := 128 + (r / 64) mod 64). set (b3 := 128 + r mod 64).
    assert (240 ≤ b0 ≤ 244 ∧ 128 ≤ b1 ≤ 191 ∧ 128 ≤ b2 ≤ 191 ∧ 128 ≤ b3 ≤ 191)
      as (Hb0 & Hb1 & Hb2 & Hb3) by (subst b0 b1 b2 b3; arith).
    eapply head_sequence_eq; [apply head_4|]; rewrite ?byte_val_of by lia;
      [lia| |lia|lia|subst b0 b1 b2 b3; arith].
    apply second_ok_intro; subst b0 b1; arith.
Qed.

Local Close Scope Z_scope.

(** *** Strings of runes *)

Lemma head_sequence_size (s : string) (r : Z) (size : nat) :
  head_sequence s r size → 1 ≤ size.
Proof. destruct 1; lia. Qed.

Lemma runes_from_skip (s : string) (k : nat) :
  runes_from k s = runes_from 0 (str_drop k s).
Proof.
  revert k. induction s as [|c s IH]; intros [|k]; try done.
  simpl. apply IH.
Qed.

Lemma runes_of_string_head (s : string) (r : Z) (size : nat) :
  head_sequence s r size →
  runes_of_string s = r :: runes_of_string (str_drop size s).
Proof.
  intros Hs. pose proof (head_sequence_size _ _ _ Hs) as Hsize.
  pose proof (head_sequence_decode _ _ _ Hs) as Hd.
  unfold runes_of_string. destruct s as [|c s']; [inversion Hs|].
  unfold runes_from at 1. fold runes_from. rewrite Hd.
  rewrite runes_from_skip. destruct size as [|size]; [lia|].
  simpl. by rewrite Nat.sub_0_r.
Qed.

Lemma runes_of_string_error (c : ascii) (s' : string) :
  utf8_DecodeRuneInString (String c s') = (RuneError, 1%nat) →
  runes_of_string (String c s') = RuneError :: runes_of_string s'.
Proof.
  intros Hd. unfold runes_of_string.
  unfold runes_from at 1. fold runes_from. by rewrite Hd.
Qed.

Lemma runes_of_string_EncodeRune (r : Z) (rest : string) :
  valid_rune r = true →
  runes_of_string (utf8_EncodeRune r +:+ rest) = r :: runes_of_string rest.
Proof.
  intros Hr.
  rewrite (runes_of_string_head _ _ _ (EncodeRune_head_sequence r rest Hr)).
  by rewrite str_drop_app_length.
Qed.

(** Decoding the encoding of scalar values gives them back. *)
Lemma runes_of_string_of_runes (rs : list Z) :
  Forall (λ r, valid_rune r = true) rs →
  runes_of_string (string_of_runes rs) = rs.
Proof.
  induction 1 as [|r rs Hr _ IH]; [done|].
  change (string_of_runes (r :: rs))
    with (utf8_EncodeRune r +:+ string_of_runes rs).
  by rewrite runes_of_string_EncodeRune, IH.
Qed.

(** The runes a string decodes to are scalar values. *)
Lemma runes_from_valid (s : string) (k : nat) :
  Forall (λ r, valid_rune r = true) (runes_from k s).
Proof.
  revert k. induction s as [|c s IH]; intros k; [constructor|].
  destruct k as [|k]; [|apply IH].
  unfold runes_from. fold runes_from.
  destruct (Decode_cases c s) as [(r & size & Hs)|Herr].
  - rewrite (head_sequence_decode _ _ _ Hs). constructor; [|apply IH].
    by apply (head_sequence_valid _ _ _ Hs).
  - rewrite Herr. constructor; [done|apply IH].
Qed.

Lemma runes_of_string_valid (s : string) :
  Forall (λ r, valid_rune r = true) (runes_of_string s).
Proof. apply runes_from_valid. Qed.

(** Encoding what a valid string decodes to gives the string back. *)
Lemma string_of_runes_from (s : string) (k : nat) :
  valid_from k s = true → string_of_runes (runes_from k s) = str_drop k s.
Proof.
  revert k. induction s as [|c s IH]; intros k.
  { by destruct k. }
  destruct k as [|k]; [|apply IH].
  unfold valid_from, runes_from. fold valid_from. fold runes_from.
  destruct (Decode_cases c s) as [(r & size & Hs)|Herr].
  - rewrite (head_sequence_decode _ _ _ Hs).
    intros [_ Hv]%andb_true_iff.
    change (string_of_runes (r :: ?l)) with (utf8_EncodeRune r +:+ string_of_runes l).
    rewrite IH by done.
    pose proof (head_sequence_size _ _ _ Hs) as Hsize.
    etransitivity; [|symmetry; apply (head_sequence_encode _ _ _ Hs)].
    f_equal. destruct size as [|size]; [lia|]. simpl. by rewrite Nat.sub_0_r.
  - rewrite Herr. by rewrite Z.eqb_refl.
Qed.

Lemma string_of_runes_of_string (s : string) :
  utf8_ValidString s = true → string_of_runes (runes_of_string s) = s.
Proof.
  intros Hv. unfold runes_of_string. rewrite string_of_runes_from by done.
  by destruct s.
Qed.

Lemma RuneCount_string_of_runes (rs : list Z) :
  Forall (λ r, valid_rune r = true) rs →
  utf8_RuneCountInString (string_of_runes rs) = length rs.
Proof.
  intros Hrs. unfold utf8_RuneCountInString.
  by rewrite runes_of_string_of_runes.
Qed.

(* ------------------------------------------------------------------ *)
(** ** Ranging over a map to assign into another *)
(* ------------------------------------------------------------------ *)

Lemma range_assign_union (m payload : gmap string string) :
  range_assign m payload = m ∪ payload.
Proof.
  unfold range_assign.
  induction m as [|k v m Hk IH] using map_ind.
  - by rewrite map_fold_empty, (left_id_L ∅ (∪)).
  - rewrite map_fold_insert_L; [|intros; by apply insert_insert_ne|done].
    by rewrite IH, insert_union_l.
Qed.

(** Go leaves the order of a [range] over a map open; the assignments reach
    the same map in every order. *)
Lemma range_assign_any_order (l : list (string * string))
    (m payload : gmap string string) :
  l ≡ₚ map_to_list m →
  foldr (λ kv acc, <[kv.1 := kv.2]> acc) payload l = m ∪ payload.
Proof.
  intros Hl.
  assert (foldr (λ kv acc, <[kv.1 := kv.2]> acc) payload l
          = list_to_map l ∪ payload) as ->.
  { clear Hl. induction l as [|[k v] l IH]; simpl.
    - by rewrite (left_id_L ∅ (∪)).
    - by rewrite IH, insert_union_l. }
  f_equal. symmetry. by apply list_to_map_flip.
Qed.

Lemma Submit_payload_union (p : Pattern) (actor text : string) (named : NamedGroups) :
  Submit_payload p actor text named
  = p_vars p ∪ (named ∪ <["actor" := actor]> (<["text" := text]> ∅)).
Proof. unfold Submit_payload. by rewrite !range_assign_union. Qed.

(** [Submit] itself gives a static variable precedence over a capture. *)
Lemma Submit_payload_static_var_wins (p : Pattern) (actor text : string)
    (named : NamedGroups) (k v : string) :
  p_vars p !! k = Some v → Submit_payload p actor text named !! k = Some v.
Proof.
  intros Hk. rewrite Submit_payload_union. by apply lookup_union_Some_l.
Qed.

Lemma Submit_payload_dom (p : Pattern) (actor text : string) (named : NamedGroups) :
  dom (Submit_payload p actor text named)
  = {["actor"; "text"]} ∪ dom named ∪ dom (p_vars p).
Proof.
  rewrite Submit_payload_union, !dom_union_L, !dom_insert_L, dom_empty_L.
  set_solver.
Qed.

(* ------------------------------------------------------------------ *)
(** ** Construction of patterns *)
(* ------------------------------------------------------------------ *)

Section NewPatternFacts.
Context `{Unicode} `{RegexpLib}.

Lemma NewExtendedPattern_error_iff name reg url headers vars method help :
  is_error (NewExtendedPattern name reg url headers vars method help)
  ↔ url_refused url = true
    ∨ is_error (regexp_Compile reg)
    ∨ method_allowed method = false.
Proof.
  unfold NewExtendedPattern, url_refused, method_allowed, is_error.
  destruct (_ && _) eqn:Hurl.
  { split; [by left | eauto]. }
  destruct (regexp_Compile reg) as [re|err] eqn:Hre.
  2:{ split; [right; left; eauto | eauto]. }
  destruct (_ || _) eqn:Hm; simpl.
  - split.
    + by intros [e ?].
    + intros [?|[[e ?]|?]]; done.
  - split; [by right; right | eauto].
Qed.

Lemma NewExtendedPattern_vars_unset name reg url headers vars method help p :
  NewExtendedPattern name reg url headers vars method help = inl p →
  p_vars p = ∅.
Proof.
  unfold NewExtendedPattern.
  destruct (_ && _); [done|].
  destruct (regexp_Compile reg); [|done].
  destruct (negb _); [done|].
  by intros [= <-].
Qed.

(** C1 (the code at the failing input).  A pattern built by
    [NewExtendedPattern] has lost its static variables: whatever [vars] was
    passed, the payload of [Submit] has the keys actor, text and the capture
    names only, and a static variable that is neither is absent from it. *)
Theorem NewExtendedPattern_payload_omits_vars
    name reg url headers vars method help p actor text named k v :
  NewExtendedPattern name reg url headers vars method help = inl p →
  vars !! k = Some v →
  k ∉ dom named → k ≠ "actor" → k ≠ "text" →
  dom (Submit_payload p actor text named) = {["actor"; "text"]} ∪ dom named
  ∧ Submit_payload p actor text named !! k = None.
Proof.
  intros Hp Hv Hn Ha Ht.
  assert (dom (Submit_payload p actor text named)
          = {["actor"; "text"]} ∪ dom named) as Hdom.
  { rewrite Submit_payload_dom, (NewExtendedPattern_vars_unset _ _ _ _ _ _ _ _ Hp).
    set_solver. }
  split; [done|].
  apply not_elem_of_dom. rewrite Hdom. set_solver.
Qed.

(** C3 (the code at the failing input).  A URL that does not begin with
    "http" is accepted as soon as it has ten bytes or more. *)
Theorem NewExtendedPattern_accepts_non_http_url name reg re headers vars help :
  regexp_Compile reg = inl re →
  http_shaped "ftp://example.com/hook" = false
  ∧ NewExtendedPattern name reg "ftp://example.com/hook" headers vars "POST" help
    = inl {| p_name := name; p_re := re; p_url := "ftp://example.com/hook";
             p_headers := headers; p_vars := ∅; p_method := "POST";
             p_help := help |}.
Proof.
  intros Hre. split; [reflexivity|].
  unfold NewExtendedPattern. rewrite Hre. reflexivity.
Qed.

End NewPatternFacts.

Lemma NewExtendedPattern_payload_omits_vars_witness :
  let p := {| p_name := "greet"; p_re := who_regexp;
              p_url := "http://example.com/hook"; p_headers := ∅;
              p_vars := ∅; p_method := "POST"; p_help := EmptyString |} in
  dom (Submit_payload p "bob" "hi" {["who" := "hi"]})
  = {["actor"; "text"]} ∪ dom ({["who" := "hi"]} : gmap string string)
  ∧ Submit_payload p "bob" "hi" {["who" := "hi"]} !! "team" = None.
Proof.
  intros p.
  apply (@NewExtendedPattern_payload_omits_vars ascii_case_tables literal_RegexpLib
           "greet" "(?s)(?P<who>.*)" "http://example.com/hook" ∅
           {["team" := "blue"]} "POST" EmptyString p "bob" "hi"
           {["who" := "hi"]} "team" "blue").
  - reflexivity.
  - reflexivity.
  - rewrite dom_singleton_L. set_solver.
  - done.
  - done.
Defined.

Lemma NewExtendedPattern_accepts_non_http_url_witness :
  @http_shaped ascii_case_tables "ftp://example.com/hook" = false
  ∧ @NewExtendedPattern ascii_case_tables literal_RegexpLib
      "n" "deploy" "ftp://example.com/hook" ∅ ∅ "POST" EmptyString
    = inl {| p_name := "n"; p_re := literal_regexp "deploy";
             p_url := "ftp://example.com/hook";
             p_headers := ∅; p_vars := ∅; p_method := "POST";
             p_help := EmptyString |}.
Proof.
  apply (@NewExtendedPattern_accepts_non_http_url ascii_case_tables
           literal_RegexpLib "n" "deploy" (literal_regexp "deploy")).
  reflexivity.
Defined.

(* ------------------------------------------------------------------ *)
(** ** The pattern routing broker *)
(* ------------------------------------------------------------------ *)

Lemma incr64_succ (z : Z) : (0 ≤ z < MaxInt64)%Z → incr64 z = (z + 1)%Z.
Proof.
  unfold incr64, wrap64, MaxInt64. intros Hz.
  rewrite Z.mod_small; lia.
Qed.

Lemma collect_named_returns (matches names : list string) (i : nat)
    (named : NamedGroups) :
  i + length names ≤ length matches →
  ∃ named', collect_named matches i names named = Ret named'.
Proof.
  revert i named. induction names as [|name rest IH]; intros i named Hlen; simpl.
  - eauto.
  - simpl in Hlen. destruct (_ && _).
    + destruct (lookup_lt_is_Some_2 matches i) as [v ->]; [lia|].
      apply IH. lia.
    + apply IH. lia.
Qed.

Lemma ExtractMatches_returns (p : Pattern) (text : string) :
  regexp_wf (p_re p) →
  ∃ named, ExtractMatches p text = Ret (FindStringSubmatch (p_re p) text, named).
Proof.
  intros [Hlen _]. unfold ExtractMatches.
  destruct (length _ =? 0)%nat eqn:Hm; [eauto|].
  apply Nat.eqb_neq in Hm.
  destruct (collect_named_returns (FindStringSubmatch (p_re p) text)
              (SubexpNames (p_re p)) 0 ∅) as [named ->].
  - rewrite Hlen; [lia|]. by destruct (FindStringSubmatch _ _).
  - simpl. eauto.
Qed.

Lemma ExtractMatches_no_match (p : Pattern) (text : string) :
  FindStringSubmatch (p_re p) text = [] →
  ExtractMatches p text = Ret ([], ∅).
Proof. intros Hm. unfold ExtractMatches. by rewrite Hm. Qed.

Lemma ExtractMatches_matches (p : Pattern) (text : string) matches named :
  ExtractMatches p text = Ret (matches, named) →
  matches = FindStringSubmatch (p_re p) text.
Proof.
  unfold ExtractMatches. destruct (length _ =? 0)%nat.
  - by intros [= <- <-].
  - destruct (collect_named _ _ _ _); simpl; [|done]. by intros [= <- <-].
Qed.

Lemma literal_regexp_wf (lit : string) : regexp_wf (literal_regexp lit).
Proof.
  split; [|done]. intros text. simpl.
  by destruct (strings_Contains text lit).
Qed.

Section HandleFacts.
Context `{HttpEnv}.

Lemma Handle_patterns_only (prb1 prb2 : PatternRoutingBroker) q ev :
  patterns prb1 = patterns prb2 → Handle prb1 q ev = Handle prb2 q ev.
Proof.
  intros Hp. destruct q; [|done]. simpl.
  unfold HelperPattern_Handle, PRB_HelpText. by rewrite Hp.
Qed.

Lemma try_patterns_patterns_only (prb1 prb2 : PatternRoutingBroker) ptns ev :
  patterns prb1 = patterns prb2 →
  try_patterns prb1 ptns ev = try_patterns prb2 ptns ev.
Proof.
  intros Hp. induction ptns as [|q rest IH]; [done|]. simpl.
  by rewrite (Handle_patterns_only prb1 prb2 q ev Hp), IH.
Qed.

(** A pattern that does not take the event leaves nothing behind. *)
Lemma Handle_declines (prb : PatternRoutingBroker) q ev :
  recognizes q ev = false → Handle prb q ev = Ret (false, []).
Proof.
  destruct q as [|p]; simpl.
  - unfold HelperPattern_Handle. by intros ->.
  - intros Hm. apply negb_false_iff, Nat.eqb_eq, length_zero_iff_nil in Hm.
    unfold Pattern_Handle. by rewrite ExtractMatches_no_match.
Qed.

Lemma Pattern_Handle_matched (p : Pattern) ev matches named :
  ExtractMatches p (Text ev) = Ret (matches, named) →
  matches ≠ [] →
  Pattern_Handle p ev = Ret (true, [GoSubmit p ev (Actor ev) (Text ev) named]).
Proof.
  intros Hex Hm. unfold Pattern_Handle. rewrite Hex. simpl.
  by destruct matches.
Qed.

(** A pattern that takes the event has exactly one effect. *)
Lemma Handle_takes (prb : PatternRoutingBroker) q ev :
  MetaPattern_wf q → recognizes q ev = true →
  ∃ e, Handle prb q ev = Ret (true, [e]) ∧ effect_of_pattern q ev e.
Proof.
  destruct q as [|p]; simpl.
  - intros _ Hpre. unfold HelperPattern_Handle. rewrite Hpre.
    eexists. split; [done|]. eexists. by repeat split.
  - intros Hwf Hm. apply negb_true_iff, Nat.eqb_neq in Hm.
    destruct (ExtractMatches_returns p (Text ev) Hwf) as [named Hex].
    rewrite (Pattern_Handle_matched p ev _ named Hex).
    + eexists. split; [done|]. by eexists _, named.
    + intros Heq. by rewrite Heq in Hm.
Qed.

Lemma try_patterns_first (prb : PatternRoutingBroker) pre q post ev eff :
  Forall (λ x, recognizes x ev = false) pre →
  Handle prb q ev = Ret (true, eff) →
  try_patterns prb (pre ++ q :: post) ev = Ret (true, eff).
Proof.
  intros Hpre Hq. induction Hpre as [|x pre Hx _ IH]; simpl.
  - by rewrite Hq.
  - rewrite (Handle_declines prb x ev Hx). simpl. by rewrite IH.
Qed.

Lemma try_patterns_none (prb : PatternRoutingBroker) ptns ev :
  Forall (λ x, recognizes x ev = false) ptns →
  try_patterns prb ptns ev = Ret (false, []).
Proof.
  induction 1 as [|x ptns Hx _ IH]; simpl; [done|].
  rewrite (Handle_declines prb x ev Hx). simpl. by rewrite IH.
Qed.

(** An event no pattern takes is counted as received only. *)
Lemma HandleEvent_unmatched (prb : PatternRoutingBroker) ev :
  Forall (λ x, recognizes x ev = false) (patterns prb) →
  PRB_HandleEvent prb ev
  = Ret ({| patterns := patterns prb; msgsActn := msgsActn prb;
            msgsRcvd := incr64 (msgsRcvd prb) |}, []).
Proof.
  intros Hall. unfold PRB_HandleEvent. simpl.
  by rewrite try_patterns_none.
Qed.

Lemma HandleEvent_first (prb : PatternRoutingBroker) pre q post ev eff :
  patterns prb = pre ++ q :: post →
  Forall (λ x, recognizes x ev = false) pre →
  Handle prb q ev = Ret (true, eff) →
  PRB_HandleEvent prb ev
  = Ret ({| patterns := patterns prb;
            msgsActn := incr64 (msgsActn prb);
            msgsRcvd := incr64 (msgsRcvd prb) |}, eff).
Proof.
  intros Hp Hpre Hq.
  unfold PRB_HandleEvent. simpl.
  rewrite (try_patterns_patterns_only _ prb) by done.
  rewrite Hp at 1. by rewrite (try_patterns_first prb pre q post ev eff).
Qed.

(** C2, amended.  Of the patterns of the broker, in the order they were
    added and with the help handler among them, the first that takes the
    event is the only one that acts: its single effect is all that
    [HandleEvent] leaves (the sent help text for the help handler, the
    started [Submit] for a configured pattern), whatever the patterns after
    it would match, and both counters go up by exactly one. *)
Theorem HandleEvent_first_handler_only
    (prb : PatternRoutingBroker) pre q post ev :
  patterns prb = pre ++ q :: post →
  Forall (λ x, recognizes x ev = false) pre →
  recognizes q ev = true →
  MetaPattern_wf q →
  counters_in_range prb →
  ∃ prb' e,
    PRB_HandleEvent prb ev = Ret (prb', [e])
    ∧ effect_of_pattern q ev e
    ∧ patterns prb' = patterns prb
    ∧ msgsActn prb' = (msgsActn prb + 1)%Z
    ∧ msgsRcvd prb' = (msgsRcvd prb + 1)%Z.
Proof.
  intros Hp Hpre Hq Hwf [Hr Ha].
  destruct (Handle_takes prb q ev Hwf Hq) as (e & He & Heff).
  eexists _, e. split; [by apply (HandleEvent_first prb pre q post)|].
  simpl. by rewrite !incr64_succ.
Qed.

(** Where the help handler does not take the text, the property holds as
    the specification words it. *)
Lemma first_match_acts_without_help_command (prb : PatternRoutingBroker) ev :
  strings_HasPrefix (Text ev) "..list" = false →
  Forall MetaPattern_wf (patterns prb) →
  first_match_acts prb ev.
Proof.
  intros Hhelp Hwf pre p post Hcfg Hpre Hp.
  assert (∃ pre' post', patterns prb = pre' ++ RegexPattern p :: post'
            ∧ Forall (λ x, recognizes x ev = false) pre'
            ∧ regexp_wf (p_re p)) as (pre' & post' & Hsplit & Hpre' & Hwfp).
  { unfold configured_patterns in Hcfg. revert pre Hcfg Hpre Hwf.
    induction (patterns prb) as [|q ptns IH]; intros pre Hcfg Hpre Hwf.
    - by destruct pre.
    - apply Forall_cons in Hwf as [Hq Hwf]. destruct q as [|x]; simpl in Hcfg.
      + destruct (IH pre Hcfg Hpre Hwf) as (pre' & post' & -> & Hpre' & Hwfp).
        exists (HelperPattern_ :: pre'), post'. split; [done|]. split; [|done].
        constructor; [exact Hhelp|done].
      + destruct pre as [|y pre]; injection Hcfg as -> H1.
        * exists [], ptns. split; [done|]. split; [constructor|exact Hq].
        * apply Forall_cons in Hpre as [Hy Hpre].
          destruct (IH pre H1 Hpre Hwf) as (pre' & post' & -> & Hpre' & Hwfp).
          exists (RegexPattern y :: pre'), post'. split; [done|]. split; [|done].
          constructor; [|done]. simpl. by rewrite Hy. }
  destruct (ExtractMatches_returns p (Text ev) Hwfp) as [named Hex].
  eexists _, named.
  apply (HandleEvent_first prb pre' (RegexPattern p) post'); [done|done|].
  by apply (Pattern_Handle_matched p ev (FindStringSubmatch (p_re p) (Text ev))).
Qed.

Lemma status_200_is_2xx (status : string) :
  strings_HasPrefix status "200" = true →
  (∃ n, StatusCode status = Some n) → status_2xx status = true.
Proof.
  intros [rest ->]%HasPrefix_app [n Hn]. unfold status_2xx.
  destruct rest as [|d rest]; [done|].
  destruct d as [[] [] [] [] [] [] [] []]; done.
Qed.

Lemma status_not_2xx_not_200 (status : string) :
  status_2xx status = false →
  strings_HasPrefix status "200" = false ∨ StatusCode status = None.
Proof.
  intros H2. destruct (strings_HasPrefix status "200") eqn:Hp; [|by left].
  destruct (StatusCode status) as [n|] eqn:Hn; [|by right].
  rewrite status_200_is_2xx in H2; [done|done|eauto].
Qed.

(** A reply that is not 200 leaves no feedback event. *)
Lemma Submit_response_not_200 (originEvt : Event) (resp : Response) :
  strings_HasPrefix (resp_Status resp) "200" = false →
  Submit_response originEvt resp = [].
Proof. unfold Submit_response. by intros ->. Qed.

Lemma Submit_sent (p : Pattern) originEvt actor text named req :
  Submit_request p actor text named = Ret (Some req) →
  Submit p originEvt actor text named
  = Ret (match client_Do req with
         | None => []
         | Some resp => Submit_response originEvt resp
         end).
Proof. unfold Submit. intros ->. simpl. by destruct (client_Do req). Qed.

(** C4, amended.  When the call of a matched event is answered with status
    200 and the body of the example, [Submit] sends exactly one feedback
    event: its text is ok, it has no content block, and its reply broker
    and reply target are those of the event. *)
Theorem Submit_ok_reply_status_200
    (p : Pattern) (ev : Event) matches named req resp :
  ExtractMatches p (Text ev) = Ret (matches, named) →
  matches ≠ [] →
  Submit_request p (Actor ev) (Text ev) named = Ret (Some req) →
  client_Do req = Some resp →
  strings_HasPrefix (resp_Status resp) "200" = true →
  resp_Body resp = ok_body →
  json_Unmarshal ok_body = Some {| jr_Text := "ok"; jr_Blocks := [] |} →
  Pattern_Handle p ev = Ret (true, [GoSubmit p ev (Actor ev) (Text ev) named])
  ∧ ∃ fb, feedback_of (GoSubmit p ev (Actor ev) (Text ev) named) = Ret [fb]
          ∧ Text fb = "ok"
          ∧ ContentBlocks fb = []
          ∧ ReplyBroker fb = ReplyBroker ev
          ∧ ReplyTarget fb = ReplyTarget ev.
Proof.
  intros Hex Hm Hreq Hdo Hst Hbody Hjs. split.
  - by apply (Pattern_Handle_matched p ev matches).
  - simpl. rewrite (Submit_sent _ _ _ _ _ _ Hreq), Hdo.
    unfold Submit_response. rewrite Hst, Hbody. simpl. rewrite Hjs.
    eexists. split; [done|]. by repeat split.
Qed.

(** C5.  A matched event whose call fails in transport or is answered with
    a status that is not 2xx leaves no feedback event, and the broker has
    counted it as received and as actioned all the same. *)
Theorem HandleEvent_counts_failed_call
    (prb : PatternRoutingBroker) pre p post ev matches named req :
  patterns prb = pre ++ RegexPattern p :: post →
  Forall (λ x, recognizes x ev = false) pre →
  ExtractMatches p (Text ev) = Ret (matches, named) →
  matches ≠ [] →
  counters_in_range prb →
  Submit_request p (Actor ev) (Text ev) named = Ret (Some req) →
  (client_Do req = None
   ∨ ∃ resp, client_Do req = Some resp
             ∧ (∃ n, StatusCode (resp_Status resp) = Some n)
             ∧ status_2xx (resp_Status resp) = false) →
  ∃ prb',
    PRB_HandleEvent prb ev
    = Ret (prb', [GoSubmit p ev (Actor ev) (Text ev) named])
    ∧ feedback_of (GoSubmit p ev (Actor ev) (Text ev) named) = Ret []
    ∧ msgsRcvd prb' = (msgsRcvd prb + 1)%Z
    ∧ msgsActn prb' = (msgsActn prb + 1)%Z.
Proof.
  intros Hp Hpre Hex Hm [Hr Ha] Hreq Hdo.
  eexists. split.
  { apply (HandleEvent_first prb pre (RegexPattern p) post); [done|done|].
    by apply (Pattern_Handle_matched p ev matches). }
  simpl. rewrite !incr64_succ by done. split; [|done].
  rewrite (Submit_sent _ _ _ _ _ _ Hreq).
  destruct Hdo as [->|(resp & -> & [n Hn] & H2)]; [done|].
  destruct (status_not_2xx_not_200 _ H2) as [H200|Hnone]; [|congruence].
  by rewrite Submit_response_not_200.
Qed.

End HandleFacts.

(* ------------------------------------------------------------------ *)
(** ** The broker on concrete events *)
(* ------------------------------------------------------------------ *)

Example help_command_effect :
  @PRB_HandleEvent (fixed_endpoint None) example_broker (example_event "..list")
  = Ret ({| patterns := patterns example_broker; msgsActn := 1; msgsRcvd := 1 |},
         [Send {| IsCmdOutput := true; Origin := None; ReplyBroker := None;
                  ReplyTarget := EmptyString; Actor := EmptyString;
                  Avatar := EmptyString;
                  Text := "say list" +:+ String "010"%char "say is";
                  RawText := EmptyString; ContentBlocks := []; ts := 0 |}]).
Proof. reflexivity. Qed.

(** C2, counterexample.  After [Setup] the help handler stands before the
    configured patterns.  The text "..list" matches the expressions of both
    configured patterns, and yet the first of them is not started: the help
    handler answers. *)
Lemma help_command_preempts_first_match :
  ¬ @first_match_acts (fixed_endpoint None) example_broker
      (example_event "..list").
Proof.
  intros Hc.
  destruct (Hc [] (example_pattern "list") [example_pattern "is"])
    as (prb' & named & Heq).
  - reflexivity.
  - constructor.
  - discriminate.
  - rewrite help_command_effect in Heq. discriminate.
Qed.

Lemma HandleEvent_first_handler_only_witness :
  ∃ prb' e,
    @PRB_HandleEvent (fixed_endpoint None) example_broker
      (example_event "this list") = Ret (prb', [e])
    ∧ effect_of_pattern (RegexPattern (example_pattern "list"))
        (example_event "this list") e
    ∧ patterns prb' = patterns example_broker
    ∧ msgsActn prb' = (msgsActn example_broker + 1)%Z
    ∧ msgsRcvd prb' = (msgsRcvd example_broker + 1)%Z.
Proof.
  apply (@HandleEvent_first_handler_only (fixed_endpoint None) example_broker
           [HelperPattern_] (RegexPattern (example_pattern "list"))
           [RegexPattern (example_pattern "is")]).
  - reflexivity.
  - repeat constructor.
  - reflexivity.
  - apply literal_regexp_wf.
  - split; vm_compute; (split; [discriminate|reflexivity]).
Defined.

(** C4, counterexample.  A reply with status 201 is a 2xx reply, the body
    is the one of the example and decodes, and no feedback event is sent. *)
Lemma reply_201_leaves_no_feedback :
  let env := fixed_endpoint (Some ("201 Created", ok_body)) in
  let p := example_pattern "deploy" in
  let ev := example_event "deploy now" in
  status_2xx "201 Created" = true
  ∧ @json_Unmarshal env ok_body = Some {| jr_Text := "ok"; jr_Blocks := [] |}
  ∧ Pattern_Handle p ev = Ret (true, [GoSubmit p ev (Actor ev) (Text ev) ∅])
  ∧ @feedback_of env (GoSubmit p ev (Actor ev) (Text ev) ∅) = Ret [].
Proof. vm_compute. by repeat split. Qed.

Lemma Submit_ok_reply_status_200_witness :
  let env := fixed_endpoint (Some ("200 OK", ok_body)) in
  let p := example_pattern "deploy" in
  let ev := example_event "deploy now" in
  Pattern_Handle p ev = Ret (true, [GoSubmit p ev (Actor ev) (Text ev) ∅])
  ∧ ∃ fb, @feedback_of env (GoSubmit p ev (Actor ev) (Text ev) ∅) = Ret [fb]
          ∧ Text fb = "ok"
          ∧ ContentBlocks fb = []
          ∧ ReplyBroker fb = ReplyBroker ev
          ∧ ReplyTarget fb = ReplyTarget ev.
Proof.
  intros env p ev.
  eapply (@Submit_ok_reply_status_200 env p ev ["deploy"] ∅ _
            {| resp_Status := "200 OK"; resp_Body := ok_body |}).
  - reflexivity.
  - discriminate.
  - reflexivity.
  - reflexivity.
  - reflexivity.
  - reflexivity.
  - reflexivity.
Defined.

Lemma HandleEvent_counts_failed_call_witness :
  let env := fixed_endpoint (Some ("404 Not Found", EmptyString)) in
  let p := example_pattern "list" in
  let ev := example_event "this list" in
  ∃ prb',
    @PRB_HandleEvent env example_broker ev
    = Ret (prb', [GoSubmit p ev (Actor ev) (Text ev) ∅])
    ∧ @feedback_of env (GoSubmit p ev (Actor ev) (Text ev) ∅) = Ret []
    ∧ msgsRcvd prb' = (msgsRcvd example_broker + 1)%Z
    ∧ msgsActn prb' = (msgsActn example_broker + 1)%Z.
Proof.
  intros env p ev.
  eapply (@HandleEvent_counts_failed_call env example_broker
            [HelperPattern_] p [RegexPattern (example_pattern "is")] ev
            ["list"] ∅).
  - reflexivity.
  - repeat constructor.
  - reflexivity.
  - discriminate.
  - split; vm_compute; (split; [discriminate|reflexivity]).
  - reflexivity.
  - right. eexists. split; [reflexivity|]. split; [by eexists|reflexivity].
Defined.

(** The same event when the transport fails. *)
Example transport_failure_leaves_no_feedback :
  let p := example_pattern "list" in
  let ev := example_event "this list" in
  @feedback_of (fixed_endpoint None) (GoSubmit p ev (Actor ev) (Text ev) ∅)
  = Ret [].
Proof. reflexivity. Qed.

(* ------------------------------------------------------------------ *)
(** ** [ChunkSplit] *)
(* ------------------------------------------------------------------ *)

Lemma groups_fuel_nil {A} (fuel n : nat) : @groups_fuel A fuel n [] = [].
Proof. by destruct fuel. Qed.

Lemma groups_fuel_short {A} (fuel n : nat) (l : list A) :
  0 < length l ≤ n → 0 < fuel → groups_fuel fuel n l = [l].
Proof.
  intros Hl Hf. destruct fuel as [|f]; [lia|]. destruct l as [|x l]; simpl in *; [lia|].
  destruct n as [|n]; [lia|]. simpl.
  rewrite take_ge, drop_ge by lia. by rewrite groups_fuel_nil.
Qed.

Lemma groups_fuel_enough {A} (f1 f2 n : nat) (l : list A) :
  0 < n → length l ≤ f1 → length l ≤ f2 →
  groups_fuel f1 n l = groups_fuel f2 n l.
Proof.
  intros Hn. revert f2 l. induction f1 as [|f1 IH]; intros f2 l H1 H2.
  - destruct l; [by rewrite !groups_fuel_nil|simpl in H1; lia].
  - destruct l as [|x l]; [by rewrite !groups_fuel_nil|].
    destruct f2 as [|f2]; [simpl in H2; lia|].
    change (take n (x :: l) :: groups_fuel f1 n (drop n (x :: l))
            = take n (x :: l) :: groups_fuel f2 n (drop n (x :: l))).
    f_equal. apply IH; rewrite length_drop; simpl in *; lia.
Qed.

Lemma groups_fuel_concat {A} (fuel n : nat) (l : list A) :
  0 < n → length l ≤ fuel → concat (groups_fuel fuel n l) = l.
Proof.
  intros Hn. revert l. induction fuel as [|f IH]; intros l Hl.
  - destruct l; [done|simpl in Hl; lia].
  - destruct l as [|x l]; [done|].
    change (take n (x :: l) ++ concat (groups_fuel f n (drop n (x :: l))) = x :: l).
    rewrite IH; [apply take_drop|].
    rewrite length_drop. simpl in *. lia.
Qed.

(** Every group but the last has [n] elements; the last has between one
    and [n]. *)
Lemma groups_fuel_lengths {A} (fuel n : nat) (l : list A) (i : nat) (g : list A) :
  0 < n → length l ≤ fuel →
  groups_fuel fuel n l !! i = Some g →
  0 < length g ≤ n ∧ (S i < length (groups_fuel fuel n l) → length g = n).
Proof.
  intros Hn. revert l i. induction fuel as [|f IH]; intros l i Hl Hg.
  - by destruct l.
  - destruct l as [|x l]; [done|].
    change (groups_fuel (S f) n (x :: l))
      with (take n (x :: l) :: groups_fuel f n (drop n (x :: l))) in *.
    destruct i as [|i].
    + injection Hg as <-. rewrite length_take. split; [simpl; lia|].
      simpl length at 1. intros Hmore.
      destruct (drop n (x :: l)) as [|y r] eqn:Hd.
      { rewrite groups_fuel_nil in Hmore. simpl in Hmore. lia. }
      assert (length (drop n (x :: l)) = S (length r)) as Hlen by by rewrite Hd.
      rewrite length_drop in Hlen. lia.
    + simpl in Hg. destruct (IH (drop n (x :: l)) i) as [Hg1 Hg2]; [|done|].
      { rewrite length_drop. simpl in *. lia. }
      split; [done|]. simpl. intros Hmore. apply Hg2. lia.
Qed.

Lemma string_of_runes_app (rs1 rs2 : list Z) :
  string_of_runes (rs1 ++ rs2) = string_of_runes rs1 +:+ string_of_runes rs2.
Proof. unfold string_of_runes. by rewrite fmap_app, str_concat_app. Qed.

Lemma string_of_runes_concat (groups : list (list Z)) :
  str_concat (string_of_runes <$> groups) = string_of_runes (concat groups).
Proof.
  induction groups as [|g groups IH]; [done|].
  change (string_of_runes g +:+ str_concat (string_of_runes <$> groups)
          = string_of_runes (g ++ concat groups)).
  by rewrite IH, string_of_runes_app.
Qed.

Section ChunkSplitFacts.
Context `{GoRuntime}.

Lemma rs_append_elems (s : RuneSlice) (x : Z) :
  rs_elems (rs_append s x) = rs_elems s ++ [x].
Proof. unfold rs_append. by destruct (rs_spare s). Qed.

Lemma collect_runes_elems (body : string) :
  rs_elems (collect_runes body) = runes_of_string body.
Proof.
  unfold collect_runes.
  assert (∀ l s, rs_elems (foldl rs_append s l) = rs_elems s ++ l) as Hfold.
  { induction l as [|x l IH]; intros s; simpl.
    - by rewrite app_nil_r.
    - by rewrite IH, rs_append_elems, <- app_assoc. }
  by rewrite Hfold.
Qed.

Lemma collect_runes_len (body : string) :
  rs_len (collect_runes body) = utf8_RuneCountInString body.
Proof. unfold rs_len. by rewrite collect_runes_elems. Qed.

Lemma chunk_loop_empty (fuel : nat) result (cs : RuneSlice) (limit : Z) :
  rs_len cs = 0 → chunk_loop fuel result cs limit = Some (Ret result).
Proof. intros Hlen. destruct fuel; simpl; by rewrite Hlen. Qed.

Lemma rs_slice_to_within (cs : RuneSlice) (hi : Z) :
  (0 ≤ hi ≤ Z.of_nat (rs_len cs))%Z →
  rs_slice_to cs hi = Ret (take (Z.to_nat hi) (rs_elems cs)).
Proof.
  intros Hhi. unfold rs_slice_to, rs_cap.
  replace ((0 <=? hi)%Z && (hi <=? Z.of_nat (rs_len cs + rs_spare cs))%Z) with true
    by (symmetry; apply andb_true_iff; split; apply Z.leb_le; lia).
  unfold rs_len in Hhi. by rewrite take_app_le by lia.
Qed.

Lemma rs_slice_from_within (cs : RuneSlice) (lo : Z) :
  (0 ≤ lo ≤ Z.of_nat (rs_len cs))%Z →
  rs_slice_from cs lo
  = Ret {| rs_elems := drop (Z.to_nat lo) (rs_elems cs); rs_spare := rs_spare cs |}.
Proof.
  intros Hlo. unfold rs_slice_from.
  by replace ((0 <=? lo)%Z && (lo <=? Z.of_nat (rs_len cs))%Z) with true
    by (symmetry; apply andb_true_iff; split; apply Z.leb_le; lia).
Qed.

Lemma chunk_loop_step (fuel : nat) result (cs cs' : RuneSlice) (limit : Z) chunk :
  0 < rs_len cs →
  rs_slice_to cs limit = Ret chunk →
  rs_slice_from cs limit = Ret cs' →
  chunk_loop (S fuel) result cs limit
  = chunk_loop fuel (result ++ [string_of_runes chunk]) cs'
      (if (Z.of_nat (rs_len cs') <? limit)%Z then Z.of_nat (rs_len cs') else limit).
Proof.
  intros Hlen Hto Hfrom. simpl. rewrite Hto, Hfrom.
  by destruct (rs_len cs <? 1) eqn:Hlt; [apply Nat.ltb_lt in Hlt; lia|].
Qed.

(** With a limit that the slice can fill, the loop ends and cuts the runes
    into groups of [limit]. *)
Lemma chunk_loop_groups (fuel : nat) result (cs : RuneSlice) (limit : Z) :
  rs_len cs ≤ fuel →
  (0 < limit ≤ Z.of_nat (rs_len cs))%Z →
  chunk_loop fuel result cs limit
  = Some (Ret (result ++ (string_of_runes
                            <$> groups_fuel fuel (Z.to_nat limit) (rs_elems cs)))).
Proof.
  revert result cs limit. induction fuel as [|f IH]; intros result cs limit Hfuel Hlim.
  { lia. }
  set (n := Z.to_nat limit).
  set (cs' := {| rs_elems := drop n (rs_elems cs); rs_spare := rs_spare cs |}).
  rewrite (chunk_loop_step f result cs cs' limit (take n (rs_elems cs)));
    [|lia|apply rs_slice_to_within; lia|apply rs_slice_from_within; lia].
  assert (rs_len cs' = rs_len cs - n) as Hlen' by apply length_drop.
  destruct (rs_elems cs) as [|x elems] eqn:Hel.
  { unfold rs_len in Hlim. rewrite Hel in Hlim. simpl in Hlim. lia. }
  assert (rs_len cs = S (length elems)) as Hlen by (unfold rs_len; by rewrite Hel).
  change (groups_fuel (S f) n (x :: elems))
    with (take n (x :: elems) :: groups_fuel f n (drop n (x :: elems))).
  destruct (decide (rs_len cs' = 0)) as [Hz|Hnz].
  - rewrite chunk_loop_empty by done.
    unfold rs_len in Hz. apply nil_length_inv in Hz. simpl in Hz.
    by rewrite Hz, groups_fuel_nil.
  - destruct (Z.of_nat (rs_len cs') <? limit)%Z eqn:Hcmp.
    + apply Z.ltb_lt in Hcmp.
      rewrite IH by lia. rewrite Nat2Z.id. simpl rs_elems.
      rewrite !groups_fuel_short; [by rewrite <- app_assoc| | | |];
        unfold rs_len in *; simpl in *; lia.
    + apply Z.ltb_ge in Hcmp.
      rewrite IH by lia. by rewrite <- app_assoc.
Qed.

(** With a limit longer than a slice that is not empty, the loop panics in
    its first round: at [charSlice[:limit]] when the limit passes the
    capacity, at [charSlice[limit:]] otherwise. *)
Lemma chunk_loop_panics (fuel : nat) result (cs : RuneSlice) (limit : Z) :
  (0 < Z.of_nat (rs_len cs) < limit)%Z →
  chunk_loop (S fuel) result cs limit
  = Some (Panics (if (limit <=? Z.of_nat (rs_cap cs))%Z
                  then "slice bounds out of range [lo:len]"
                  else "slice bounds out of range [:hi] with capacity")).
Proof.
  intros Hlen. simpl.
  destruct (rs_len cs <? 1) eqn:Hlt; [apply Nat.ltb_lt in Hlt; lia|].
  unfold rs_slice_to, rs_slice_from.
  replace (0 <=? limit)%Z with true by (symmetry; apply Z.leb_le; lia).
  simpl. destruct (limit <=? Z.of_nat (rs_cap cs))%Z; [|done].
  by replace (limit <=? Z.of_nat (rs_len cs))%Z with false
    by (symmetry; apply Z.leb_gt; lia).
Qed.

Lemma ChunkSplit_groups (body : string) (limit : Z) :
  (0 < limit)%Z →
  utf8_RuneCountInString body = 0
  ∨ (limit ≤ Z.of_nat (utf8_RuneCountInString body))%Z →
  ChunkSplit body limit
  = Some (Ret (string_of_runes
                 <$> groups_of (Z.to_nat limit) (runes_of_string body))).
Proof.
  intros Hlim Hn. unfold ChunkSplit, groups_of.
  rewrite <- collect_runes_len in Hn. destruct Hn as [Hz|Hge].
  - rewrite chunk_loop_empty by done.
    rewrite <- collect_runes_elems. unfold rs_len in Hz.
    apply nil_length_inv in Hz. by rewrite Hz.
  - rewrite chunk_loop_groups by lia. rewrite app_nil_l.
    rewrite collect_runes_elems. do 3 f_equal.
    apply groups_fuel_enough; [lia| |lia].
    unfold rs_len. rewrite collect_runes_elems. lia.
Qed.

Lemma ChunkSplit_panics (body : string) (limit : Z) :
  (0 < Z.of_nat (utf8_RuneCountInString body) < limit)%Z →
  ChunkSplit body limit
  = Some (Panics (if (limit <=? Z.of_nat (rs_cap (collect_runes body)))%Z
                  then "slice bounds out of range [lo:len]"
                  else "slice bounds out of range [:hi] with capacity")).
Proof.
  intros Hn. unfold ChunkSplit. apply chunk_loop_panics.
  by rewrite collect_runes_len.
Qed.

(** The chunks of a body that the limit can fill. *)
Lemma ChunkSplit_chunks (body : string) (limit : Z) :
  (0 < limit)%Z →
  utf8_RuneCountInString body = 0
  ∨ (limit ≤ Z.of_nat (utf8_RuneCountInString body))%Z →
  ∃ chunks,
    ChunkSplit body limit = Some (Ret chunks)
    ∧ str_concat chunks = string_of_runes (runes_of_string body)
    ∧ ∀ i chunk, chunks !! i = Some chunk →
        (0 < Z.of_nat (utf8_RuneCountInString chunk) ≤ limit)%Z
        ∧ (S i < length chunks →
           Z.of_nat (utf8_RuneCountInString chunk) = limit).
Proof.
  intros Hlim Hn. eexists. split; [by apply ChunkSplit_groups|].
  set (n := Z.to_nat limit). set (rs := runes_of_string body).
  assert (0 < n) as Hpos by lia.
  pose proof (groups_fuel_concat (length rs) n rs Hpos (le_n _)) as Hcat.
  fold (groups_of n rs) in Hcat.
  split; [by rewrite string_of_runes_concat, Hcat|].
  intros i chunk Hi. rewrite list_lookup_fmap in Hi.
  destruct (groups_of n rs !! i) as [g|] eqn:Hg; [|done].
  injection Hi as <-.
  assert (Forall (λ r, valid_rune r = true) g) as Hvalid.
  { pose proof (runes_of_string_valid body) as Hall. fold rs in Hall.
    rewrite <- Hcat in Hall. apply Forall_concat in Hall.
    by apply (Forall_lookup_1 _ _ _ _ Hall Hg). }
  rewrite RuneCount_string_of_runes by done. rewrite length_fmap.
  destruct (groups_fuel_lengths (length rs) n rs i g Hpos (le_n _) Hg) as [H1 H2].
  split; [lia|]. intros Hmore. specialize (H2 Hmore). lia.
Qed.

(** C10, amended.  With a positive limit [ChunkSplit] returns exactly on
    the bodies that have no rune or at least [limit] runes.  On those, the
    chunks put together are the body decoded and encoded again, which is
    the body itself when it is valid UTF-8; every chunk has between one and
    [limit] runes, and each but the last has exactly [limit].  On a body
    with fewer runes than the limit it panics, and for some such body the
    panic is the one of [charSlice[:limit]]. *)
Theorem ChunkSplit_total_on_fillable_bodies :
  (∀ body limit, (0 < limit)%Z →
     let n := Z.of_nat (utf8_RuneCountInString body) in
     ((∃ chunks, ChunkSplit body limit = Some (Ret chunks))
      ↔ (n = 0 ∨ limit ≤ n)%Z)
     ∧ ((n = 0 ∨ limit ≤ n)%Z →
        ∃ chunks,
          ChunkSplit body limit = Some (Ret chunks)
          ∧ str_concat chunks = string_of_runes (runes_of_string body)
          ∧ (utf8_ValidString body = true → str_concat chunks = body)
          ∧ ∀ i chunk, chunks !! i = Some chunk →
              (0 < Z.of_nat (utf8_RuneCountInString chunk) ≤ limit)%Z
              ∧ (S i < length chunks →
                 Z.of_nat (utf8_RuneCountInString chunk) = limit))
     ∧ ((0 < n < limit)%Z → ∃ why, ChunkSplit body limit = Some (Panics why)))
  ∧ ∃ body limit,
      (0 < Z.of_nat (utf8_RuneCountInString body) < limit)%Z
      ∧ ChunkSplit body limit
        = Some (Panics "slice bounds out of range [:hi] with capacity").
Proof.
  split.
  - intros body limit Hlim n.
    assert ((n = 0 ∨ limit ≤ n)%Z →
            utf8_RuneCountInString body = 0
            ∨ (limit ≤ Z.of_nat (utf8_RuneCountInString body))%Z) as Hconv
      by (subst n; lia).
    split; [split|split].
    + intros [chunks Hret].
      destruct (decide (0 < n < limit)%Z) as [Hshort|]; [|lia].
      rewrite ChunkSplit_panics in Hret by done. done.
    + intros Hn. destruct (ChunkSplit_chunks body limit Hlim (Hconv Hn))
        as (chunks & Hret & _). eauto.
    + intros Hn. destruct (ChunkSplit_chunks body limit Hlim (Hconv Hn))
        as (chunks & Hret & Hcat & Hlen).
      exists chunks. split; [done|]. split; [done|]. split; [|done].
      intros Hvalid. by rewrite Hcat, string_of_runes_of_string.
    + intros Hshort. rewrite ChunkSplit_panics by done. eauto.
  - exists "a", (Z.of_nat (rs_cap (collect_runes "a")) + 1)%Z.
    assert (utf8_RuneCountInString "a" = 1) as Hcount by done.
    assert (1 ≤ rs_cap (collect_runes "a")) as Hcap.
    { unfold rs_cap. rewrite collect_runes_len, Hcount. lia. }
    split; [rewrite Hcount; lia|].
    rewrite ChunkSplit_panics by (rewrite Hcount; lia).
    by replace (_ <=? _)%Z with false by (symmetry; apply Z.leb_gt; lia).
Qed.

End ChunkSplitFacts.

(** C10, counterexample.  A body of one byte that is not UTF-8 has one rune,
    so a limit of one can be filled; [ChunkSplit] returns one chunk, the
    encoding of the replacement character, and not the body. *)
Lemma ChunkSplit_replaces_invalid_byte :
  let body := String "255"%char EmptyString in
  utf8_RuneCountInString body = 1
  ∧ @ChunkSplit doubling_runtime body 1
    = Some (Ret [utf8_EncodeRune RuneError])
  ∧ str_concat [utf8_EncodeRune RuneError] ≠ body.
Proof. repeat split. discriminate. Qed.

Example ChunkSplit_hello :
  @ChunkSplit doubling_runtime "hello world" 4
  = Some (Ret ["hell"; "o wo"; "rld"]).
Proof. reflexivity. Qed.

Example ChunkSplit_short_body :
  @ChunkSplit doubling_runtime "abc" 4
  = Some (Panics "slice bounds out of range [lo:len]")
  ∧ @ChunkSplit doubling_runtime "abc" 5
    = Some (Panics "slice bounds out of range [:hi] with capacity").
Proof. split; reflexivity. Qed.

(* ------------------------------------------------------------------ *)
(** ** The user cache *)
(* ------------------------------------------------------------------ *)

Section CacheFacts.
Context `{Unicode} `{SlackAPI}.

Lemma CacheUser_users (suc : SlackUserCache) (user : SlackUser) :
  users (CacheUser suc user) !! Id user = Some user.
Proof. apply lookup_insert_eq. Qed.

Lemma CacheUser_nicks (suc : SlackUserCache) (user : SlackUser) (nick : string) :
  strings_ToLower nick = strings_ToLower (Nick user) →
  nicks (CacheUser suc user) !! strings_ToLower nick = Some user.
Proof. intros ->. apply lookup_insert_eq. Qed.

(** A cached id is answered from the cache, whatever the mode. *)
Lemma UserNick_cached (suc : SlackUserCache) (ukey : string) (user : SlackUser)
    (cacheOnly : bool) :
  users suc !! ukey = Some user →
  UserNick suc ukey cacheOnly = (suc, Nick user).
Proof. intros Hu. unfold UserNick, userInIdCache. by rewrite Hu. Qed.

Lemma UserId_cached (suc : SlackUserCache) (nick : string) (user : SlackUser)
    (cacheOnly : bool) :
  nicks suc !! strings_ToLower nick = Some user →
  UserId suc nick cacheOnly = (suc, Id user).
Proof. intros Hn. unfold UserId, userInNickCache. by rewrite Hn. Qed.

(** C7.  A cached record is found in both indexes: by its id, and by its
    nick in any casing.  After caching the user with id U1 and nick Bob in
    a fresh cache, the cache-only lookup of U1 gives Bob and the cache-only
    lookup of bob, in whatever casing, gives U1. *)
Theorem CacheUser_found_by_id_and_nick :
  (∀ suc user,
     UserNick (CacheUser suc user) (Id user) true
     = (CacheUser suc user, Nick user))
  ∧ (∀ suc user nick,
       strings_ToLower nick = strings_ToLower (Nick user) →
       UserId (CacheUser suc user) nick true = (CacheUser suc user, Id user))
  ∧ ∀ avatar,
      let user := {| Id := "U1"; Nick := "Bob"; su_Avatar := avatar |} in
      let suc := CacheUser SlackUserCache_Setup user in
      users suc !! "U1" = Some user
      ∧ nicks suc !! "bob" = Some user
      ∧ UserNick suc "U1" true = (suc, "Bob")
      ∧ UserId suc "bob" true = (suc, "U1")
      ∧ UserId suc "Bob" true = (suc, "U1")
      ∧ UserId suc "BOB" true = (suc, "U1")
      ∧ ∀ nick, strings_ToLower nick = "bob" → UserId suc nick true = (suc, "U1").
Proof.
  split; [|split].
  - intros suc user. apply UserNick_cached, CacheUser_users.
  - intros suc user nick Hnick. by apply UserId_cached, CacheUser_nicks.
  - intros avatar user suc.
    assert (∀ nick, strings_ToLower nick = "bob" →
                    UserId suc nick true = (suc, "U1")) as Hany.
    { intros nick Hnick.
      apply (UserId_cached suc nick user), (CacheUser_nicks _ user).
      by rewrite Hnick. }
    split; [apply (CacheUser_users _ user)|].
    split; [by apply (CacheUser_nicks _ user "bob")|].
    split; [apply (UserNick_cached suc "U1" user), (CacheUser_users _ user)|].
    split; [by apply Hany|]. split; [by apply Hany|]. split; [by apply Hany|].
    exact Hany.
Qed.

End CacheFacts.

(* ------------------------------------------------------------------ *)
(** ** The expressions of the broker *)
(* ------------------------------------------------------------------ *)

Lemma HasPrefix_take1 (c : ascii) (s prefix : string) :
  str_mem c (str_take 1 s) = false →
  strings_HasPrefix s (String c prefix) = false.
Proof.
  destruct s as [|d s]; [done|]. simpl.
  rewrite str_mem_cons, HasPrefix_cons. by intros [-> _]%orb_false_iff.
Qed.

Lemma match_uids_begins : begins_with "<" match_uids.
Proof. intros s Hs. unfold match_uids. by rewrite HasPrefix_take1. Qed.

Lemma match_atusers_begins : begins_with "@" match_atusers.
Proof. intros s Hs. unfold match_atusers. by rewrite HasPrefix_take1. Qed.

Lemma match_embeddedurls_begins : begins_with "<" match_embeddedurls.
Proof. intros s Hs. unfold match_embeddedurls. by rewrite HasPrefix_take1. Qed.

Lemma span_app_all (f : ascii → bool) (a b : string) :
  str_forallb f a = true → span f (a +:+ b) = String.length a + span f b.
Proof.
  induction a as [|c a IH]; [done|]. simpl.
  intros [-> Ha]%andb_true_iff. by rewrite IH.
Qed.

Lemma str_take_app_plus (a b : string) (k : nat) :
  str_take (String.length a + k) (a +:+ b) = a +:+ str_take k b.
Proof.
  induction a as [|c a IH]; [done|]. rewrite !str_app_cons. simpl. by rewrite IH.
Qed.

Lemma str_mem_take (c : ascii) (s : string) (k : nat) :
  str_mem c s = false → str_mem c (str_take k s) = false.
Proof.
  revert k. induction s as [|d s IH]; intros k; [by destruct k|].
  rewrite str_mem_cons. intros [Hd Hs]%orb_false_iff.
  destruct k; [done|]. simpl. by rewrite str_mem_cons, Hd, IH.
Qed.

(** A link on one line, with no closing bracket inside it or after it. *)
Lemma match_embeddedurls_link (x post : string) :
  x ≠ EmptyString →
  str_mem ">" x = false → str_forallb not_newline x = true →
  str_mem ">" post = false →
  match_embeddedurls (("<http" +:+ x +:+ ">") +:+ post)
  = Some (String.length ("<http" +:+ x +:+ ">"), 1, 5 + String.length x).
Proof.
  intros Hx Hgt Hnl Hpost. unfold match_embeddedurls.
  rewrite !str_app_assoc, HasPrefix_self_app.
  change (str_drop 5 ("<http" +:+ x +:+ ">" +:+ post)) with (x +:+ ">" +:+ post).
  rewrite span_app_all by done.
  change (">" +:+ post) with (String ">" post).
  change (span not_newline (String ">" post)) with (S (span not_newline post)).
  rewrite str_take_app_plus. simpl str_take.
  rewrite last_index_app_last by by apply str_mem_take.
  destruct x as [|c x]; [done|]. simpl String.length.
  rewrite !str_length_app. simpl. do 3 f_equal; lia.
Qed.


(* ------------------------------------------------------------------ *)
(** ** [SimplifyParse] *)
(* ------------------------------------------------------------------ *)

Lemma str_slice_at (s a b c : string) (lo hi : nat) :
  s = a +:+ b +:+ c → lo = String.length a →
  hi = String.length a + String.length b →
  str_slice s lo hi = Ret b.
Proof. intros -> -> ->. apply str_slice_middle. Qed.

Lemma split_from_not_nil (sep : string) (skip : nat) (cur s : string) :
  split_from sep skip cur s ≠ [].
Proof.
  revert skip cur. induction s as [|c s IH]; intros skip cur; [done|].
  simpl. destruct skip; [|apply IH].
  destruct (strings_HasPrefix _ _); [done|apply IH].
Qed.

(** The label [SimplifyParse] takes is the one the specification asks for. *)
Lemma link_label_choice (entire_url : string) (parts : list string) :
  parts ≠ [] → label_choice parts (link_label entire_url parts).
Proof.
  destruct parts as [|part0 [|part1 [|part2 rest]]]; [done| | |]; intros _.
  - apply label_missing.
  - simpl. destruct part1 as [|c part1]; simpl.
    + apply label_empty.
    + by apply label_given.
  - apply label_ambiguous.
Qed.

Section SimplifyParseFacts.
Context `{Html}.

(** A text with one link: the link gives way to its label, and the text is
    unescaped. *)
Lemma SimplifyParse_link (pre x post : string) :
  x ≠ EmptyString →
  str_mem ">" x = false → str_forallb not_newline x = true →
  str_mem "<" pre = false →
  str_mem "<" post = false → str_mem ">" post = false →
  SimplifyParse (pre +:+ ("<http" +:+ x +:+ ">") +:+ post)
  = Ret (html_UnescapeString
           (pre +:+ link_label ("<http" +:+ x +:+ ">")
                      (strings_Split ("http" +:+ x) "|") +:+ post)).
Proof.
  intros Hx Hgt Hnl Hpre Hpost1 Hpost2. unfold SimplifyParse.
  rewrite (find_all_single match_embeddedurls "<" pre _ post 1
             (5 + String.length x));
    [|apply match_embeddedurls_begins|done|done
     |by apply match_embeddedurls_link].
  change (reverse [?m]) with [m]. unfold simplify_loop. cbn [m0 m1 m2 m3].
  rewrite str_slice_middle. go_step.
  rewrite (str_slice_at _ (pre +:+ "<") ("http" +:+ x) (">" +:+ post)).
  - do 2 go_step. do 2 f_equal.
    by apply (ReplaceAll_single _ _ "<" ("http" +:+ x +:+ ">")).
  - by rewrite !str_app_assoc.
  - rewrite str_length_app. simpl. lia.
  - rewrite !str_length_app. simpl. lia.
Qed.

(** Where the rule for links holds.  [SimplifyParse] turns the link with
    the label Example into Example and the bare link into its URL.  In a
    text with one link, no opening angle bracket before it and no angle
    bracket after it, the link gives way to its human label when its group
    has exactly two segments and the label is not empty, and to its first
    segment when there is no label or there are more than two segments. *)
Theorem SimplifyParse_prefers_label :
  SimplifyParse "<http://x.com|Example>" = Ret "Example"
  ∧ SimplifyParse "<http://x.com>" = Ret "http://x.com"
  ∧ ∀ pre x post,
      x ≠ EmptyString →
      str_mem ">" x = false → str_forallb not_newline x = true →
      str_mem "<" pre = false →
      str_mem "<" post = false → str_mem ">" post = false →
      ∃ label,
        label_choice (strings_Split ("http" +:+ x) "|") label
        ∧ SimplifyParse (pre +:+ ("<http" +:+ x +:+ ">") +:+ post)
          = Ret (html_UnescapeString (pre +:+ label +:+ post)).
Proof.
  split; [|split].
  - assert (simplify_loop
              (reverse (find_all match_embeddedurls "<http://x.com|Example>"))
              "<http://x.com|Example>" = Ret "Example") as Hloop by reflexivity.
    unfold SimplifyParse. rewrite Hloop. simpl.
    by rewrite html_UnescapeString_plain.
  - assert (simplify_loop
              (reverse (find_all match_embeddedurls "<http://x.com>"))
              "<http://x.com>" = Ret "http://x.com") as Hloop by reflexivity.
    unfold SimplifyParse. rewrite Hloop. simpl.
    by rewrite html_UnescapeString_plain.
  - intros pre x post Hx Hgt Hnl Hpre Hpost1 Hpost2.
    eexists. split; [|by apply SimplifyParse_link].
    apply link_label_choice. apply split_from_not_nil.
Qed.

(** C8 (the code at the failing input).  The loop of [SimplifyParse] cuts
    every link out of the text as it stands after the replacements made so
    far, at the bounds found before any of them, and [ReplaceAll] replaces
    every occurrence of a link at once.  The labelled link of the
    specification, written on two lines, is replaced on both lines in the
    first turn, and the second turn cuts beyond the end of the shortened
    text: the call panics and no label is preferred.  The same link
    followed on its line by a closing angle bracket is taken to end at that
    bracket, and the label that replaces it is not its own. *)
Theorem SimplifyParse_repeated_link_panics :
  SimplifyParse ("<http://x.com|Example>" +:+ String "010" "<http://x.com|Example>")
  = Panics "slice bounds out of range"
  ∧ SimplifyParse "<http://x.com|Example> if a > b" = Ret "Example> if a  b"
  ∧ "Example> if a  b" ≠ "Example if a > b".
Proof.
  split; [|split; [|discriminate]].
  - assert (simplify_loop
              (reverse (find_all match_embeddedurls
                 ("<http://x.com|Example>"
                  +:+ String "010" "<http://x.com|Example>")))
              ("<http://x.com|Example>" +:+ String "010" "<http://x.com|Example>")
            = Panics "slice bounds out of range") as Hloop by reflexivity.
    unfold SimplifyParse. by rewrite Hloop.
  - assert (simplify_loop
              (reverse (find_all match_embeddedurls
                 "<http://x.com|Example> if a > b"))
              "<http://x.com|Example> if a > b" = Ret "Example> if a  b")
      as Hloop by reflexivity.
    unfold SimplifyParse. rewrite Hloop. simpl.
    by rewrite html_UnescapeString_plain.
Qed.

End SimplifyParseFacts.

Lemma unescape_from_plain (s : string) :
  str_mem "&" s = false → unescape_from 0 s = s.
Proof.
  induction s as [|c s IH]; [done|].
  rewrite str_mem_cons. intros [Hc Hs]%orb_false_iff.
  simpl. rewrite !HasPrefix_cons, Hc. simpl. by rewrite IH.
Qed.

(** The class of unescapers is inhabited. *)
Definition slack_entities : Html := {|
  html_UnescapeString := unescape_from 0;
  html_UnescapeString_plain := unescape_from_plain;
|}.

Example SimplifyParse_entities :
  @SimplifyParse slack_entities "a &lt;b&gt; <https://go.dev|Go &amp; more>"
  = Ret "a <b> Go & more".
Proof. reflexivity. Qed.

Example SimplifyParse_three_segments :
  @SimplifyParse slack_entities "<http://a|b|c>" = Ret "http://a".
Proof. reflexivity. Qed.

Example SimplifyParse_two_links_on_a_line :
  @SimplifyParse slack_entities "<http://a|A> and <http://b|B>" = Ret "http://a".
Proof. reflexivity. Qed.

(* ------------------------------------------------------------------ *)
(** ** Translating references: the round trip *)
(* ------------------------------------------------------------------ *)


Section RoundTripFacts.
Context `{Unicode} `{SlackAPI} `{MapOrder}.

Lemma range_order_empty : range_order ∅ = [].
Proof.
  pose proof (range_order_perm ∅) as Hp. rewrite map_to_list_empty in Hp.
  by apply Permutation_nil_r.
Qed.

Lemma range_order_singleton (k v : string) : range_order {[k := v]} = [(k, v)].
Proof.
  pose proof (range_order_perm {[k := v]}) as Hp.
  rewrite map_to_list_singleton in Hp. by apply Permutation_singleton_r.
Qed.

(** A text without an opening angle bracket has no reference to translate. *)
Lemma ConvertRefsToUsers_no_ref (suc : SlackUserCache) (s : string)
    (cacheOnly : bool) :
  str_mem "<" s = false →
  ConvertRefsToUsers suc s cacheOnly = Ret (suc, s).
Proof.
  intros Hs. unfold ConvertRefsToUsers, find_all.
  rewrite (find_all_from_none match_uids "<") by (done || apply match_uids_begins).
  simpl. by rewrite range_order_empty.
Qed.



End RoundTripFacts.

(* ------------------------------------------------------------------ *)
(** ** Round trips on concrete texts *)
(* ------------------------------------------------------------------ *)


(** The same with the remote lookup allowed and failing. *)
Example leading_mention_lookup_fails :
  @round_trip ascii_case_tables no_directory canonical_order
    (@CacheUser ascii_case_tables SlackUserCache_Setup bob)
    "<@U12345>: hello" false
  = Ret ("bob: hello", "@U12345: hello").
Proof. reflexivity. Qed.

(** With a directory that resolves the id, the second loop of the outbound
    translation completes the reference and the round trip closes. *)
Example leading_mention_lookup_resolves :
  @round_trip ascii_case_tables directory_with_bob canonical_order
    (@CacheUser ascii_case_tables SlackUserCache_Setup bob)
    "<@U12345>: hello" false
  = Ret ("bob: hello", "bob: hello").
Proof. reflexivity. Qed.

(* ------------------------------------------------------------------ *)
(** ** The reply broker *)
(* ------------------------------------------------------------------ *)

Section ReplyBrokerFacts.
Context `{Unicode} `{SlackAPI} `{HttpEnv}.

(** What [Submit] sends back carries the reply address of the event. *)
Lemma Submit_response_reply_address (originEvt : Event) (resp : Response) :
  Forall (λ fb, ReplyBroker fb = ReplyBroker originEvt
                ∧ ReplyTarget fb = ReplyTarget originEvt)
         (Submit_response originEvt resp).
Proof.
  unfold Submit_response.
  destruct (negb _); [constructor|].
  destruct (0 <? _)%nat; [|constructor].
  destruct (json_Unmarshal _); repeat constructor.
Qed.

(** C9, amended.  A Slack broker leaves an event addressed to another
    broker alone: it is as it was, and nothing is posted.  The pattern
    router does not look at the reply broker: an event addressed to another
    broker is matched and dispatched like any other, and what comes back
    carries the reply address of the event. *)
Theorem ReplyBroker_respected_by_SlackBroker :
  (∀ self sb ev target,
     ReplyBroker ev = Some target → target ≠ self →
     SlackBroker_HandleEvent self sb ev = Ret (sb, []))
  ∧ (∀ prb pre q post ev target,
       ReplyBroker ev = Some target →
       patterns prb = pre ++ q :: post →
       Forall (λ x, recognizes x ev = false) pre →
       recognizes q ev = true →
       MetaPattern_wf q →
       ∃ e, PRB_HandleEvent prb ev
            = Ret ({| patterns := patterns prb;
                      msgsActn := incr64 (msgsActn prb);
                      msgsRcvd := incr64 (msgsRcvd prb) |}, [e])
            ∧ effect_of_pattern q ev e
            ∧ match e with
              | Send help => ReplyBroker help = Some target
              | GoSubmit _ originEvt _ _ _ =>
                ∀ resp, Forall (λ fb, ReplyBroker fb = Some target)
                               (Submit_response originEvt resp)
              end).
Proof.
  split.
  - intros self sb ev target Hev Hne. unfold SlackBroker_HandleEvent.
    rewrite Hev. by rewrite (proj2 (Pos.eqb_neq target self) Hne).
  - intros prb pre q post ev target Hev Hp Hpre Hq Hwf.
    destruct (Handle_takes prb q ev Hwf Hq) as (e & He & Heff).
    exists e. split; [by apply (HandleEvent_first prb pre q post)|].
    split; [done|].
    destruct q as [|p]; simpl in Heff.
    + destruct Heff as (help & -> & _ & Hrb & _). by rewrite Hrb.
    + destruct Heff as (matches & named & _ & ->). intros resp.
      eapply Forall_impl; [apply Submit_response_reply_address|].
      intros fb [Hrb _]. by rewrite Hrb.
Qed.

End ReplyBrokerFacts.

Example router_addressed_event_effect :
  @PRB_HandleEvent (fixed_endpoint None) example_broker
    (addressed_event 7%positive "D1" "this list")
  = Ret ({| patterns := patterns example_broker; msgsActn := 1; msgsRcvd := 1 |},
         [GoSubmit (example_pattern "list")
            (addressed_event 7%positive "D1" "this list") "bob" "this list" ∅]).
Proof. reflexivity. Qed.

(** C9, counterexample.  An event addressed to the Slack broker at address 7
    reaches the pattern router at address 1: the router counts it as
    received and actioned and starts [Submit] for the first pattern that
    matches. *)
Lemma router_acts_on_addressed_event :
  ¬ @router_ignores_addressed (fixed_endpoint None) 1%positive example_broker
      (addressed_event 7%positive "D1" "this list").
Proof.
  intros Hc. specialize (Hc 7%positive eq_refl).
  rewrite router_addressed_event_effect in Hc.
  assert (7 ≠ 1)%positive as Hne by discriminate.
  specialize (Hc Hne). discriminate Hc.
Qed.

(** The Slack broker at address 7 posts the event addressed to it, to the
    reply target; the one at address 8 does nothing. *)
Example slack_posts_own_event :
  @SlackBroker_HandleEvent ascii_case_tables no_directory 7%positive example_slack
    (addressed_event 7%positive "D1" "@bob pong")
  = Ret ({| usercache := usercache example_slack; chanid := "C1";
            channel := "general"; token := "xoxb"; mybotid := "B1";
            sb_msgsSent := 0; sb_msgsRcvd := 1 |},
         [{| post_dest := "D1";
             post_content := MsgOptionText "<@U12345> pong";
             post_username := "bob";
             post_icon_emoji := ":avatar_bob:" |}])
  ∧ @SlackBroker_HandleEvent ascii_case_tables no_directory 8%positive example_slack
      (addressed_event 7%positive "D1" "@bob pong")
    = Ret (example_slack, []).
Proof. split; reflexivity. Qed.

(* ------------------------------------------------------------------ *)
(** ** Named groups *)
(* ------------------------------------------------------------------ *)

(** What the loop of [ExtractMatches] leaves in the map: the entries it
    found there, but for the names it met, which hold the text of the last
    group of that name. *)
Lemma collect_named_lookup (matches names : list string) (i : nat)
    (named named' : NamedGroups) (name v : string) :
  collect_named matches i names named = Ret named' →
  named' !! name = Some v ↔
    (∃ k, names !! k = Some name ∧ i + k ≠ 0 ∧ name ≠ EmptyString
          ∧ matches !! (i + k) = Some v
          ∧ ∀ k', k < k' → names !! k' ≠ Some name)
    ∨ (named !! name = Some v
       ∧ ∀ k, names !! k = Some name → i + k = 0 ∨ name = EmptyString).
Proof.
  revert i named. induction names as [|n rest IH]; intros i named; simpl.
  { intros [= <-]. split; [|by intros [(k & ? & _)|[? _]]].
    intros Hv. right. split; [done|]. intros k Hk. by rewrite lookup_nil in Hk. }
  destruct (negb (i =? 0) && negb (String.eqb n EmptyString)) eqn:Hcond.
  - apply andb_true_iff in Hcond as [Hi Hn].
    apply negb_true_iff, Nat.eqb_neq in Hi.
    apply negb_true_iff, String.eqb_neq in Hn.
    destruct (matches !! i) as [v0|] eqn:Hv0; [|done].
    intros Hloop. rewrite (IH _ _ Hloop). split.
    + intros [(k & Hk & _ & Hne & Hm & Hlast)|[Hin Hrest]].
      * left. exists (S k). split; [done|]. split; [lia|]. split; [done|].
        split; [by rewrite Nat.add_succ_r|].
        intros [|k'] ?; [lia|]. apply Hlast. lia.
      * destruct (decide (name = n)) as [->|Hneq].
        -- rewrite lookup_insert_eq in Hin. injection Hin as <-.
           left. exists 0. split; [done|]. split; [lia|]. split; [done|].
           split; [by rewrite Nat.add_0_r|].
           intros [|k'] ? Hk'; [lia|]. simpl in Hk'.
           destruct (Hrest k' Hk'); [lia|done].
        -- rewrite lookup_insert_ne in Hin by done.
           right. split; [done|]. intros [|k] Hk; simpl in Hk; [congruence|].
           destruct (Hrest k Hk); [lia|by right].
    + intros [(k & Hk & Hik & Hne & Hm & Hlast)|[Hin Hall]].
      * destruct k as [|k]; simpl in Hk.
        -- injection Hk as ->. rewrite Nat.add_0_r, Hv0 in Hm. injection Hm as ->.
           right. split; [apply lookup_insert_eq|].
           intros k Hk. destruct (Hlast (S k)); [lia|done].
        -- left. exists k. split; [done|]. split; [lia|]. split; [done|].
           split; [by rewrite Nat.add_succ_r in Hm|].
           intros k' ?. apply (Hlast (S k')). lia.
      * assert (name ≠ n) as Hneq.
        { intros ->. destruct (Hall 0 eq_refl); [lia|done]. }
        right. split; [by rewrite lookup_insert_ne|].
        intros k Hk. destruct (Hall (S k) Hk); [lia|by right].
  - apply andb_false_iff in Hcond.
    assert (i = 0 ∨ n = EmptyString) as Hskip.
    { destruct Hcond as [Hi|Hn].
      - left. by apply negb_false_iff, Nat.eqb_eq in Hi.
      - right. by apply negb_false_iff, String.eqb_eq in Hn. }
    intros Hloop. rewrite (IH _ _ Hloop). split.
    + intros [(k & Hk & _ & Hne & Hm & Hlast)|[Hin Hrest]].
      * left. exists (S k). split; [done|]. split; [lia|]. split; [done|].
        split; [by rewrite Nat.add_succ_r|].
        intros [|k'] ?; [lia|]. apply Hlast. lia.
      * right. split; [done|]. intros [|k] Hk; simpl in Hk.
        -- injection Hk as <-. destruct Hskip; [left; lia|by right].
        -- destruct (Hrest k Hk); [lia|by right].
    + intros [(k & Hk & Hik & Hne & Hm & Hlast)|[Hin Hall]].
      * destruct k as [|k]; simpl in Hk.
        -- injection Hk as ->. destruct Hskip; [lia|done].
        -- left. exists k. split; [done|]. split; [lia|]. split; [done|].
           split; [by rewrite Nat.add_succ_r in Hm|].
           intros k' ?. apply (Hlast (S k')). lia.
      * right. split; [done|].
        intros k Hk. destruct (Hall (S k) Hk); [lia|by right].
Qed.

(** X1.  A match of a compiled expression gives every named group a key of the
    map, and no other key; where groups share a name, the key holds the
    text of the last of them. *)
Theorem ExtractMatches_named_groups (p : Pattern) (text : string) :
  regexp_wf (p_re p) →
  FindStringSubmatch (p_re p) text ≠ [] →
  ∃ named,
    ExtractMatches p text = Ret (FindStringSubmatch (p_re p) text, named)
    ∧ ∀ name v,
        named !! name = Some v ↔
        ∃ i, i ≠ 0 ∧ name ≠ EmptyString
             ∧ SubexpNames (p_re p) !! i = Some name
             ∧ FindStringSubmatch (p_re p) text !! i = Some v
             ∧ ∀ j, i < j → SubexpNames (p_re p) !! j ≠ Some name.
Proof.
  intros Hwf Hm.
  destruct (ExtractMatches_returns p text Hwf) as [named Hex].
  exists named. split; [done|]. intros name v.
  unfold ExtractMatches in Hex.
  destruct (length _ =? 0)%nat eqn:Hlen.
  { apply Nat.eqb_eq, length_zero_iff_nil in Hlen. done. }
  destruct (collect_named _ _ _ _) as [named0|] eqn:Hloop; [|done].
  simpl in Hex. injection Hex as ->.
  rewrite (collect_named_lookup _ _ _ _ _ name v Hloop). simpl. split.
  - intros [(k & ? & ? & ? & ? & ?)|[Hin _]]; [by exists k|].
    by rewrite lookup_empty in Hin.
  - intros (i & ? & ? & ? & ? & ?). left. by exists i.
Qed.

Lemma ExtractMatches_named_groups_witness :
  let p := {| p_name := "n"; p_re := two_groups; p_url := "http://example.com/";
              p_headers := ∅; p_vars := ∅; p_method := "GET";
              p_help := EmptyString |} in
  ∃ named,
    ExtractMatches p "hi" = Ret (["hi"; "a"; "b"; "c"], named)
    ∧ ∀ name v,
        named !! name = Some v ↔
        ∃ i, i ≠ 0 ∧ name ≠ EmptyString
             ∧ [EmptyString; "who"; EmptyString; "who"] !! i = Some name
             ∧ ["hi"; "a"; "b"; "c"] !! i = Some v
             ∧ ∀ j, i < j → [EmptyString; "who"; EmptyString; "who"] !! j ≠ Some name.
Proof.
  intros p. apply (ExtractMatches_named_groups p "hi").
  - split; [reflexivity|reflexivity].
  - discriminate.
Defined.

(* ------------------------------------------------------------------ *)
(** ** [NewPattern] *)
(* ------------------------------------------------------------------ *)

Section NewPatternMore.
Context `{Unicode} `{RegexpLib}.

(** X2.  [NewPattern] never fails on the method: it builds a POST pattern with
    the name n/a, no header, no variable and no help text, unless the URL is
    refused or the expression does not compile. *)
Theorem NewPattern_result (reg url : string) :
  match NewPattern reg url with
  | inl p =>
    url_refused url = false
    ∧ regexp_Compile reg = inl (p_re p)
    ∧ p = {| p_name := "n/a"; p_re := p_re p; p_url := url; p_headers := ∅;
             p_vars := ∅; p_method := "POST"; p_help := EmptyString |}
  | inr err =>
    (url_refused url = true ∧ err = "url must begin with http")
    ∨ (url_refused url = false
       ∧ ∃ e, regexp_Compile reg = inr e ∧ err = "error compiling regex: " +:+ e)
  end.
Proof.
  unfold NewPattern, NewExtendedPattern, url_refused.
  destruct (_ && _); [by left|].
  destruct (regexp_Compile reg) as [re|e]; [|right; eauto].
  change (strings_ToUpper "POST") with "POST". by simpl.
Qed.

End NewPatternMore.

(* ------------------------------------------------------------------ *)
(** ** The request and the feedback of [Submit] *)
(* ------------------------------------------------------------------ *)

Section SubmitMore.
Context `{HttpEnv}.

Lemma set_headers_lookup (init hs : gmap string string) :
  let hdr := map_fold (λ h v acc, Header_Set acc h v) init hs in
  (∀ h v, hs !! h = Some v →
     (∀ h', is_Some (hs !! h') →
            CanonicalMIMEHeaderKey h' = CanonicalMIMEHeaderKey h → h' = h) →
     hdr !! CanonicalMIMEHeaderKey h = Some v)
  ∧ (∀ k, (∀ h, is_Some (hs !! h) → CanonicalMIMEHeaderKey h ≠ k) →
          hdr !! k = init !! k).
Proof.
  simpl.
  apply (map_fold_weak_ind
    (λ hdr hs,
      (∀ h v, hs !! h = Some v →
         (∀ h', is_Some (hs !! h') →
                CanonicalMIMEHeaderKey h' = CanonicalMIMEHeaderKey h → h' = h) →
         hdr !! CanonicalMIMEHeaderKey h = Some v)
      ∧ (∀ k, (∀ h, is_Some (hs !! h) → CanonicalMIMEHeaderKey h ≠ k) →
              hdr !! k = init !! k))).
  - split; [|done]. intros h v Hh. by rewrite lookup_empty in Hh.
  - intros i x m r Hi [IH1 IH2]. unfold Header_Set. split.
    + intros h v Hh Huniq. destruct (decide (h = i)) as [->|Hne].
      * rewrite lookup_insert_eq in Hh. injection Hh as ->. apply lookup_insert_eq.
      * rewrite lookup_insert_ne in Hh by done.
        rewrite lookup_insert_ne.
        -- apply IH1; [done|]. intros h' Hh' Hc. apply Huniq; [|done].
           destruct (decide (h' = i)) as [->|?].
           ++ rewrite lookup_insert_eq. eauto.
           ++ by rewrite lookup_insert_ne.
        -- intros Hc. apply Hne. symmetry. apply Huniq; [|done].
           rewrite lookup_insert_eq. eauto.
    + intros k Hk. rewrite lookup_insert_ne.
      * apply IH2. intros h Hh. apply Hk.
        destruct (decide (h = i)) as [->|?].
        -- rewrite lookup_insert_eq. eauto.
        -- by rewrite lookup_insert_ne.
      * apply Hk. rewrite lookup_insert_eq. eauto.
Qed.

(** X3.  The headers of the request [Submit] sends.  A configured header is set
    under its canonical key, as long as no other configured header has the
    same canonical key; the content type is JSON unless a configured header
    takes its key; the method, the URL and the body are left as
    [http.NewRequest] made them. *)
Theorem Submit_request_headers (p : Pattern) (actor text : string)
    (named : NamedGroups) (req : Request) :
  Submit_request p actor text named = Ret (Some req) →
  (∀ h v, p_headers p !! h = Some v →
     (∀ h', is_Some (p_headers p !! h') →
            CanonicalMIMEHeaderKey h' = CanonicalMIMEHeaderKey h → h' = h) →
     req_Header req !! CanonicalMIMEHeaderKey h = Some v)
  ∧ ((∀ h, is_Some (p_headers p !! h) →
           CanonicalMIMEHeaderKey h ≠ CanonicalMIMEHeaderKey "Content-Type") →
     req_Header req !! CanonicalMIMEHeaderKey "Content-Type"
     = Some "application/json")
  ∧ ∃ reqbody req0,
      json_Marshal (Submit_payload p actor text named) = Some reqbody
      ∧ http_NewRequest (p_method p) (p_url p) reqbody = Some req0
      ∧ req_method req = req_method req0
      ∧ req_url req = req_url req0
      ∧ req_body req = req_body req0.
Proof.
  unfold Submit_request.
  destruct (json_Marshal _) as [reqbody|]; [|done].
  destruct (http_NewRequest _ _ _) as [req0|] eqn:Hnew; [|done].
  intros [= <-]. simpl.
  destruct (set_headers_lookup
              (Header_Set (req_Header req0) "Content-Type" "application/json")
              (p_headers p)) as [H1 H2].
  split; [exact H1|]. split.
  - intros Hfree. rewrite H2 by done. apply lookup_insert_eq.
  - by exists reqbody, req0.
Qed.

(** X4.  [Submit] sends at most one feedback event, and only for a reply whose
    status begins with 200 and whose body is not empty and could be
    decoded.  The event is marked as the output of a command, has no origin
    yet and no actor, carries the reply broker and the reply target of the
    event that matched, and has the text and the blocks of the reply, in
    their order.  [Submit] panics in one case and in that case always: the
    payload was marshalled and [http.NewRequest] failed. *)
Theorem Submit_feedback_shape (p : Pattern) (originEvt : Event)
    (actor text : string) (named : NamedGroups) :
  match Submit p originEvt actor text named with
  | Ret evs =>
    (∀ reqbody,
       json_Marshal (Submit_payload p actor text named) = Some reqbody →
       is_Some (http_NewRequest (p_method p) (p_url p) reqbody))
    ∧ length evs ≤ 1
    ∧ Forall (λ fb,
        IsCmdOutput fb = true ∧ Origin fb = None ∧ Actor fb = EmptyString
        ∧ ReplyBroker fb = ReplyBroker originEvt
        ∧ ReplyTarget fb = ReplyTarget originEvt
        ∧ ∃ req resp dat,
            Submit_request p actor text named = Ret (Some req)
            ∧ client_Do req = Some resp
            ∧ strings_HasPrefix (resp_Status resp) "200" = true
            ∧ resp_Body resp ≠ EmptyString
            ∧ json_Unmarshal (resp_Body resp) = Some dat
            ∧ Text fb = jr_Text dat
            ∧ eb_Title <$> ContentBlocks fb = jb_Title <$> jr_Blocks dat
            ∧ eb_Text <$> ContentBlocks fb = jb_Text <$> jr_Blocks dat
            ∧ eb_ImgUrl <$> ContentBlocks fb = jb_Img <$> jr_Blocks dat) evs
  | Panics _ =>
    ∃ reqbody, json_Marshal (Submit_payload p actor text named) = Some reqbody
               ∧ http_NewRequest (p_method p) (p_url p) reqbody = None
  end.
Proof.
  assert (∀ r, Submit_request p actor text named = Ret r →
            ∀ reqbody,
              json_Marshal (Submit_payload p actor text named) = Some reqbody →
              is_Some (http_NewRequest (p_method p) (p_url p) reqbody)) as Hmade.
  { intros r Hr reqbody Hbody. unfold Submit_request in Hr.
    rewrite Hbody in Hr. by destruct (http_NewRequest _ _ _). }
  unfold Submit.
  destruct (Submit_request p actor text named) as [[req|]|why] eqn:Hreq; simpl.
  - specialize (Hmade _ eq_refl).
    destruct (client_Do req) as [resp|] eqn:Hdo;
      [|split; [done|split; [simpl; lia|constructor]]].
    split; [done|]. unfold Submit_response.
    destruct (strings_HasPrefix (resp_Status resp) "200") eqn:Hst; simpl;
      [|split; [lia|constructor]].
    destruct (resp_Body resp) as [|c body] eqn:Hbody; simpl;
      [split; [lia|constructor]|].
    destruct (json_Unmarshal _) as [dat|] eqn:Hjs;
      [|split; [simpl; lia|constructor]].
    split; [simpl; lia|]. constructor; [|constructor]. simpl.
    do 5 (split; [done|]). exists req, resp, dat. rewrite Hbody.
    do 6 (split; [done|]).
    by rewrite <- !list_fmap_compose.
  - split; [exact (Hmade _ eq_refl)|]. split; [lia|constructor].
  - clear Hmade. unfold Submit_request in Hreq.
    destruct (json_Marshal _) as [reqbody|]; [|done].
    destruct (http_NewRequest _ _ _) eqn:Hnew; [done|]. by exists reqbody.
Qed.

End SubmitMore.

Lemma Submit_request_headers_witness :
  let env := fixed_endpoint None in
  let req := {| req_method := "POST"; req_url := "http://example.com/hook";
                req_body := marshal_plain (Submit_payload header_pattern "bob" "deploy now" ∅);
                req_Header := {["X-Token" := "s3cret"; "Content-Type" := "application/json"]} |} in
  (∀ h v, p_headers header_pattern !! h = Some v →
     (∀ h', is_Some (p_headers header_pattern !! h') →
            @CanonicalMIMEHeaderKey env h' = @CanonicalMIMEHeaderKey env h → h' = h) →
     req_Header req !! @CanonicalMIMEHeaderKey env h = Some v)
  ∧ ((∀ h, is_Some (p_headers header_pattern !! h) →
           @CanonicalMIMEHeaderKey env h ≠ @CanonicalMIMEHeaderKey env "Content-Type") →
     req_Header req !! @CanonicalMIMEHeaderKey env "Content-Type"
     = Some "application/json")
  ∧ ∃ reqbody req0,
      @json_Marshal env (Submit_payload header_pattern "bob" "deploy now" ∅) = Some reqbody
      ∧ @http_NewRequest env (p_method header_pattern) (p_url header_pattern) reqbody = Some req0
      ∧ req_method req = req_method req0
      ∧ req_url req = req_url req0
      ∧ req_body req = req_body req0.
Proof.
  intros env req.
  apply (@Submit_request_headers env header_pattern "bob" "deploy now" ∅ req).
  vm_compute. reflexivity.
Defined.

(* ------------------------------------------------------------------ *)
(** ** Counting *)
(* ------------------------------------------------------------------ *)

Lemma existsb_first {A} (f : A → bool) (l : list A) :
  existsb f l = true →
  ∃ pre q post, l = pre ++ q :: post
                ∧ Forall (λ x, f x = false) pre ∧ f q = true.
Proof.
  induction l as [|x l IH]; [done|]. simpl.
  destruct (f x) eqn:Hx.
  - intros _. by exists [], x, l.
  - intros (pre & q & post & -> & Hpre & Hq)%IH.
    exists (x :: pre), q, post. split; [done|]. split; [by constructor|done].
Qed.

Lemma existsb_none {A} (f : A → bool) (l : list A) :
  existsb f l = false → Forall (λ x, f x = false) l.
Proof.
  induction l as [|x l IH]; [constructor|]. simpl.
  intros [Hx Hl]%orb_false_iff. constructor; [done|by apply IH].
Qed.

Section CountingFacts.
Context `{HttpEnv}.

(** What [HandleEvent] leaves of the counters. *)
Lemma HandleEvent_counted (prb : PatternRoutingBroker) (ev : Event) :
  Forall MetaPattern_wf (patterns prb) →
  ∃ eff,
    PRB_HandleEvent prb ev
    = Ret ({| patterns := patterns prb;
              msgsActn := if taken prb ev then incr64 (msgsActn prb)
                          else msgsActn prb;
              msgsRcvd := incr64 (msgsRcvd prb) |}, eff)
    ∧ length eff = if taken prb ev then 1 else 0.
Proof.
  intros Hwf. unfold taken. destruct (existsb _ _) eqn:Hex.
  - apply existsb_first in Hex as (pre & q & post & Hp & Hpre & Hq).
    assert (MetaPattern_wf q) as Hwfq.
    { rewrite Hp in Hwf. apply Forall_app in Hwf as [_ Hwf].
      by apply Forall_cons in Hwf as [? _]. }
    destruct (Handle_takes prb q ev Hwfq Hq) as (e & He & _).
    exists [e]. split; [|done]. by apply (HandleEvent_first prb pre q post).
  - exists []. split; [|done].
    by apply HandleEvent_unmatched, existsb_none.
Qed.

(** X5.  What [HandleEvent] has done when it is over.  It does not panic; the
    one thing it can wait for is room on the feedback channel, for the
    reply of the help handler.  It leaves the patterns as they were and
    counts the event as received.  When some pattern takes the event it
    counts it as actioned, once, and leaves one effect, that of the first
    pattern that takes it; when none does it leaves no effect and the
    actioned counter as it was. *)
Theorem HandleEvent_outcome (prb : PatternRoutingBroker) (ev : Event) :
  Forall MetaPattern_wf (patterns prb) →
  ∃ eff,
    PRB_HandleEvent prb ev
    = Ret ({| patterns := patterns prb;
              msgsActn := if taken prb ev then incr64 (msgsActn prb)
                          else msgsActn prb;
              msgsRcvd := incr64 (msgsRcvd prb) |}, eff)
    ∧ if taken prb ev
      then ∃ pre q post e,
             patterns prb = pre ++ q :: post
             ∧ Forall (λ x, recognizes x ev = false) pre
             ∧ recognizes q ev = true
             ∧ eff = [e] ∧ effect_of_pattern q ev e
      else eff = [].
Proof.
  intros Hwf. unfold taken. destruct (existsb _ _) eqn:Hex.
  - apply existsb_first in Hex as (pre & q & post & Hp & Hpre & Hq).
    assert (MetaPattern_wf q) as Hwfq.
    { rewrite Hp in Hwf. apply Forall_app in Hwf as [_ Hwf].
      by apply Forall_cons in Hwf as [? _]. }
    destruct (Handle_takes prb q ev Hwfq Hq) as (e & He & Heff).
    exists [e]. split; [by apply (HandleEvent_first prb pre q post)|].
    by exists pre, q, post, e.
  - exists []. split; [|done].
    by apply HandleEvent_unmatched, existsb_none.
Qed.

Lemma taken_patterns_only (prb1 prb2 : PatternRoutingBroker) (ev : Event) :
  patterns prb1 = patterns prb2 → taken prb1 ev = taken prb2 ev.
Proof. unfold taken. by intros ->. Qed.

Lemma HandleEvents_counts (prb : PatternRoutingBroker) (evs : list Event) :
  Forall MetaPattern_wf (patterns prb) →
  (0 ≤ msgsActn prb ≤ msgsRcvd prb)%Z →
  (msgsRcvd prb + Z.of_nat (length evs) ≤ MaxInt64)%Z →
  ∃ eff,
    PRB_HandleEvents prb evs
    = Ret ({| patterns := patterns prb;
              msgsActn := msgsActn prb
                + Z.of_nat (length (filter (λ ev, taken prb ev = true) evs));
              msgsRcvd := msgsRcvd prb + Z.of_nat (length evs) |}, eff)
    ∧ length eff = length (filter (λ ev, taken prb ev = true) evs).
Proof.
  revert prb. induction evs as [|ev evs IH]; intros prb Hwf Hcnt Hmax.
  - exists []. split; [|done]. simpl. rewrite !Z.add_0_r. by destruct prb.
  - simpl PRB_HandleEvents. rewrite length_cons in Hmax.
    destruct (HandleEvent_counted prb ev Hwf) as (eff & -> & Hlen).
    go_step. cbv iota beta.
    set (prb1 := {| patterns := patterns prb; msgsActn := _; msgsRcvd := _ |}).
    assert (msgsRcvd prb1 = msgsRcvd prb + 1)%Z as Hr.
    { simpl. apply incr64_succ. lia. }
    assert (msgsActn prb1
            = msgsActn prb + if taken prb ev then 1 else 0)%Z as Ha.
    { simpl. destruct (taken prb ev); [apply incr64_succ|]; lia. }
    destruct (IH prb1) as (eff' & -> & Hlen'); [done| |lia|].
    { rewrite Ha, Hr. destruct (taken prb ev); lia. }
    go_step. cbv iota beta. exists (eff ++ eff'). split.
    + do 2 f_equal. rewrite Ha, Hr. change (patterns prb1) with (patterns prb).
      rewrite filter_cons. rewrite length_cons.
      rewrite (list_filter_iff _ (λ ev, taken prb ev = true)) by done.
      f_equal; [|lia].
      destruct (taken prb ev) eqn:Ht.
      * rewrite decide_True by done. rewrite length_cons. lia.
      * rewrite decide_False by done. lia.
    + rewrite length_app, Hlen, Hlen', filter_cons.
      rewrite (list_filter_iff _ (λ ev, taken prb ev = true)) by done.
      destruct (taken prb ev) eqn:Ht.
      * by rewrite decide_True by done.
      * by rewrite decide_False by done.
Qed.

(** X6.  Between two heartbeats the broker counts what it is given: after a
    heartbeat and a run of events, the next heartbeat reports the number of
    events as received and the number of those that some pattern took as
    actioned, which is also the number of effects they left, and sets both
    counters to zero again. *)
Theorem Heartbeat_reports_counts (prb : PatternRoutingBroker) (evs : list Event) :
  Forall MetaPattern_wf (patterns prb) →
  (Z.of_nat (length evs) ≤ MaxInt64)%Z →
  ∃ prb' eff,
    PRB_HandleEvents (PRB_Heartbeat prb).1.1 evs = Ret (prb', eff)
    ∧ length eff = length (filter (λ ev, taken prb ev = true) evs)
    ∧ PRB_Heartbeat prb'
      = ({| patterns := patterns prb; msgsActn := 0; msgsRcvd := 0 |},
         (Z.of_nat (length evs),
          Z.of_nat (length (filter (λ ev, taken prb ev = true) evs))),
         true).
Proof.
  intros Hwf Hmax.
  destruct (HandleEvents_counts (PRB_Heartbeat prb).1.1 evs) as (eff & -> & Hlen);
    [done|simpl; lia|simpl; lia|].
  eexists _, eff. split; [done|]. split; [done|].
  unfold PRB_Heartbeat. simpl. done.
Qed.

End CountingFacts.

Lemma example_broker_wf : Forall MetaPattern_wf (patterns example_broker).
Proof. repeat constructor; apply literal_regexp_wf. Qed.

Lemma HandleEvent_outcome_witness :
  ∃ eff,
    @PRB_HandleEvent (fixed_endpoint None) example_broker (example_event "this list")
    = Ret ({| patterns := patterns example_broker;
              msgsActn := if taken example_broker (example_event "this list")
                          then incr64 (msgsActn example_broker)
                          else msgsActn example_broker;
              msgsRcvd := incr64 (msgsRcvd example_broker) |}, eff)
    ∧ if taken example_broker (example_event "this list")
      then ∃ pre q post e,
             patterns example_broker = pre ++ q :: post
             ∧ Forall (λ x, recognizes x (example_event "this list") = false) pre
             ∧ recognizes q (example_event "this list") = true
             ∧ eff = [e] ∧ effect_of_pattern q (example_event "this list") e
      else eff = [].
Proof.
  apply (@HandleEvent_outcome (fixed_endpoint None) example_broker
           (example_event "this list")).
  exact example_broker_wf.
Defined.

Lemma Heartbeat_reports_counts_witness :
  ∃ prb' eff,
    @PRB_HandleEvents (fixed_endpoint None) (PRB_Heartbeat example_broker).1.1
      example_events = Ret (prb', eff)
    ∧ length eff
      = length (filter (λ ev, taken example_broker ev = true) example_events)
    ∧ PRB_Heartbeat prb'
      = ({| patterns := patterns example_broker; msgsActn := 0; msgsRcvd := 0 |},
         (Z.of_nat (length example_events),
          Z.of_nat (length (filter (λ ev, taken example_broker ev = true)
                              example_events))),
         true).
Proof.
  apply (@Heartbeat_reports_counts (fixed_endpoint None) example_broker
           example_events).
  - exact example_broker_wf.
  - vm_compute. discriminate.
Defined.

Example Heartbeat_after_three_events :
  ∃ prb' eff,
    @PRB_HandleEvents (fixed_endpoint None) example_broker example_events
    = Ret (prb', eff)
    ∧ (PRB_Heartbeat prb').1.2 = (3, 2)%Z.
Proof. eexists _, _. split; reflexivity. Qed.

(* ------------------------------------------------------------------ *)
(** ** The help text *)
(* ------------------------------------------------------------------ *)

Lemma Join_snoc (l : list string) (h sep : string) :
  strings_Join (l ++ [h]) sep
  = match l with
    | [] => h
    | _ => strings_Join l sep +:+ sep +:+ h
    end.
Proof.
  induction l as [|a l IH]; [done|].
  destruct l as [|b l]; [done|].
  change ((a :: b :: l) ++ [h]) with (a :: ((b :: l) ++ [h])).
  change (strings_Join (a :: (b :: l) ++ [h]) sep)
    with (a +:+ sep +:+ strings_Join ((b :: l) ++ [h]) sep).
  rewrite IH.
  change (strings_Join (a :: b :: l) sep)
    with (a +:+ sep +:+ strings_Join (b :: l) sep).
  by rewrite !str_app_assoc.
Qed.

Lemma Join_nonempty (l : list string) (sep : string) :
  l ≠ [] → Forall (λ s, s ≠ EmptyString) l → strings_Join l sep ≠ EmptyString.
Proof.
  destruct l as [|a l]; [done|]. intros _ [Ha _]%Forall_cons.
  destruct a as [|c a]; [done|]. by destruct l.
Qed.

(** X7.  The help text of the broker has one line for every pattern with a help
    text, in the order the patterns were added.  The help handler that
    [Setup] adds has none, a pattern without help text adds no line, and a
    pattern with one adds it as the last line. *)
Theorem HelpText_AddPattern (prb : PatternRoutingBroker) :
  PRB_HelpText (PRB_Setup prb) = PRB_HelpText prb
  ∧ ∀ p,
      PRB_HelpText (AddPattern prb (RegexPattern p))
      = if String.eqb (p_help p) EmptyString then PRB_HelpText prb
        else if String.eqb (PRB_HelpText prb) EmptyString then p_help p
        else PRB_HelpText prb +:+ String "010" EmptyString +:+ p_help p.
Proof.
  unfold PRB_HelpText, PRB_Setup, AddPattern. simpl. split.
  - rewrite fmap_app, filter_app. simpl.
    rewrite filter_cons, decide_False by (by intros ?).
    by rewrite filter_nil, app_nil_r.
  - intros p. rewrite fmap_app, filter_app. simpl.
    unfold Pattern_HelpText. rewrite filter_cons, filter_nil.
    destruct (String.eqb_spec (p_help p) EmptyString) as [Hh|Hh].
    + rewrite decide_False by (by intros ?). by rewrite app_nil_r.
    + rewrite decide_True by done. rewrite Join_snoc.
      set (l := filter _ _).
      assert (Forall (λ s, s ≠ EmptyString) l) as Hall.
      { apply Forall_forall. intros x Hx.
        by apply list_elem_of_filter in Hx as [? _]. }
      clearbody l. destruct l as [|a l]; [done|].
      destruct (String.eqb_spec (strings_Join (a :: l) (String "010" EmptyString))
                  EmptyString) as [He|He]; [|done].
      exfalso. revert He. by apply Join_nonempty.
Qed.
(* intros x Hx.
      by apply list_elem_of_filter in Hx as [? _].
Qed.
*)

(* ------------------------------------------------------------------ *)
(** ** The help command *)
(* ------------------------------------------------------------------ *)

Section HelpCommand.
Context `{HttpEnv}.

(** X8.  A broker whose first pattern is the help handler, as [Setup] leaves it
    before any pattern is configured, answers every text that begins with
    the help command, whatever the configured patterns match: it sends one
    event, addressed as the request, whose text has the help texts of the
    configured patterns, one on a line, in their order, and counts the
    request as received and as actioned. *)
Theorem help_command_lists_patterns (prb : PatternRoutingBroker)
    (ps : list Pattern) (ev : Event) :
  patterns prb = HelperPattern_ :: (RegexPattern <$> ps) →
  strings_HasPrefix (Text ev) "..list" = true →
  PRB_HandleEvent prb ev
  = Ret ({| patterns := patterns prb;
            msgsActn := incr64 (msgsActn prb);
            msgsRcvd := incr64 (msgsRcvd prb) |},
         [Send {| IsCmdOutput := true;
                  Origin := None;
                  ReplyBroker := ReplyBroker ev;
                  ReplyTarget := ReplyTarget ev;
                  Actor := EmptyString;
                  Avatar := EmptyString;
                  Text := strings_Join
                            (filter (λ ht, ht ≠ EmptyString) (p_help <$> ps))
                            (String "010" EmptyString);
                  RawText := EmptyString;
                  ContentBlocks := [];
                  ts := time_Now |}]).
Proof.
  intros Hp Hcmd.
  apply (HandleEvent_first prb [] HelperPattern_ (RegexPattern <$> ps));
    [done|constructor|].
  simpl. unfold HelperPattern_Handle. rewrite Hcmd. do 4 f_equal.
  unfold PRB_HelpText. rewrite Hp, fmap_cons, filter_cons.
  rewrite decide_False by (by intros ?).
  by rewrite <- list_fmap_compose.
Qed.

End HelpCommand.

Lemma help_command_lists_patterns_witness :
  @PRB_HandleEvent (fixed_endpoint None) example_broker (example_event "..list all")
  = Ret ({| patterns := patterns example_broker;
            msgsActn := incr64 (msgsActn example_broker);
            msgsRcvd := incr64 (msgsRcvd example_broker) |},
         [Send {| IsCmdOutput := true;
                  Origin := None;
                  ReplyBroker := ReplyBroker (example_event "..list all");
                  ReplyTarget := ReplyTarget (example_event "..list all");
                  Actor := EmptyString;
                  Avatar := EmptyString;
                  Text := strings_Join
                            (filter (λ ht, ht ≠ EmptyString)
                               (p_help <$> [example_pattern "list";
                                            example_pattern "is"]))
                            (String "010" EmptyString);
                  RawText := EmptyString;
                  ContentBlocks := [];
                  ts := @time_Now (fixed_endpoint None) |}]).
Proof.
  apply (@help_command_lists_patterns (fixed_endpoint None) example_broker
           [example_pattern "list"; example_pattern "is"]
           (example_event "..list all")); reflexivity.
Defined.

(* ------------------------------------------------------------------ *)
(** ** [ChunkSplit] with a limit below one *)
(* ------------------------------------------------------------------ *)

Section ChunkSplitLimits.
Context `{GoRuntime}.

Lemma chunk_loop_zero_limit (fuel : nat) (result : list string) (cs : RuneSlice) :
  0 < rs_len cs → chunk_loop fuel result cs 0 = None.
Proof.
  revert result cs. induction fuel as [|fuel IH]; intros result cs Hlen.
  - simpl. by replace (rs_len cs <? 1) with false
      by (symmetry; apply Nat.ltb_ge; lia).
  - rewrite (chunk_loop_step fuel result cs
               {| rs_elems := rs_elems cs; rs_spare := rs_spare cs |} 0 []);
      [|done|by rewrite rs_slice_to_within by lia
       |by rewrite rs_slice_from_within by lia].
    replace (Z.of_nat _ <? 0)%Z with false by (symmetry; apply Z.ltb_ge; lia).
    by apply IH.
Qed.

Lemma collect_runes_nonempty (body : string) :
  body ≠ EmptyString → 0 < rs_len (collect_runes body).
Proof.
  intros Hbody. rewrite collect_runes_len.
  unfold utf8_RuneCountInString, runes_of_string.
  destruct body as [|c body]; [done|]. cbn [runes_from].
  destruct (utf8_DecodeRuneInString (String c body)). simpl. lia.
Qed.

(** X9.  With a limit of zero and a body that is not empty the loop of
    [ChunkSplit] never ends: every turn cuts an empty chunk and leaves the
    runes as they were, so no number of turns gives a result. *)
Theorem ChunkSplit_zero_limit_never_returns (body : string) :
  body ≠ EmptyString →
  ChunkSplit body 0 = None
  ∧ ∀ fuel result, chunk_loop fuel result (collect_runes body) 0 = None.
Proof.
  intros Hbody.
  pose proof (collect_runes_nonempty body Hbody) as Hlen.
  split; [by apply chunk_loop_zero_limit|].
  intros fuel result. by apply chunk_loop_zero_limit.
Qed.

(** X10.  With a negative limit and a body that is not empty [ChunkSplit] panics
    at the first chunk it cuts. *)
Theorem ChunkSplit_negative_limit_panics (body : string) (limit : Z) :
  body ≠ EmptyString → (limit < 0)%Z →
  ∃ why, ChunkSplit body limit = Some (Panics why).
Proof.
  intros Hbody Hlimit.
  pose proof (collect_runes_nonempty body Hbody) as Hlen.
  unfold ChunkSplit. simpl.
  replace (rs_len (collect_runes body) <? 1) with false
    by (symmetry; apply Nat.ltb_ge; lia).
  unfold rs_slice_to.
  replace (0 <=? limit)%Z with false by (symmetry; apply Z.leb_gt; lia).
  simpl. eauto.
Qed.

End ChunkSplitLimits.

Lemma ChunkSplit_zero_limit_never_returns_witness :
  @ChunkSplit doubling_runtime "abc" 0 = None
  ∧ ∀ fuel result,
      chunk_loop fuel result
        (@collect_runes doubling_runtime "abc") 0 = None.
Proof.
  apply (@ChunkSplit_zero_limit_never_returns doubling_runtime "abc").
  discriminate.
Defined.

Lemma ChunkSplit_negative_limit_panics_witness :
  ∃ why, @ChunkSplit doubling_runtime "abc" (-1) = Some (Panics why).
Proof.
  apply (@ChunkSplit_negative_limit_panics doubling_runtime "abc" (-1)).
  - discriminate.
  - reflexivity.
Defined.

(* ------------------------------------------------------------------ *)
(** ** The user cache: lookups that miss, invariants *)
(* ------------------------------------------------------------------ *)

Section CacheMore.
Context `{Unicode} `{SlackAPI}.

(** X11.  A lookup by id that misses the cache asks the directory, and files
    what it learns: the same lookup is then answered from the cache, and so
    is the lookup of the id by the name the directory gave. *)
Theorem UserNick_remote_lookup_is_cached
    (suc : SlackUserCache) (ukey name image : string) :
  users suc !! ukey = None →
  GetUserInfo ukey = Some (name, image) →
  let suc' := CacheUser suc {| Id := ukey; Nick := name; su_Avatar := image |} in
  UserNick suc ukey false = (suc', name)
  ∧ UserNick suc' ukey true = (suc', name)
  ∧ UserId suc' name true = (suc', ukey).
Proof.
  intros Hmiss Hinfo suc'. split; [|split].
  - unfold UserNick, userInIdCache, UserFromAPI. by rewrite Hmiss, Hinfo.
  - apply (UserNick_cached suc' ukey {| Id := ukey; Nick := name;
                                        su_Avatar := image |}).
    apply (CacheUser_users suc {| Id := ukey; Nick := name; su_Avatar := image |}).
  - apply (UserId_cached suc' name {| Id := ukey; Nick := name;
                                      su_Avatar := image |}).
    by apply (CacheUser_nicks suc {| Id := ukey; Nick := name; su_Avatar := image |}).
Qed.

(** X12.  A lookup by nick that misses the cache asks the directory for the nick
    as if it were an id.  Its answer is never an id the directory gave: it
    is the empty string, or the nick itself, and then the cache has filed a
    user with the nick for id. *)
Theorem UserId_uncached_answers_with_key (suc : SlackUserCache) (nick : string)
    (cacheOnly : bool) :
  nicks suc !! strings_ToLower nick = None →
  let '(suc', uid) := UserId suc nick cacheOnly in
  (uid = EmptyString ∧ suc' = suc)
  ∨ (uid = nick ∧ cacheOnly = false
     ∧ ∃ user, GetUserInfo nick = Some (Nick user, su_Avatar user)
               ∧ Id user = nick
               ∧ suc' = CacheUser suc user).
Proof.
  intros Hmiss. unfold UserId, userInNickCache, UserFromAPI. rewrite Hmiss.
  destruct cacheOnly; [by left|].
  destruct (GetUserInfo nick) as [[name image]|] eqn:Hinfo; [|by left].
  right. split; [done|]. split; [done|].
  by exists {| Id := nick; Nick := name; su_Avatar := image |}.
Qed.

Lemma CacheUser_wf (suc : SlackUserCache) (user : SlackUser) :
  cache_wf suc → cache_wf (CacheUser suc user).
Proof.
  intros [Hu Hn]. split; intros k u; simpl.
  - destruct (decide (k = Id user)) as [->|Hne].
    + rewrite lookup_insert_eq. by intros [= <-].
    + rewrite lookup_insert_ne by done. apply Hu.
  - destruct (decide (k = strings_ToLower (Nick user))) as [->|Hne].
    + rewrite lookup_insert_eq. by intros [= <-].
    + rewrite lookup_insert_ne by done. apply Hn.
Qed.

Lemma CacheUser_keeps (suc : SlackUserCache) (user : SlackUser) :
  cache_keeps suc (CacheUser suc user).
Proof. split; simpl; rewrite dom_insert; set_solver. Qed.

Lemma cache_keeps_refl (suc : SlackUserCache) : cache_keeps suc suc.
Proof. by split. Qed.

Lemma cache_keeps_trans (s1 s2 s3 : SlackUserCache) :
  cache_keeps s1 s2 → cache_keeps s2 s3 → cache_keeps s1 s3.
Proof. intros [? ?] [? ?]. split; set_solver. Qed.

Lemma UserFromAPI_inv (suc : SlackUserCache) (ukey : string) :
  (UserFromAPI suc ukey).1 = suc
  ∨ ∃ user, (UserFromAPI suc ukey).1 = CacheUser suc user.
Proof.
  unfold UserFromAPI. destruct (GetUserInfo ukey) as [[name image]|]; simpl; eauto.
Qed.

Lemma UserNick_inv (suc : SlackUserCache) (ukey : string) (cacheOnly : bool) :
  (UserNick suc ukey cacheOnly).1 = suc
  ∨ ∃ user, (UserNick suc ukey cacheOnly).1 = CacheUser suc user.
Proof.
  unfold UserNick. destruct (userInIdCache suc ukey); [by left|].
  destruct cacheOnly; [by left|]. unfold UserFromAPI.
  destruct (GetUserInfo ukey) as [[name image]|]; simpl; eauto.
Qed.

Lemma UserId_inv (suc : SlackUserCache) (nick : string) (cacheOnly : bool) :
  (UserId suc nick cacheOnly).1 = suc
  ∨ ∃ user, (UserId suc nick cacheOnly).1 = CacheUser suc user.
Proof.
  unfold UserId. destruct (userInNickCache suc nick); [by left|].
  destruct cacheOnly; [by left|]. unfold UserFromAPI.
  destruct (GetUserInfo nick) as [[name image]|]; simpl; eauto.
Qed.

Lemma PopulateCache_snoc (suc : SlackUserCache) (mems : list string) (uid : string) :
  PopulateCache suc (mems ++ [uid])
  = (UserFromAPI (PopulateCache suc mems) uid).1.
Proof. unfold PopulateCache. by rewrite foldl_app. Qed.

(** X13.  The cache is kept in order by everything that writes to it.  A fresh
    cache files every user under its own id and its own nick in lower case,
    and [CacheUser], [UserFromAPI], [UserNick], [UserId] and
    [PopulateCache] keep it so; none of them removes a key. *)
Theorem cache_kept_in_order :
  cache_wf SlackUserCache_Setup
  ∧ ∀ suc,
      (cache_wf suc → ∀ user, cache_wf (CacheUser suc user))
      ∧ (∀ user, cache_keeps suc (CacheUser suc user))
      ∧ (∀ ukey, (cache_wf suc → cache_wf (UserFromAPI suc ukey).1)
                 ∧ cache_keeps suc (UserFromAPI suc ukey).1)
      ∧ (∀ ukey cacheOnly,
           (cache_wf suc → cache_wf (UserNick suc ukey cacheOnly).1)
           ∧ cache_keeps suc (UserNick suc ukey cacheOnly).1)
      ∧ (∀ nick cacheOnly,
           (cache_wf suc → cache_wf (UserId suc nick cacheOnly).1)
           ∧ cache_keeps suc (UserId suc nick cacheOnly).1)
      ∧ (∀ mems, (cache_wf suc → cache_wf (PopulateCache suc mems))
                 ∧ cache_keeps suc (PopulateCache suc mems)).
Proof.
  split; [by split; intros k u; simpl; rewrite lookup_empty|].
  intros suc.
  split; [intros; by apply CacheUser_wf|].
  split; [apply CacheUser_keeps|].
  assert (∀ s ukey, (cache_wf s → cache_wf (UserFromAPI s ukey).1)
                    ∧ cache_keeps s (UserFromAPI s ukey).1) as Hapi.
  { intros s ukey. destruct (UserFromAPI_inv s ukey) as [->|[user ->]].
    - split; [done|apply cache_keeps_refl].
    - split; [by apply CacheUser_wf|apply CacheUser_keeps]. }
  split; [apply Hapi|]. split; [|split].
  - intros ukey cacheOnly.
    destruct (UserNick_inv suc ukey cacheOnly) as [->|[user ->]].
    + split; [done|apply cache_keeps_refl].
    + split; [by apply CacheUser_wf|apply CacheUser_keeps].
  - intros nick cacheOnly.
    destruct (UserId_inv suc nick cacheOnly) as [->|[user ->]].
    + split; [done|apply cache_keeps_refl].
    + split; [by apply CacheUser_wf|apply CacheUser_keeps].
  - intros mems. induction mems as [|uid mems IH] using rev_ind.
    + split; [done|apply cache_keeps_refl].
    + rewrite PopulateCache_snoc. destruct IH as [IH1 IH2].
      destruct (Hapi (PopulateCache suc mems) uid) as [H1 H2].
      split; [by intros ?; apply H1, IH1|by eapply cache_keeps_trans].
Qed.

(** What [PopulateCache] leaves in the index of ids. *)
Lemma PopulateCache_lookup (suc : SlackUserCache) (mems : list string)
    (uid : string) :
  (uid ∈ mems →
   ∀ name image, GetUserInfo uid = Some (name, image) →
     users (PopulateCache suc mems) !! uid
     = Some {| Id := uid; Nick := name; su_Avatar := image |})
  ∧ (uid ∉ mems ∨ GetUserInfo uid = None →
     users (PopulateCache suc mems) !! uid = users suc !! uid).
Proof.
  induction mems as [|x mems [IH1 IH2]] using rev_ind.
  { split; [by intros ?%elem_of_nil|done]. }
  rewrite PopulateCache_snoc. unfold UserFromAPI at 1 2. split.
  - intros Hin name image Hinfo.
    destruct (decide (uid = x)) as [<-|Hne].
    + rewrite Hinfo. simpl. by rewrite lookup_insert_eq.
    + apply elem_of_app in Hin as [Hin|Hin%list_elem_of_singleton]; [|done].
      pose proof (IH1 Hin name image Hinfo) as Hu.
      destruct (GetUserInfo x) as [[name' image']|]; simpl; [|done].
      by rewrite lookup_insert_ne.
  - intros Hout.
    destruct (GetUserInfo x) as [[name' image']|] eqn:Hx; simpl.
    + rewrite lookup_insert_ne.
      * apply IH2. destruct Hout as [Hout|Hout]; [|by right].
        left. intros Hin. apply Hout, elem_of_app. by left.
      * intros <-. destruct Hout as [Hout|Hout]; [|congruence].
        apply Hout, elem_of_app. right. by apply list_elem_of_singleton.
    + apply IH2. destruct Hout as [Hout|Hout]; [|by right].
      left. intros Hin. apply Hout, elem_of_app. by left.
Qed.

(** X14.  [PopulateCache] files every member the directory knows under its id,
    with the name and the avatar the directory gave, and goes on past the
    members it does not know; the name of every member it filed is a key
    of the name index afterwards and resolves to the id filed there, and
    the records of everyone else stay as they were. *)
Theorem PopulateCache_members (suc : SlackUserCache) (mems : list string)
    (uid : string) :
  (uid ∈ mems →
   ∀ name image, GetUserInfo uid = Some (name, image) →
     users (PopulateCache suc mems) !! uid
     = Some {| Id := uid; Nick := name; su_Avatar := image |}
     ∧ UserNick (PopulateCache suc mems) uid true
       = (PopulateCache suc mems, name)
     ∧ ∃ user, nicks (PopulateCache suc mems) !! strings_ToLower name = Some user
               ∧ UserId (PopulateCache suc mems) name true
                 = (PopulateCache suc mems, Id user))
  ∧ (uid ∉ mems ∨ GetUserInfo uid = None →
     users (PopulateCache suc mems) !! uid = users suc !! uid).
Proof.
  destruct (PopulateCache_lookup suc mems uid) as [Hin Hout].
  split; [|exact Hout].
  intros Hmem name image Hinfo. pose proof (Hin Hmem name image Hinfo) as Hu.
  split; [done|]. split.
  { by rewrite (UserNick_cached _ uid {| Id := uid; Nick := name;
                                         su_Avatar := image |}). }
  assert (is_Some (nicks (PopulateCache suc mems) !! strings_ToLower name))
    as [user Huser].
  { clear Hu Hin Hout. induction mems as [|x mems IH] using rev_ind.
    { by apply elem_of_nil in Hmem. }
    rewrite PopulateCache_snoc. unfold UserFromAPI.
    destruct (decide (uid = x)) as [<-|Hne].
    - rewrite Hinfo. simpl. rewrite lookup_insert_eq. eauto.
    - apply elem_of_app in Hmem as [Hmem|Hmem%list_elem_of_singleton]; [|done].
      destruct (GetUserInfo x) as [[name' image']|]; simpl; [|by apply IH].
      destruct (decide (strings_ToLower name' = strings_ToLower name)) as [->|?].
      + rewrite lookup_insert_eq. eauto.
      + rewrite lookup_insert_ne by done. by apply IH. }
  exists user. split; [done|]. by apply UserId_cached.
Qed.

End CacheMore.

Lemma UserNick_remote_lookup_is_cached_witness :
  let suc' := @CacheUser ascii_case_tables SlackUserCache_Setup bob in
  @UserNick ascii_case_tables directory_with_bob SlackUserCache_Setup "U12345" false
  = (suc', "bob")
  ∧ @UserNick ascii_case_tables directory_with_bob suc' "U12345" true = (suc', "bob")
  ∧ @UserId ascii_case_tables directory_with_bob suc' "bob" true = (suc', "U12345").
Proof.
  apply (@UserNick_remote_lookup_is_cached ascii_case_tables directory_with_bob
           SlackUserCache_Setup "U12345" "bob" EmptyString).
  - reflexivity.
  - reflexivity.
Defined.

Lemma UserId_uncached_answers_with_key_witness :
  let '(suc', uid) :=
    @UserId ascii_case_tables directory_with_bob SlackUserCache_Setup "U12345" false in
  (uid = EmptyString ∧ suc' = SlackUserCache_Setup)
  ∨ (uid = "U12345" ∧ false = false
     ∧ ∃ user, @GetUserInfo directory_with_bob "U12345"
               = Some (Nick user, su_Avatar user)
               ∧ Id user = "U12345"
               ∧ suc' = @CacheUser ascii_case_tables SlackUserCache_Setup user).
Proof.
  apply (@UserId_uncached_answers_with_key ascii_case_tables directory_with_bob
           SlackUserCache_Setup "U12345" false).
  reflexivity.
Defined.

(* ------------------------------------------------------------------ *)
(** ** Where the matches lie *)
(* ------------------------------------------------------------------ *)

Lemma str_drop_length (n : nat) (s : string) :
  String.length (str_drop n s) = String.length s - n.
Proof.
  revert n. induction s as [|c s IH]; intros [|n]; simpl; done.
Qed.

Lemma HasPrefix_length (s prefix : string) :
  strings_HasPrefix s prefix = true → String.length prefix ≤ String.length s.
Proof. intros [rest ->]%HasPrefix_app. rewrite str_length_app. lia. Qed.

Lemma str_take_length (n : nat) (s : string) :
  String.length (str_take n s) = n `min` String.length s.
Proof.
  revert n. induction s as [|c s IH]; intros [|n]; simpl; try done.
  by rewrite IH.
Qed.

Lemma match_uids_within : match_within match_uids.
Proof.
  intros s len gs ge. unfold match_uids.
  destruct (strings_HasPrefix s "<@U") eqn:Hp; [|done].
  destruct (_ && _) eqn:Hk; [|done]. intros [= <- <- <-].
  apply andb_true_iff in Hk as [_ Hgt%HasPrefix_length].
  rewrite str_drop_length in Hgt. simpl in Hgt. lia.
Qed.

Lemma match_usernick_within : match_within match_usernick.
Proof.
  intros s len gs ge. unfold match_usernick.
  destruct (_ && _) eqn:Hk; [|done]. intros [= <- <- <-].
  apply andb_true_iff in Hk as [_ Hgt%HasPrefix_length].
  rewrite str_drop_length in Hgt. simpl in Hgt. lia.
Qed.

Lemma match_atusers_within : match_within match_atusers.
Proof.
  intros s len gs ge. unfold match_atusers.
  destruct (strings_HasPrefix s "@") eqn:Hp; [|done].
  destruct (1 <=? _) eqn:Hk; [|done]. intros [= <- <- <-].
  apply HasPrefix_length in Hp.
  pose proof (span_le_length is_word_byte (str_drop 1 s)) as Hspan.
  rewrite str_drop_length in Hspan. apply Nat.leb_le in Hk. simpl in Hp.
  change (match s with EmptyString => s | String _ s' => s' end)
    with (str_drop 1 s). lia.
Qed.

Lemma last_index_lt (c : ascii) (s : string) (i : nat) :
  last_index c s = Some i → i < String.length s.
Proof.
  revert i. induction s as [|d s IH]; intros i; [done|]. simpl.
  destruct (last_index c s) as [j|].
  - intros [= <-]. specialize (IH j eq_refl). lia.
  - destruct (Ascii.eqb c d); [|done]. intros [= <-]. lia.
Qed.

Lemma match_embeddedurls_within : match_within match_embeddedurls.
Proof.
  intros s len gs ge. unfold match_embeddedurls.
  destruct (strings_HasPrefix s "<http") eqn:Hp; [|done].
  destruct (last_index _ _) as [[|j]|] eqn:Hj; [done| |done].
  intros [= <- <- <-]. apply last_index_lt in Hj.
  rewrite str_take_length, str_drop_length in Hj.
  apply HasPrefix_length in Hp. simpl in Hp. lia.
Qed.

(** The matches found in a text lie within it. *)
Lemma find_all_from_within m (pos skip : nat) (s : string) :
  match_within m →
  Forall (λ x, m0 x ≤ m2 x ∧ m2 x ≤ m3 x ∧ m3 x ≤ m1 x
               ∧ m1 x ≤ pos + String.length s)
         (find_all_from m pos skip s).
Proof.
  intros Hm. revert pos skip. induction s as [|c s IH]; intros pos skip.
  { constructor. }
  assert (∀ k, Forall (λ x, m0 x ≤ m2 x ∧ m2 x ≤ m3 x ∧ m3 x ≤ m1 x
                            ∧ m1 x ≤ pos + String.length (String c s))
                 (find_all_from m (S pos) k s)) as Hrest.
  { intros k. eapply Forall_impl; [apply IH|].
    intros x. simpl. lia. }
  simpl find_all_from. destruct skip as [|k]; [|apply Hrest].
  destruct (m (String c s)) as [[[len gs] ge]|] eqn:Hmatch; [|apply Hrest].
  constructor; [|apply Hrest].
  apply Hm in Hmatch. simpl in *. lia.
Qed.

Lemma find_all_within m (s : string) :
  match_within m →
  Forall (λ x, m0 x ≤ m2 x ∧ m2 x ≤ m3 x ∧ m3 x ≤ m1 x ∧ m1 x ≤ String.length s)
         (find_all m s).
Proof. intros Hm. apply (find_all_from_within m 0 0 s Hm). Qed.

Lemma str_slice_returns (s : string) (lo hi : nat) :
  lo ≤ hi → hi ≤ String.length s →
  str_slice s lo hi = Ret (str_take (hi - lo) (str_drop lo s)).
Proof.
  intros Hlo Hhi. unfold str_slice.
  by replace ((lo <=? hi) && (hi <=? String.length s)) with true
    by (symmetry; apply andb_true_iff; split; apply Nat.leb_le; lia).
Qed.

Lemma str_slice_panics (s : string) (lo hi : nat) :
  String.length s < hi →
  str_slice s lo hi = Panics "slice bounds out of range".
Proof.
  intros Hhi. unfold str_slice.
  replace (hi <=? String.length s) with false
    by (symmetry; apply Nat.leb_gt; lia).
  by rewrite andb_false_r.
Qed.

Section RefsTotal.
Context `{Unicode} `{SlackAPI} `{MapOrder}.

Lemma collect_uids_returns (s : string) (cacheOnly : bool)
    (rev_matches : list Match) (suc : SlackUserCache) (uids : gmap string string) :
  Forall (λ x, m2 x ≤ m3 x ∧ m3 x ≤ String.length s) rev_matches →
  ∃ suc' uids', collect_uids s cacheOnly rev_matches suc uids = Ret (suc', uids').
Proof.
  intros Hall. revert suc uids.
  induction Hall as [|x rest [Hlo Hhi] _ IH]; intros suc uids; simpl; [eauto|].
  rewrite str_slice_returns by done. go_step.
  destruct (if strings_Contains _ _ then _ else _) as [suc1 nick]. apply IH.
Qed.

(** X15.  The inbound translation returns for every text: no slice it takes is
    out of bounds, since the text it slices is the one the references were
    found in.  A text without an opening angle bracket comes back as it
    is, and the cache with it. *)
Theorem ConvertRefsToUsers_returns (suc : SlackUserCache) (s : string)
    (cacheOnly : bool) :
  (∃ suc' s', ConvertRefsToUsers suc s cacheOnly = Ret (suc', s'))
  ∧ (str_mem "<" s = false → ConvertRefsToUsers suc s cacheOnly = Ret (suc, s)).
Proof.
  split; [|apply ConvertRefsToUsers_no_ref].
  unfold ConvertRefsToUsers.
  destruct (collect_uids_returns s cacheOnly (reverse (find_all match_uids s))
              suc ∅) as (suc' & uids & ->).
  - apply Forall_reverse.
    eapply Forall_impl; [apply find_all_within, match_uids_within|].
    intros x. simpl. lia.
  - go_step. eauto.
Qed.

End RefsTotal.

(* ------------------------------------------------------------------ *)
(** ** Texts with several matches *)
(* ------------------------------------------------------------------ *)

Lemma find_all_from_match m (pos : nat) (mid rest : string) (gs ge : nat) :
  mid ≠ EmptyString →
  m (mid +:+ rest) = Some (String.length mid, gs, ge) →
  find_all_from m pos 0 (mid +:+ rest)
  = {| m0 := pos; m1 := pos + String.length mid; m2 := pos + gs; m3 := pos + ge |}
    :: find_all_from m (pos + String.length mid) 0 rest.
Proof.
  intros Hmid Hm. destruct mid as [|d mid]; [done|].
  rewrite str_app_cons in Hm |- *. unfold find_all_from; fold find_all_from.
  rewrite Hm. f_equal. simpl String.length. rewrite Nat.sub_succ, Nat.sub_0_r.
  rewrite find_all_from_skip. f_equal. lia.
Qed.

Lemma replace_from_match (old new rest : string) :
  old ≠ EmptyString →
  replace_from old new 0 (old +:+ rest) = new +:+ replace_from old new 0 rest.
Proof.
  destruct old as [|c p]; [done|]. intros _.
  rewrite str_app_cons. unfold replace_from; fold replace_from.
  rewrite <- str_app_cons, HasPrefix_self_app. f_equal.
  simpl String.length. rewrite Nat.sub_succ, Nat.sub_0_r.
  apply replace_from_skip.
Qed.

(** Replacing the two occurrences of [old] in a text. *)
Lemma ReplaceAll_twice (old new : string) (c : ascii) (p : string)
    (pre mid post : string) :
  old = String c p →
  str_mem c pre = false → str_mem c mid = false → str_mem c post = false →
  strings_ReplaceAll (pre +:+ old +:+ mid +:+ old +:+ post) old new
  = pre +:+ new +:+ mid +:+ new +:+ post.
Proof.
  intros Hold Hpre Hmid Hpost. unfold strings_ReplaceAll.
  assert (old ≠ EmptyString) as Hne by by subst old.
  rewrite (replace_from_no_head old new c p) by done.
  rewrite replace_from_match by done.
  rewrite (replace_from_no_head old new c p) by done.
  rewrite replace_from_match by done.
  rewrite (replace_from_none old new c p) by done.
  by subst old.
Qed.

(** *** Splitting at a byte *)

Lemma split_from_head (c : ascii) (cur a rest : string) :
  str_mem c a = false →
  split_from (String c EmptyString) 0 cur (a +:+ String c rest)
  = (cur +:+ a) :: split_from (String c EmptyString) 0 EmptyString rest.
Proof.
  revert cur. induction a as [|d a IH]; intros cur.
  - intros _. rewrite str_app_nil_r. simpl.
    by rewrite HasPrefix_cons, Ascii.eqb_refl, HasPrefix_nil.
  - rewrite str_mem_cons. intros [Hd Ha]%orb_false_iff.
    rewrite str_app_cons. simpl. rewrite HasPrefix_cons, Hd. simpl.
    rewrite IH by done. by rewrite str_app_assoc.
Qed.

Lemma split_from_none (c : ascii) (cur s : string) :
  str_mem c s = false →
  split_from (String c EmptyString) 0 cur s = [cur +:+ s].
Proof.
  revert cur. induction s as [|d s IH]; intros cur.
  - intros _. by rewrite str_app_nil_r.
  - rewrite str_mem_cons. intros [Hd Hs]%orb_false_iff.
    simpl. rewrite HasPrefix_cons, Hd. simpl.
    rewrite IH by done. by rewrite str_app_assoc.
Qed.

(* ------------------------------------------------------------------ *)
(** ** One reference in a text *)
(* ------------------------------------------------------------------ *)

Lemma match_uids_ref_uid (w post : string) :
  w ≠ EmptyString → str_forallb is_uid_byte w = true →
  match_uids (("<@U" +:+ w +:+ ">") +:+ post)
  = Some (String.length ("<@U" +:+ w +:+ ">"), 2, 3 + String.length w).
Proof.
  intros Hw Hword. unfold match_uids.
  rewrite !str_app_assoc, HasPrefix_self_app.
  change (str_drop 3 ("<@U" +:+ w +:+ ">" +:+ post)) with (w +:+ String ">" post).
  rewrite span_app_stop; [|done|done].
  replace (1 <=? String.length w) with true
    by (symmetry; apply Nat.leb_le; destruct w; [done|simpl; lia]).
  change ("<@U" +:+ w +:+ ">" +:+ post) with ("<@U" +:+ (w +:+ (">" +:+ post))).
  change 3 with (String.length "<@U") at 1.
  rewrite <- str_app_assoc, <- str_length_app, str_drop_app_length.
  rewrite HasPrefix_self_app. simpl andb.
  rewrite !str_length_app. simpl. do 3 f_equal; lia.
Qed.

Section OneReference.
Context `{Unicode} `{SlackAPI} `{MapOrder}.

(** A text with one reference: the reference gives way to the nick the
    lookup of its id gives, the id being what stands before the first bar
    when there is one. *)
Lemma ConvertRefsToUsers_one (suc suc' : SlackUserCache) (w pre post nick : string)
    (cacheOnly : bool) :
  w ≠ EmptyString → str_forallb is_uid_byte w = true →
  str_mem "<" pre = false → str_mem "<" post = false →
  (if strings_Contains ("U" +:+ w) "|" then
     match strings_Split ("U" +:+ w) "|" with
     | part0 :: _ => UserNick suc part0 cacheOnly
     | [] => (suc, EmptyString)
     end
   else UserNick suc ("U" +:+ w) cacheOnly) = (suc', nick) →
  ConvertRefsToUsers suc (pre +:+ ("<@U" +:+ w +:+ ">") +:+ post) cacheOnly
  = Ret (suc', pre +:+ nick +:+ post).
Proof.
  intros Hw Hword Hpre Hpost Hnick. unfold ConvertRefsToUsers.
  rewrite (find_all_single match_uids "<" pre _ post 2 (3 + String.length w));
    [|apply match_uids_begins|done|done|by apply match_uids_ref_uid].
  change (reverse [?m]) with [m]. unfold collect_uids. cbn [m2 m3].
  rewrite (str_slice_at _ (pre +:+ "<@") ("U" +:+ w) (">" +:+ post));
    [|by rewrite !str_app_assoc
     |rewrite str_length_app; simpl; lia
     |rewrite !str_length_app; simpl; lia].
  go_step. rewrite Hnick. cbv iota beta.
  rewrite lookup_empty. go_step.
  rewrite insert_empty, range_order_singleton.
  change (foldl ?f ?a [?x]) with (f a x). cbv beta. cbn [fst snd]. do 2 f_equal.
  by apply (ReplaceAll_single _ _ "<" ("@U" +:+ w +:+ ">")).
Qed.

Lemma word_is_uid (w : string) :
  str_forallb is_word_byte w = true → str_forallb is_uid_byte w = true.
Proof.
  apply str_forallb_impl. intros c Hc. unfold is_uid_byte. by rewrite Hc.
Qed.

Lemma word_has_no_bar (w : string) :
  str_forallb is_word_byte w = true → str_mem "|" w = false.
Proof. intros Hw. by apply (str_forallb_not_mem is_word_byte). Qed.

(** X16.  A reference to someone the lookup does not find is taken out of the
    text: nothing stands in its place. *)
Theorem ConvertRefsToUsers_unknown_user_dropped
    (suc : SlackUserCache) (w pre post : string) (cacheOnly : bool) :
  w ≠ EmptyString → str_forallb is_word_byte w = true →
  str_mem "<" pre = false → str_mem "<" post = false →
  users suc !! ("U" +:+ w) = None →
  cacheOnly = true ∨ GetUserInfo ("U" +:+ w) = None →
  ConvertRefsToUsers suc (pre +:+ ("<@U" +:+ w +:+ ">") +:+ post) cacheOnly
  = Ret (suc, pre +:+ post).
Proof.
  intros Hw Hword Hpre Hpost Hmiss Hno.
  rewrite (ConvertRefsToUsers_one suc suc w pre post EmptyString);
    [done|done|by apply word_is_uid|done|done|].
  assert (strings_Contains ("U" +:+ w) "|" = false) as ->.
  { rewrite Contains_byte. change ("U" +:+ w) with (String "U" w).
    rewrite str_mem_cons. simpl orb. by apply word_has_no_bar. }
  unfold UserNick, userInIdCache, UserFromAPI. rewrite Hmiss.
  destruct Hno as [->| ->]; [done|]. by destruct cacheOnly.
Qed.


End OneReference.

Lemma ConvertRefsToUsers_unknown_user_dropped_witness :
  @ConvertRefsToUsers ascii_case_tables no_directory canonical_order
    SlackUserCache_Setup ("hi " +:+ ("<@U" +:+ "999" +:+ ">") +:+ " there") false
  = Ret (SlackUserCache_Setup, "hi " +:+ " there").
Proof.
  apply (@ConvertRefsToUsers_unknown_user_dropped ascii_case_tables no_directory
           canonical_order SlackUserCache_Setup "999" "hi " " there" false);
    try reflexivity; [discriminate|by right].
Defined.


(* ------------------------------------------------------------------ *)
(** ** Outbound translation of at-names *)
(* ------------------------------------------------------------------ *)

(** An at-name whose word ends where the following text begins. *)
Lemma match_atusers_name (w post : string) :
  w ≠ EmptyString → str_forallb is_word_byte w = true →
  span is_word_byte post = 0 →
  match_atusers (("@" +:+ w) +:+ post)
  = Some (String.length ("@" +:+ w), 1, 1 + String.length w).
Proof.
  intros Hw Hword Hpost. unfold match_atusers.
  rewrite str_app_assoc, HasPrefix_self_app.
  change (str_drop 1 ("@" +:+ w +:+ post)) with (w +:+ post).
  rewrite span_app_all, Hpost, Nat.add_0_r by done.
  replace (1 <=? String.length w) with true
    by (symmetry; apply Nat.leb_le; destruct w; [done|simpl; lia]).
  done.
Qed.

Lemma match_usernick_at (s : string) : match_usernick (String "@" s) = None.
Proof. reflexivity. Qed.

Section AtNames.
Context `{Unicode} `{SlackAPI}.

(** X18.  The outbound translation of a text with one at-name of a cached user:
    the name gives way to a reference to the id of the user. *)
Theorem ConvertUsersToRefs_at_name
    (suc : SlackUserCache) (user : SlackUser) (w pre post : string)
    (cacheOnly : bool) :
  w ≠ EmptyString → str_forallb is_word_byte w = true →
  span is_word_byte post = 0 →
  str_mem "@" pre = false → str_mem "@" post = false →
  match_usernick (pre +:+ ("@" +:+ w) +:+ post) = None →
  nicks suc !! strings_ToLower w = Some user →
  1 < String.length (Id user) →
  ConvertUsersToRefs suc (pre +:+ ("@" +:+ w) +:+ post) cacheOnly
  = Ret (suc, pre +:+ ("<@" +:+ Id user +:+ ">") +:+ post).
Proof.
  intros Hw Hword Hend Hpre Hpost Hlead Hcached Hlen.
  unfold ConvertUsersToRefs, find_all_anchored. rewrite Hlead.
  change (reverse []) with (@nil Match). unfold usernick_loop. go_step.
  rewrite (find_all_single match_atusers "@" pre _ post 1 (1 + String.length w));
    [|apply match_atusers_begins|done|done|by apply match_atusers_name].
  change (reverse [?m]) with [m]. unfold atusers_loop. cbn [m2 m3].
  rewrite (str_slice_at _ (pre +:+ "@") w post);
    [|by rewrite !str_app_assoc
     |rewrite str_length_app; simpl; lia
     |rewrite !str_length_app; simpl; lia].
  go_step. rewrite (UserId_cached suc w user) by done. cbv iota beta.
  replace (1 <? String.length (Id user)) with true
    by (symmetry; apply Nat.ltb_lt; lia).
  do 2 f_equal.
  by apply (ReplaceAll_single _ _ "@" w).
Qed.

(** X20.  The outbound translation slices the text it has rewritten at the
    places it found in the text before.  When a cached user is named twice
    and the name is longer than twice the reference and a space, the
    second slice is out of bounds, and the translation panics. *)
Theorem ConvertUsersToRefs_panics_on_repeated_name
    (suc : SlackUserCache) (user : SlackUser) (w : string) (cacheOnly : bool) :
  str_forallb is_word_byte w = true →
  nicks suc !! strings_ToLower w = Some user →
  1 < String.length (Id user) →
  2 * String.length (Id user) + 6 < String.length w →
  ConvertUsersToRefs suc (("@" +:+ w) +:+ " " +:+ ("@" +:+ w)) cacheOnly
  = Panics "slice bounds out of range".
Proof.
  intros Hword Hcached Hlen Hlong.
  assert (w ≠ EmptyString) as Hw by (intros ->; simpl in Hlong; lia).
  unfold ConvertUsersToRefs, find_all_anchored.
  change (match_usernick _) with (@None (nat * nat * nat)). cbv iota.
  change (reverse []) with (@nil Match). unfold usernick_loop. go_step.
  unfold find_all.
  rewrite (find_all_from_match match_atusers 0 ("@" +:+ w) _ 1 (1 + String.length w));
    [|done|by apply match_atusers_name].
  rewrite (find_all_from_no_head match_atusers "@" _ " " ("@" +:+ w));
    [|apply match_atusers_begins|done].
  rewrite <- (str_app_nil_r ("@" +:+ w)) at 3.
  rewrite (find_all_from_match match_atusers _ ("@" +:+ w) _ 1 (1 + String.length w));
    [|done|by apply match_atusers_name].
  change (find_all_from _ _ 0 EmptyString) with (@nil Match).
  change (reverse [?a; ?b]) with [b; a].
  unfold atusers_loop. cbn [m2 m3].
  rewrite (str_slice_at _ (("@" +:+ w) +:+ " @") w EmptyString);
    [|by rewrite !str_app_assoc, str_app_nil_r
     |rewrite !str_length_app; simpl; lia
     |rewrite !str_length_app; simpl; lia].
  go_step. rewrite (UserId_cached suc w user) by done. cbv iota beta.
  replace (1 <? String.length (Id user)) with true
    by (symmetry; apply Nat.ltb_lt; lia).
  rewrite <- (str_app_nil_l (("@" +:+ w) +:+ " " +:+ "@" +:+ w)).
  rewrite <- (str_app_nil_r ("@" +:+ w)) at 2.
  rewrite !str_app_assoc.
  rewrite (ReplaceAll_twice ("@" +:+ w) _ "@" w EmptyString " " EmptyString)
    by done.
  rewrite str_app_nil_l, str_app_nil_r.
  rewrite str_slice_panics; [done|].
  rewrite !str_length_app. simpl. lia.
Qed.

End AtNames.

Lemma ConvertUsersToRefs_at_name_witness :
  @ConvertUsersToRefs ascii_case_tables no_directory
    (@CacheUser ascii_case_tables SlackUserCache_Setup bob)
    ("hi " +:+ ("@" +:+ "bob") +:+ ", ping") true
  = Ret (@CacheUser ascii_case_tables SlackUserCache_Setup bob,
         "hi " +:+ ("<@" +:+ Id bob +:+ ">") +:+ ", ping").
Proof.
  apply (@ConvertUsersToRefs_at_name ascii_case_tables no_directory
           (@CacheUser ascii_case_tables SlackUserCache_Setup bob) bob
           "bob" "hi " ", ping" true);
    try reflexivity; [discriminate|simpl; lia].
Defined.

Lemma ConvertUsersToRefs_panics_on_repeated_name_witness :
  @ConvertUsersToRefs ascii_case_tables no_directory
    (@CacheUser ascii_case_tables SlackUserCache_Setup bob_the_long)
    (("@" +:+ "robert_the_long") +:+ " " +:+ ("@" +:+ "robert_the_long")) true
  = Panics "slice bounds out of range".
Proof.
  apply (@ConvertUsersToRefs_panics_on_repeated_name ascii_case_tables no_directory
           (@CacheUser ascii_case_tables SlackUserCache_Setup bob_the_long)
           bob_the_long "robert_the_long" true);
    try reflexivity; simpl; lia.
Defined.

(* ------------------------------------------------------------------ *)
(** ** Outbound translation of the name shorthand *)
(* ------------------------------------------------------------------ *)


Section NameShorthand.
Context `{Unicode} `{SlackAPI}.


End NameShorthand.


(* ------------------------------------------------------------------ *)
(** ** The round trip of a single reference *)
(* ------------------------------------------------------------------ *)




Section RoundTrip.
Context `{Unicode} `{SlackAPI} `{MapOrder}.



End RoundTrip.


(* ------------------------------------------------------------------ *)
(** ** Links on several lines *)
(* ------------------------------------------------------------------ *)

(** A link that ends its line: what follows the line break is not looked
    at. *)
Lemma match_embeddedurls_line (x rest : string) :
  x ≠ EmptyString →
  str_mem ">" x = false → str_forallb not_newline x = true →
  match_embeddedurls (("<http" +:+ x +:+ ">") +:+ newline +:+ rest)
  = Some (String.length ("<http" +:+ x +:+ ">"), 1, 5 + String.length x).
Proof.
  intros Hx Hgt Hnl. unfold match_embeddedurls.
  rewrite !str_app_assoc, HasPrefix_self_app.
  change (str_drop 5 ("<http" +:+ x +:+ ">" +:+ newline +:+ rest))
    with (x +:+ ">" +:+ String "010" rest).
  rewrite <- (str_app_assoc x ">").
  rewrite span_app_stop; [| |done].
  2:{ by rewrite str_forallb_app, Hnl. }
  rewrite str_take_app_length.
  change (x +:+ ">") with (x +:+ String ">" EmptyString).
  rewrite last_index_app_last by done.
  destruct x as [|c x]; [done|]. simpl String.length.
  rewrite !str_length_app. simpl. do 3 f_equal; lia.
Qed.

Section LinksOnLines.
Context `{Html}.

(** X22.  [SimplifyParse] slices the text it has rewritten at the places it found
    in the text before.  When the same labelled link stands on two lines,
    and the two labels with the line break between them are shorter than
    the link, the slice for the first line is out of bounds and
    [SimplifyParse] panics. *)
Theorem SimplifyParse_panics_on_repeated_link (u l : string) :
  str_mem ">" u = false → str_forallb not_newline u = true →
  str_mem "|" u = false →
  l ≠ EmptyString →
  str_mem ">" l = false → str_forallb not_newline l = true →
  str_mem "|" l = false →
  2 * String.length l + 1
  < String.length ("<http" +:+ (u +:+ "|" +:+ l) +:+ ">") →
  SimplifyParse (("<http" +:+ (u +:+ "|" +:+ l) +:+ ">") +:+ newline
                 +:+ ("<http" +:+ (u +:+ "|" +:+ l) +:+ ">"))
  = Panics "slice bounds out of range".
Proof.
  intros Hu1 Hu2 Hu3 Hl Hl1 Hl2 Hl3 Hshort.
  set (x := u +:+ "|" +:+ l).
  assert (x ≠ EmptyString) as Hx by (subst x; by destruct u).
  assert (str_mem ">" x = false) as Hx1.
  { subst x. by rewrite !str_mem_app, Hu1, Hl1. }
  assert (str_forallb not_newline x = true) as Hx2.
  { subst x. by rewrite !str_forallb_app, Hu2, Hl2. }
  set (L := "<http" +:+ x +:+ ">").
  assert (L ≠ EmptyString) as HL by done.
  change (2 * String.length l + 1 < String.length L) in Hshort.
  unfold SimplifyParse, find_all.
  rewrite (find_all_from_match match_embeddedurls 0 L _ 1 (5 + String.length x));
    [|done|by apply match_embeddedurls_line].
  rewrite (find_all_from_no_head match_embeddedurls "<" _ newline L);
    [|apply match_embeddedurls_begins|done].
  rewrite <- (str_app_nil_r L) at 3.
  rewrite (find_all_from_match match_embeddedurls _ L _ 1 (5 + String.length x));
    [|done|by apply match_embeddedurls_link].
  change (find_all_from _ _ 0 EmptyString) with (@nil Match).
  change (reverse [?a; ?b]) with [b; a].
  unfold simplify_loop. cbn [m0 m1 m2 m3].
  rewrite (str_slice_at _ (L +:+ newline) L EmptyString);
    [|by rewrite !str_app_assoc, str_app_nil_r
     |rewrite !str_length_app; simpl; lia
     |rewrite !str_length_app; simpl; lia].
  go_step.
  rewrite (str_slice_at _ (L +:+ newline +:+ "<") ("http" +:+ x) ">");
    [|by rewrite !str_app_assoc
     |rewrite !str_length_app; simpl; lia
     |rewrite !str_length_app; simpl; lia].
  go_step.
  assert (strings_Split ("http" +:+ x) "|" = ["http" +:+ u; l]) as ->.
  { unfold strings_Split. subst x.
    change ("http" +:+ u +:+ "|" +:+ l) with (("http" +:+ u) +:+ String "|" l).
    rewrite split_from_head by by rewrite str_mem_app, Hu3.
    by rewrite split_from_none. }
  unfold link_label.
  replace (0 <? String.length l) with true
    by (symmetry; apply Nat.ltb_lt; destruct l; [done|simpl; lia]).
  rewrite <- (str_app_nil_l (L +:+ newline +:+ L)).
  rewrite <- (str_app_nil_r L) at 2.
  rewrite (ReplaceAll_twice L _ "<" ("http" +:+ x +:+ ">") EmptyString newline
             EmptyString) by done.
  rewrite str_app_nil_l, str_app_nil_r.
  rewrite str_slice_panics; [done|].
  rewrite !str_length_app. change (String.length newline) with 1. lia.
Qed.

End LinksOnLines.

Lemma SimplifyParse_panics_on_repeated_link_witness :
  @SimplifyParse slack_entities
    (("<http" +:+ ("://go.dev" +:+ "|" +:+ "Go") +:+ ">") +:+ newline
     +:+ ("<http" +:+ ("://go.dev" +:+ "|" +:+ "Go") +:+ ">"))
  = Panics "slice bounds out of range".
Proof.
  apply (@SimplifyParse_panics_on_repeated_link slack_entities "://go.dev" "Go");
    try reflexivity; [discriminate|simpl; lia].
Defined.

(* ------------------------------------------------------------------ *)
(** ** Two links on two lines *)
(* ------------------------------------------------------------------ *)

(** Two runs that end at the same byte, and have it nowhere else, are the
    same when one begins with the other. *)
Lemma HasPrefix_closed (c : ascii) (x1 x2 rest : string) :
  str_mem c x1 = false → str_mem c x2 = false →
  strings_HasPrefix (x1 +:+ String c rest) (x2 +:+ String c EmptyString) = true →
  x1 = x2.
Proof.
  revert x1. induction x2 as [|e x2 IH]; intros x1 H1 H2.
  - destruct x1 as [|d x1]; [done|].
    rewrite str_mem_cons in H1. apply orb_false_iff in H1 as [Hd _].
    rewrite str_app_nil_l, str_app_cons, HasPrefix_cons, Hd. done.
  - rewrite str_mem_cons in H2. apply orb_false_iff in H2 as [He H2].
    destruct x1 as [|d x1].
    + rewrite str_app_nil_l, str_app_cons, HasPrefix_cons.
      rewrite Ascii.eqb_sym, He. done.
    + rewrite str_mem_cons in H1. apply orb_false_iff in H1 as [_ H1].
      rewrite !str_app_cons, HasPrefix_cons.
      intros [->%Ascii.eqb_eq Hrest]%andb_true_iff. f_equal. by apply IH.
Qed.

Lemma split_from_parts (c d : ascii) (cur s : string) :
  str_mem d cur = false → str_mem d s = false →
  Forall (λ part, str_mem d part = false)
         (split_from (String c EmptyString) 0 cur s).
Proof.
  revert cur. induction s as [|e s IH]; intros cur Hcur Hs.
  - by constructor.
  - rewrite str_mem_cons in Hs. apply orb_false_iff in Hs as [He Hs].
    simpl. destruct (strings_HasPrefix _ _).
    + constructor; [done|]. by apply IH.
    + apply IH; [|done]. by rewrite str_mem_app, Hcur, str_mem_cons, He.
Qed.

Lemma link_label_part (d : ascii) (entire_url : string) (parts : list string) :
  parts ≠ [] →
  Forall (λ part, str_mem d part = false) parts →
  str_mem d (link_label entire_url parts) = false.
Proof.
  destruct parts as [|p0 [|p1 [|p2 rest]]]; [done| | |]; intros _ Hall; simpl.
  - by apply Forall_cons in Hall as [? _].
  - apply Forall_cons in Hall as [? [? _]%Forall_cons].
    by destruct (0 <? String.length p1).
  - by apply Forall_cons in Hall as [? _].
Qed.

Section TwoLinks.
Context `{Html}.

(** X21.  Two links that differ, each on a line of its own: each gives way to
    its label, the later one first, and the text is unescaped. *)
Theorem SimplifyParse_two_lines (x1 x2 : string) :
  x1 ≠ x2 →
  x1 ≠ EmptyString → str_mem ">" x1 = false → str_mem "<" x1 = false →
  str_forallb not_newline x1 = true →
  x2 ≠ EmptyString → str_mem ">" x2 = false → str_mem "<" x2 = false →
  str_forallb not_newline x2 = true →
  SimplifyParse (("<http" +:+ x1 +:+ ">") +:+ newline +:+ ("<http" +:+ x2 +:+ ">"))
  = Ret (html_UnescapeString
           (link_label ("<http" +:+ x1 +:+ ">") (strings_Split ("http" +:+ x1) "|")
            +:+ newline
            +:+ link_label ("<http" +:+ x2 +:+ ">")
                  (strings_Split ("http" +:+ x2) "|"))).
Proof.
  intros Hdiff Hx1 Hgt1 Hlt1 Hnl1 Hx2 Hgt2 Hlt2 Hnl2.
  set (L1 := "<http" +:+ x1 +:+ ">"). set (L2 := "<http" +:+ x2 +:+ ">").
  set (label1 := link_label L1 _). set (label2 := link_label L2 _).
  assert (str_mem "<" label2 = false) as Hlabel2.
  { apply link_label_part; [apply split_from_not_nil|].
    apply split_from_parts; [done|]. by rewrite str_mem_app, Hlt2. }
  unfold SimplifyParse, find_all.
  rewrite (find_all_from_match match_embeddedurls 0 L1 _ 1 (5 + String.length x1));
    [|done|by apply match_embeddedurls_line].
  rewrite (find_all_from_no_head match_embeddedurls "<" _ newline L2);
    [|apply match_embeddedurls_begins|done].
  rewrite <- (str_app_nil_r L2) at 1.
  rewrite (find_all_from_match match_embeddedurls _ L2 _ 1 (5 + String.length x2));
    [|done|by apply match_embeddedurls_link].
  change (find_all_from _ _ 0 EmptyString) with (@nil Match).
  change (reverse [?a; ?b]) with [b; a].
  unfold simplify_loop. cbn [m0 m1 m2 m3].
  rewrite (str_slice_at _ (L1 +:+ newline) L2 EmptyString);
    [|by rewrite !str_app_assoc, str_app_nil_r
     |rewrite !str_length_app; simpl; lia
     |rewrite !str_length_app; simpl; lia].
  go_step.
  rewrite (str_slice_at _ (L1 +:+ newline +:+ "<") ("http" +:+ x2) ">");
    [|by rewrite !str_app_assoc
     |rewrite !str_length_app; simpl; lia
     |rewrite !str_length_app; simpl; lia].
  go_step. fold label2.
  assert (strings_ReplaceAll (L1 +:+ newline +:+ L2) L2 label2
          = L1 +:+ newline +:+ label2) as ->.
  { change (strings_ReplaceAll (L1 +:+ newline +:+ L2) L2 label2)
      with (replace_from L2 label2 0 (L1 +:+ newline +:+ L2)).
    change (L1 +:+ newline +:+ L2)
      with (String "<" (("http" +:+ x1 +:+ ">") +:+ newline +:+ L2)).
    unfold replace_from; fold replace_from.
    assert (strings_HasPrefix
              (String "<" (("http" +:+ x1 +:+ ">") +:+ newline +:+ L2)) L2
            = false) as ->.
    { change (strings_HasPrefix
                (String "<" (String "h" (String "t" (String "t" (String "p"
                   ((x1 +:+ ">") +:+ newline +:+ L2))))))
                (String "<" (String "h" (String "t" (String "t" (String "p"
                   (x2 +:+ String ">" EmptyString))))))
              = false).
      rewrite !HasPrefix_cons. simpl andb. rewrite str_app_assoc.
      apply not_true_is_false. intros Hp. apply Hdiff.
      by apply (HasPrefix_closed ">" x1 x2 (newline +:+ L2)). }
    rewrite <- (str_app_assoc _ newline L2).
    rewrite (replace_from_no_head L2 label2 "<" ("http" +:+ x2 +:+ ">"));
      [|done|].
    2:{ rewrite !str_mem_app, Hlt1. done. }
    rewrite <- (str_app_nil_r L2) at 2.
    rewrite replace_from_match by done. simpl replace_from.
    rewrite str_app_nil_r, str_app_assoc. reflexivity. }
  rewrite (str_slice_at _ EmptyString L1 (newline +:+ label2)); [|done|done|done].
  go_step.
  rewrite (str_slice_at _ "<" ("http" +:+ x1) (">" +:+ newline +:+ label2));
    [|unfold L1; by rewrite !str_app_assoc|done
     |rewrite !str_length_app; simpl; lia].
  go_step. fold label1. go_step. do 2 f_equal.
  rewrite <- (str_app_nil_l (L1 +:+ newline +:+ label2)).
  apply (ReplaceAll_single L1 label1 "<" ("http" +:+ x1 +:+ ">") EmptyString);
    [done|done|].
  by rewrite str_mem_app, Hlabel2.
Qed.

End TwoLinks.

Lemma SimplifyParse_two_lines_witness :
  @SimplifyParse slack_entities
    (("<http" +:+ "://a.io|A" +:+ ">") +:+ newline +:+ ("<http" +:+ "://b.io" +:+ ">"))
  = Ret (@html_UnescapeString slack_entities
           (link_label ("<http" +:+ "://a.io|A" +:+ ">")
              (strings_Split ("http" +:+ "://a.io|A") "|")
            +:+ newline
            +:+ link_label ("<http" +:+ "://b.io" +:+ ">")
                  (strings_Split ("http" +:+ "://b.io") "|"))).
Proof.
  apply (@SimplifyParse_two_lines slack_entities "://a.io|A" "://b.io");
    try reflexivity; discriminate.
Defined.

(* ------------------------------------------------------------------ *)
(** ** Messages that come in, and replies that go back *)
(* ------------------------------------------------------------------ *)

Section ReceivingFacts.
Context `{Unicode} `{SlackAPI} `{MapOrder} `{Html} `{Strings} `{HttpEnv}.

Lemma ParseToEvent_event (self : BrokerRef) (suc suc' : SlackUserCache)
    (e : MessageEvent) (ev : Event) :
  ParseToEvent self suc e = Ret (suc', ev) →
  Origin ev = Some self ∧ ReplyBroker ev = None ∧ ReplyTarget ev = EmptyString
  ∧ IsCmdOutput ev = false ∧ ContentBlocks ev = []
  ∧ Actor ev = (UserNick suc (e_User e) false).2.
Proof.
  unfold ParseToEvent.
  destruct (UserNick suc (e_User e) false) as [suc1 nick].
  destruct (ConvertRefsToUsers _ _ _) as [[suc2 s]|]; [|done]. go_step.
  destruct (SimplifyParse s) as [text|]; [|done]. go_step.
  by intros [= <- <-].
Qed.

(** X24.  What the broker does with a message of its workspace.  A message of
    the bot itself, or of no user, is passed over: nothing is broadcast and
    nothing counted.  Any other message that can be parsed is broadcast as
    one event, with the broker for origin, and counted as sent; the event
    of a message from another channel than the broker's own is addressed
    back to the broker and to that channel, and the event of a message
    from the broker's channel has no reply address. *)
Theorem OnMessage_outcome (self : BrokerRef) (sb : SlackBroker) (e : MessageEvent) :
  (e_BotID e = mybotid sb ∨ e_User e = EmptyString →
   SlackBroker_OnMessage self sb e = Ret (sb, []))
  ∧ ∀ sb' evs,
      e_BotID e ≠ mybotid sb → e_User e ≠ EmptyString →
      SlackBroker_OnMessage self sb e = Ret (sb', evs) →
      sb_msgsSent sb' = incr64 (sb_msgsSent sb)
      ∧ sb_msgsRcvd sb' = sb_msgsRcvd sb
      ∧ chanid sb' = chanid sb
      ∧ ∃ ev, evs = [ev]
              ∧ Origin ev = Some self
              ∧ (e_Channel e = chanid sb →
                 ReplyBroker ev = None ∧ ReplyTarget ev = EmptyString)
              ∧ (e_Channel e ≠ chanid sb →
                 ReplyBroker ev = Some self ∧ ReplyTarget ev = e_Channel e).
Proof.
  unfold SlackBroker_OnMessage. split.
  - intros [-> | ->].
    + by rewrite String.eqb_refl.
    + by rewrite andb_false_r.
  - intros sb' evs Hbot Huser.
    apply String.eqb_neq in Hbot. rewrite Hbot.
    replace (0 <? String.length (e_User e)) with true
      by (symmetry; apply Nat.ltb_lt; destruct (e_User e); [done|simpl; lia]).
    simpl andb. cbv iota.
    destruct (ParseToEvent self (usercache sb) e) as [[suc ev]|] eqn:Hparse;
      [|done].
    go_step. intros [= <- <-]. simpl.
    destruct (ParseToEvent_event _ _ _ _ _ Hparse) as (Ho & Hb & Ht & _).
    do 3 (split; [done|]). eexists. split; [done|].
    destruct (String.eqb_spec (e_Channel e) (chanid sb)) as [Heq|Hne]; simpl.
    + by repeat split.
    + by repeat split.
Qed.

Lemma OnMessage_reply_address (self : BrokerRef) (sb sb' : SlackBroker)
    (e : MessageEvent) (ev : Event) :
  SlackBroker_OnMessage self sb e = Ret (sb', [ev]) →
  e_Channel e ≠ chanid sb →
  ReplyBroker ev = Some self ∧ ReplyTarget ev = e_Channel e.
Proof.
  unfold SlackBroker_OnMessage. intros Hmsg Hchan.
  destruct (_ && _); [|done].
  destruct (ParseToEvent self (usercache sb) e) as [[suc ev0]|]; [|done].
  rewrite go_bind_Ret in Hmsg. cbv beta iota in Hmsg.
  apply String.eqb_neq in Hchan. rewrite Hchan in Hmsg.
  by injection Hmsg as _ <-.
Qed.

End ReceivingFacts.

Example OnMessage_private_message :
  @SlackBroker_OnMessage ascii_case_tables no_directory canonical_order
    slack_entities ascii_strings (fixed_endpoint None) 7%positive
    example_slack private_message
  = Ret ({| usercache := usercache example_slack; chanid := "C1";
            channel := "general"; token := "xoxb"; mybotid := "B1";
            sb_msgsSent := 1; sb_msgsRcvd := 0 |}, [private_event]).
Proof. reflexivity. Qed.

(* ------------------------------------------------------------------ *)
(** ** [Setup] *)
(* ------------------------------------------------------------------ *)

Section SetupFacts.
Context `{Unicode} `{SlackAPI} `{SlackWorkspace}.

Lemma setup_channels_found (sb : SlackBroker) (channels pre post : list SlackChannel)
    (ch : SlackChannel) :
  channels = pre ++ ch :: post →
  Forall (λ c, ch_Name c ≠ channel sb) pre →
  ch_Name ch = channel sb →
  setup_channels sb channels
  = {| usercache := PopulateCache (usercache sb) (ch_Members ch);
       chanid := ch_ID ch; channel := channel sb; token := token sb;
       mybotid := mybotid sb; sb_msgsSent := sb_msgsSent sb;
       sb_msgsRcvd := sb_msgsRcvd sb |}.
Proof.
  intros -> Hpre Hch. induction Hpre as [|c pre Hc _ IH]; simpl.
  - rewrite Hch. by rewrite String.eqb_refl.
  - apply String.eqb_neq in Hc. by rewrite Hc.
Qed.

Lemma setup_channels_none (sb : SlackBroker) (channels : list SlackChannel) :
  Forall (λ c, ch_Name c ≠ channel sb) channels →
  setup_channels sb channels = sb.
Proof.
  induction 1 as [|c rest Hc _ IH]; simpl; [done|].
  apply String.eqb_neq in Hc. by rewrite Hc.
Qed.

(** X26.  [Setup] needs a token and a channel name, and a response to the
    identity call: it panics without them.  Otherwise it returns with the
    token, the name and the identity filed.  When the workspace has a
    channel of that name, the first such channel gives the broker its
    channel id, and the cache, emptied first, holds exactly the members of
    that channel the directory knows; when it has none, the channel id is
    left as it was and the cache is empty. *)
Theorem Setup_outcome (sb : SlackBroker) :
  (∀ args, length args < 2 → ∃ why, SlackBroker_Setup sb args = Panics why)
  ∧ ∀ tok name more,
      (AuthTest tok = None →
       ∃ why, SlackBroker_Setup sb (tok :: name :: more) = Panics why)
      ∧ ∀ myuid,
          AuthTest tok = Some myuid →
          ∃ sb',
            SlackBroker_Setup sb (tok :: name :: more) = Ret sb'
            ∧ token sb' = tok ∧ channel sb' = name ∧ mybotid sb' = myuid
            ∧ (∀ pre ch post,
                 GetChannels tok = pre ++ ch :: post →
                 Forall (λ c, ch_Name c ≠ name) pre →
                 ch_Name ch = name →
                 chanid sb' = ch_ID ch
                 ∧ ∀ uid user,
                     users (usercache sb') !! uid = Some user
                     ↔ uid ∈ ch_Members ch
                       ∧ Id user = uid
                       ∧ GetUserInfo uid = Some (Nick user, su_Avatar user))
            ∧ (Forall (λ c, ch_Name c ≠ name) (GetChannels tok) →
               chanid sb' = chanid sb
               ∧ usercache sb' = SlackUserCache_Setup).
Proof.
  split.
  { intros [|a [|b args]] Hlen; simpl in Hlen; [| |lia];
      unfold SlackBroker_Setup; eauto. }
  intros tok name more. split.
  { intros Hauth. unfold SlackBroker_Setup. rewrite Hauth. eauto. }
  intros myuid Hauth. unfold SlackBroker_Setup. rewrite Hauth.
  eexists. split; [done|].
  set (sb0 := {| usercache := usercache (SetupInternals sb);
                 chanid := chanid (SetupInternals sb); channel := name;
                 token := tok; mybotid := myuid;
                 sb_msgsSent := sb_msgsSent (SetupInternals sb);
                 sb_msgsRcvd := sb_msgsRcvd (SetupInternals sb) |}).
  assert (token (setup_channels sb0 (GetChannels tok)) = tok
          ∧ channel (setup_channels sb0 (GetChannels tok)) = name
          ∧ mybotid (setup_channels sb0 (GetChannels tok)) = myuid) as (-> & -> & ->).
  { induction (GetChannels tok) as [|c rest IH]; simpl; [done|].
    by destruct (String.eqb _ _). }
  do 3 (split; [done|]). split.
  - intros pre ch post Hch Hpre Hname.
    rewrite (setup_channels_found sb0 _ pre post ch) by done. simpl.
    split; [done|]. intros uid user.
    destruct (PopulateCache_lookup SlackUserCache_Setup (ch_Members ch) uid)
      as [Hin Hout].
    split.
    + intros Huser.
      destruct (decide (uid ∈ ch_Members ch)) as [Hmem|Hmem].
      * destruct (GetUserInfo uid) as [[nm img]|] eqn:Hinfo.
        -- rewrite (Hin Hmem nm img eq_refl) in Huser.
           injection Huser as <-. done.
        -- rewrite Hout in Huser by by right. simpl in Huser.
           by rewrite lookup_empty in Huser.
      * rewrite Hout in Huser by by left. simpl in Huser.
        by rewrite lookup_empty in Huser.
    + intros (Hmem & Hid & Hinfo).
      rewrite (Hin Hmem _ _ Hinfo). f_equal.
      destruct user; simpl in *. by subst.
  - intros Hnone. by rewrite (setup_channels_none sb0).
Qed.

End SetupFacts.

Example Setup_general :
  @SlackBroker_Setup ascii_case_tables directory_with_bob example_workspace
    example_slack ["xoxb"; "general"]
  = Ret example_slack
  ∧ @SlackBroker_Setup ascii_case_tables directory_with_bob example_workspace
      example_slack ["bad"; "general"]
    = Panics "nil pointer dereference"
  ∧ @SlackBroker_Setup ascii_case_tables directory_with_bob example_workspace
      example_slack ["xoxb"]
    = Panics "index out of range".
Proof. repeat split. Qed.

(* ------------------------------------------------------------------ *)
(** ** Posting *)
(* ------------------------------------------------------------------ *)

Section Posting.
Context `{Unicode} `{SlackAPI}.

(** A text without an at sign and without a leading name and colon has
    nothing to translate. *)
Lemma ConvertUsersToRefs_plain (suc : SlackUserCache) (t : string)
    (cacheOnly : bool) :
  str_mem "@" t = false → match_usernick t = None →
  ConvertUsersToRefs suc t cacheOnly = Ret (suc, t).
Proof.
  intros Hat Hlead. unfold ConvertUsersToRefs, find_all_anchored. rewrite Hlead.
  change (reverse []) with (@nil Match). unfold usernick_loop. go_step.
  unfold find_all.
  by rewrite (find_all_from_none match_atusers "@")
    by (done || apply match_atusers_begins).
Qed.

(** X23.  An event that is not addressed to another broker, has no content
    block, and whose text has no at sign and no leading name and colon, is
    posted once, with its text as it is, under the name of its actor: to
    its reply target when it has one, to the channel of the broker when it
    has none.  It is counted as received, and the cache is not touched. *)
Theorem HandleEvent_posts_plain_text (self : BrokerRef) (sb : SlackBroker)
    (ev : Event) :
  ReplyBroker ev = None ∨ ReplyBroker ev = Some self →
  ContentBlocks ev = [] →
  str_mem "@" (Text ev) = false →
  match_usernick (Text ev) = None →
  SlackBroker_HandleEvent self sb ev
  = Ret ({| usercache := usercache sb; chanid := chanid sb;
            channel := channel sb; token := token sb; mybotid := mybotid sb;
            sb_msgsSent := sb_msgsSent sb;
            sb_msgsRcvd := incr64 (sb_msgsRcvd sb) |},
         [{| post_dest := if String.eqb (ReplyTarget ev) EmptyString
                          then chanid sb else ReplyTarget ev;
             post_content := MsgOptionText (Text ev);
             post_username := Actor ev;
             post_icon_emoji := ":avatar_" +:+ Actor ev +:+ ":" |}]).
Proof.
  intros Hto Hblocks Hat Hlead. unfold SlackBroker_HandleEvent.
  assert (match ReplyBroker ev with
          | Some target => negb (target =? self)%positive
          | None => false
          end = false) as ->.
  { destruct Hto as [-> | ->]; [done|]. by rewrite Pos.eqb_refl. }
  rewrite ConvertUsersToRefs_plain by done. go_step.
  rewrite Hblocks. simpl. do 4 f_equal.
  by destruct (ReplyTarget ev).
Qed.

End Posting.

Lemma HandleEvent_posts_plain_text_witness :
  @SlackBroker_HandleEvent ascii_case_tables no_directory 7%positive example_slack
    (example_event "hello world")
  = Ret ({| usercache := usercache example_slack; chanid := chanid example_slack;
            channel := channel example_slack; token := token example_slack;
            mybotid := mybotid example_slack;
            sb_msgsSent := sb_msgsSent example_slack;
            sb_msgsRcvd := incr64 (sb_msgsRcvd example_slack) |},
         [{| post_dest := if String.eqb (ReplyTarget (example_event "hello world"))
                               EmptyString
                          then chanid example_slack
                          else ReplyTarget (example_event "hello world");
             post_content := MsgOptionText (Text (example_event "hello world"));
             post_username := Actor (example_event "hello world");
             post_icon_emoji :=
               ":avatar_" +:+ Actor (example_event "hello world") +:+ ":" |}]).
Proof.
  apply (@HandleEvent_posts_plain_text ascii_case_tables no_directory 7%positive
           example_slack (example_event "hello world"));
    [by left|reflexivity|reflexivity|reflexivity].
Defined.

(* ------------------------------------------------------------------ *)
(** ** Answering where the command came from *)
(* ------------------------------------------------------------------ *)

Section Answering.
Context `{Unicode} `{SlackAPI} `{MapOrder} `{Html} `{Strings} `{HttpEnv}.

(** X25.  A command sent to the bot in another channel than the broker's own is
    answered there.  The event of the message carries the broker and the
    channel as its reply address; the feedback event [Submit] builds for
    it, broadcast by the router, is passed over by every other broker that
    honours the reply broker.  The Slack broker the message came from
    posts it, once, to the channel the message came from, whenever the
    outbound translation of the text of the reply returns, as it does for
    every text without an at sign and without a leading name and colon;
    when the translation panics the call panics and nothing is posted. *)
Theorem private_command_answered_in_place
    (self router : BrokerRef) (sb sb' : SlackBroker) (e : MessageEvent)
    (ev : Event) (resp : Response) (fb : Event) :
  e_Channel e ≠ chanid sb → e_Channel e ≠ EmptyString →
  SlackBroker_OnMessage self sb e = Ret (sb', [ev]) →
  fb ∈ Submit_response ev resp →
  (∀ other sbo, other ≠ self →
     SlackBroker_HandleEvent other sbo (PRB_Activate_step router fb)
     = Ret (sbo, []))
  ∧ ∀ sb1,
      match ConvertUsersToRefs (usercache sb1) (Text fb) false with
      | Ret _ =>
        ∃ sb2 post,
          SlackBroker_HandleEvent self sb1 (PRB_Activate_step router fb)
          = Ret (sb2, [post])
          ∧ post_dest post = e_Channel e
      | Panics why =>
        SlackBroker_HandleEvent self sb1 (PRB_Activate_step router fb)
        = Panics why
      end
      ∧ (str_mem "@" (Text fb) = false → match_usernick (Text fb) = None →
         ∃ sb2 post,
           SlackBroker_HandleEvent self sb1 (PRB_Activate_step router fb)
           = Ret (sb2, [post])
           ∧ post_dest post = e_Channel e
           ∧ usercache sb2 = usercache sb1).
Proof.
  intros Hchan Hne Hmsg Hfb.
  assert (ReplyBroker ev = Some self ∧ ReplyTarget ev = e_Channel e) as [Hb Ht].
  { by apply (OnMessage_reply_address self sb sb' e ev). }
  assert (ReplyBroker fb = Some self ∧ ReplyTarget fb = e_Channel e) as [Hb' Ht'].
  { pose proof (Submit_response_reply_address ev resp) as Hall.
    rewrite Forall_forall in Hall. destruct (Hall fb Hfb) as [-> ->]. done. }
  assert (∀ chan, (String.length (e_Channel e) =? 0) = false
                  → (if String.length (e_Channel e) =? 0 then chan
                     else e_Channel e) = e_Channel e) as Hdest.
  { by intros chan ->. }
  assert ((String.length (e_Channel e) =? 0) = false) as Hlen.
  { apply Nat.eqb_neq. by destruct (e_Channel e). }
  split.
  - intros other sbo Hother. unfold SlackBroker_HandleEvent. simpl.
    rewrite Hb'. replace (self =? other)%positive with false; [done|].
    symmetry. by apply Pos.eqb_neq.
  - intros sb1. unfold SlackBroker_HandleEvent. simpl.
    rewrite Hb', Pos.eqb_refl. simpl negb. cbv iota. split.
    + destruct (ConvertUsersToRefs _ _ _) as [[suc txt]|why]; [|done].
      go_step. eexists _, _. split; [done|]. simpl. rewrite Ht'.
      by apply Hdest.
    + intros Hat Hlead. rewrite ConvertUsersToRefs_plain by done. go_step.
      eexists _, _. split; [done|]. simpl. rewrite Ht'. split; [|done].
      by apply Hdest.
Qed.

End Answering.

Lemma private_command_answered_in_place_witness :
  (∀ other sbo, other ≠ 7%positive →
     @SlackBroker_HandleEvent ascii_case_tables no_directory other sbo
       (PRB_Activate_step 3%positive ok_feedback)
     = Ret (sbo, []))
  ∧ ∀ sb1,
      match @ConvertUsersToRefs ascii_case_tables no_directory (usercache sb1)
              (Text ok_feedback) false with
      | Ret _ =>
        ∃ sb2 post,
          @SlackBroker_HandleEvent ascii_case_tables no_directory 7%positive sb1
            (PRB_Activate_step 3%positive ok_feedback)
          = Ret (sb2, [post])
          ∧ post_dest post = e_Channel private_message
      | Panics why =>
        @SlackBroker_HandleEvent ascii_case_tables no_directory 7%positive sb1
          (PRB_Activate_step 3%positive ok_feedback)
        = Panics why
      end
      ∧ (str_mem "@" (Text ok_feedback) = false →
         match_usernick (Text ok_feedback) = None →
         ∃ sb2 post,
           @SlackBroker_HandleEvent ascii_case_tables no_directory 7%positive sb1
             (PRB_Activate_step 3%positive ok_feedback)
           = Ret (sb2, [post])
           ∧ post_dest post = e_Channel private_message
           ∧ usercache sb2 = usercache sb1).
Proof.
  apply (@private_command_answered_in_place ascii_case_tables no_directory
           canonical_order slack_entities ascii_strings
           (fixed_endpoint (Some ("200 OK", ok_body)))
           7%positive 3%positive example_slack
           {| usercache := usercache example_slack; chanid := "C1";
              channel := "general"; token := "xoxb"; mybotid := "B1";
              sb_msgsSent := 1; sb_msgsRcvd := 0 |}
           private_message private_event ok_response ok_feedback).
  - discriminate.
  - discriminate.
  - reflexivity.
  - apply list_elem_of_singleton. reflexivity.
Defined.

(** The reply of the example is posted to the private channel. *)
Example private_command_example :
  ∃ sb2 post,
    @SlackBroker_HandleEvent ascii_case_tables no_directory 7%positive
      example_slack (PRB_Activate_step 3%positive ok_feedback)
    = Ret (sb2, [post])
    ∧ post_dest post = "D1".
Proof. eexists _, _. split; reflexivity. Qed.

(* ------------------------------------------------------------------ *)
(** ** Overrides from the environment *)
(* ------------------------------------------------------------------ *)

Section EnvOverridesFacts.
Context `{Unicode} `{Environ}.

Lemma override_fields_broker (key : string) (bcfg : BrokerConfig) :
  override_fields key BrokerConfig_fields bcfg
  = if String.eqb (os_Getenv (envnm key "SSL")) EmptyString
    then Ret (overridden key bcfg)
    else Panics "reflect: call of reflect.Value.SetString on bool Value".
Proof.
  unfold BrokerConfig_fields, override_fields, overridden.
  cbn [envcfg_tag]. cbv zeta.
  change (String.eqb EmptyString EmptyString) with true.
  change (String.eqb "SERVER" EmptyString) with false.
  change (String.eqb "APITOKEN" EmptyString) with false.
  change (String.eqb "SSL" EmptyString) with false.
  change (String.eqb "NICK" EmptyString) with false.
  change (String.eqb "CHANNEL" EmptyString) with false.
  cbv iota. destruct bcfg.
  destruct (String.eqb (os_Getenv (envnm key "SERVER")) EmptyString);
    destruct (String.eqb (os_Getenv (envnm key "APITOKEN")) EmptyString);
    destruct (String.eqb (os_Getenv (envnm key "SSL")) EmptyString);
    destruct (String.eqb (os_Getenv (envnm key "NICK")) EmptyString);
    destruct (String.eqb (os_Getenv (envnm key "CHANNEL")) EmptyString);
    reflexivity.
Qed.

(** X27.  The overrides from the environment.  When every broker of the
    configuration is there and none has its SSL variable set, every broker
    comes back with its server, token, nick and channel taken from the
    variables that are set and not empty, and with everything else as it
    was; a variable that is empty or not set changes nothing.  When some
    broker has its SSL variable set, or is a null entry, [envOverrides]
    panics: the SSL setting is a boolean, and it is written as a string. *)
Theorem envOverrides_outcome (cfg : Config) :
  ((∀ key ob, Brokers cfg !! key = Some ob →
              is_Some ob ∧ os_Getenv (envnm key "SSL") = EmptyString) →
   envOverrides cfg
   = Ret {| ActiveBrokers := ActiveBrokers cfg;
            Brokers := map_imap (λ key ob, Some (overridden key <$> ob))
                         (Brokers cfg) |})
  ∧ ((∃ key ob, Brokers cfg !! key = Some ob
                ∧ (ob = None ∨ os_Getenv (envnm key "SSL") ≠ EmptyString)) →
     ∃ why, envOverrides cfg = Panics why).
Proof.
  unfold envOverrides.
  set (step := λ (key : string) (bcfg : option BrokerConfig)
                 (acc : go (gmap string (option BrokerConfig))),
         done ←! acc;
         bcfg ←! override_broker key bcfg;
         Ret (<[key := bcfg]> done)).
  set (over := λ (key : string) (ob : option BrokerConfig),
         Some (overridden key <$> ob)).
  set (clean := λ m : gmap string (option BrokerConfig),
         ∀ key ob, m !! key = Some ob →
                   is_Some ob ∧ os_Getenv (envnm key "SSL") = EmptyString).
  set (dirty := λ m : gmap string (option BrokerConfig),
         ∃ key ob, m !! key = Some ob
                   ∧ (ob = None ∨ os_Getenv (envnm key "SSL") ≠ EmptyString)).
  assert (∀ m, (clean m ∧ map_fold step (Ret ∅) m
                          = Ret (map_imap over m))
               ∨ (dirty m ∧ ∃ why, map_fold step (Ret ∅) m = Panics why)) as Hfold.
  { intros m.
    apply (map_fold_weak_ind
      (λ r (m : gmap string (option BrokerConfig)),
         (clean m ∧ r = Ret (map_imap over m))
         ∨ (dirty m ∧ ∃ why, r = Panics why))).
    - left. split; [|by rewrite map_imap_empty].
      intros key ob Hk. by rewrite lookup_empty in Hk.
    - intros i x m' r Hi [[Hclean ->]|[(key & ob & Hkey & Hset) [why ->]]].
      + unfold step. go_step. destruct x as [bcfg|]; cbn [override_broker].
        * rewrite override_fields_broker.
          destruct (String.eqb_spec (os_Getenv (envnm i "SSL")) EmptyString)
            as [Hi0|Hi1].
          -- left. split; [|by rewrite !go_bind_Ret, map_imap_insert].
             intros key ob Hkey. destruct (decide (key = i)) as [->|Hne].
             ++ rewrite lookup_insert_eq in Hkey. injection Hkey as <-. eauto.
             ++ rewrite lookup_insert_ne in Hkey by done. by apply Hclean.
          -- right. split; [|simpl; eauto].
             exists i, (Some bcfg). split; [apply lookup_insert_eq|by right].
        * right. split; [|simpl; eauto].
          exists i, None. split; [apply lookup_insert_eq|by left].
      + right. split; [|unfold step; simpl; eauto].
        destruct (decide (key = i)) as [->|Hne]; [congruence|].
        exists key, ob. split; [|done]. by rewrite lookup_insert_ne. }
  destruct (Hfold (Brokers cfg)) as [[Hclean ->]|[Hdirty [why ->]]]; split.
  - done.
  - intros (key & ob & Hkey & Hset).
    destruct (Hclean key ob Hkey) as [[b ->] Hssl]. by destruct Hset.
  - intros Hclean. destruct Hdirty as (key & ob & Hkey & Hset).
    destruct (Hclean key ob Hkey) as [[b ->] Hssl]. by destruct Hset.
  - intros _. simpl. eauto.
Qed.

End EnvOverridesFacts.

Example envOverrides_example :
  @envOverrides ascii_case_tables (example_environ EmptyString) example_config
  = Ret {| ActiveBrokers := ["irc"];
           Brokers := {["irc" := Some {|
             bc_Type := "irc"; bc_Server := "irc.example.com:6667";
             bc_ApiToken := EmptyString; bc_UseSSL := false; bc_Nick := "smug";
             bc_Channel := "#smug"; bc_Patterns := [] |}]} |}
  ∧ @envOverrides ascii_case_tables (example_environ "true") example_config
    = Panics "reflect: call of reflect.Value.SetString on bool Value".
Proof. split; reflexivity. Qed.
